(** * Track stitching and line-crossing counting

    A shallow embedding of [src/id_stitcher.py] (class [TrackIDStitcher])
    and [src/counter.py] (class [LineCrossingCounter]), with the
    properties of both that the specification states.

    Around them, the loop of [track_sequence] ([src/tracker_botsort.py]),
    [process_sequence] from the tracking results on ([src/run.py]) and
    the bookkeeping of [create_video] ([src/visualizer.py]), with
    further properties read off the code.

    Modelling conventions.
    - Python [int] (frame numbers, track ids, counters) is [Z].
    - Python [float] and numpy [float64] are the binary64 numbers of
      IEEE 754, Rocq's primitive [float], with its rounding, signed
      zeros, infinities and NaN.  A numpy scalar is an [int64], a [Z]
      read modulo 2^64, or a [float64]; arithmetic on two [int64]
      wraps around, and an [int64] next to a [float64] is converted.
      [np.linalg.norm] of a pair is the square root of the sum of the
      two rounded squares.  The one number kept exact is
      [reduction_percentage], the quotient of two counts.
    - [dict] is stdpp's [gmap]; a [dict] whose iteration order matters is
      turned into a list explicitly ([sorted(segments.keys())]).
    - Exceptions are values of [result]; the [while] loop of
      [_get_master_id] takes a fuel argument and reports [OutOfFuel]
      when it is exhausted.
    - The track dictionaries mutated by [_apply_id_mapping] live in a
      store ([list Track], addressed by index) so that aliasing between
      the caller's sequence and the returned one is visible. *)

From Stdlib Require Import Floats.
From Stdlib Require Import ZArith QArith Lia List.
From stdpp Require Import base gmap list sorting relations strings.

Open Scope Z_scope.

(** ** Python results *)

Inductive exn : Type :=
| ZeroDivisionError
| TypeError
| KeyError
| IndexError
| AttributeError
| cv2_error.

Inductive result (A : Type) : Type :=
| Ok (a : A)
| Raise (e : exn)
| OutOfFuel.

Arguments Ok {A} a.
Arguments Raise {A} e.
Arguments OutOfFuel {A}.

Definition bind {A B : Type} (r : result A) (k : A -> result B) : result B :=
  match r with
  | Ok a => k a
  | Raise e => Raise e
  | OutOfFuel => OutOfFuel
  end.

Notation "'let*' x ':=' r 'in' k" := (bind r (fun x => k))
  (at level 10, x name, r at level 100, k at level 200, only parsing).

Definition of_fuel {A : Type} (o : option A) : result A :=
  match o with
  | Some a => Ok a
  | None => OutOfFuel
  end.

Definition subscript {A : Type} (o : option A) : result A :=
  match o with
  | Some a => Ok a
  | None => Raise KeyError
  end.

(** ** Numbers *)

(** [float(z)]: the double nearest to an integer, ties to even. *)
Definition of_int (z : Z) : float :=
  SF2Prim (binary_normalize prec emax z 0 false).

(** The [int64] a [Z] stands for. *)
Definition wrap64 (z : Z) : Z := (z + 2 ^ 63) mod 2 ^ 64 - 2 ^ 63.

(** A numpy scalar, as an element of an array of dtype [int64] or
    [float64]. *)
Inductive scalar : Type :=
| I64 (z : Z)
| F64 (f : float).

Definition as_float (a : scalar) : float :=
  match a with
  | I64 z => of_int (wrap64 z)
  | F64 f => f
  end.

(** [a - b], [a * b] and [a > b] on numpy scalars. *)
Definition np_sub (a b : scalar) : scalar :=
  match a, b with
  | I64 x, I64 y => I64 (wrap64 (x - y))
  | _, _ => F64 (as_float a - as_float b)
  end.

Definition np_mul (a b : scalar) : scalar :=
  match a, b with
  | I64 x, I64 y => I64 (wrap64 (x * y))
  | _, _ => F64 (as_float a * as_float b)
  end.

Definition np_gt (a b : scalar) : bool :=
  match a, b with
  | I64 x, I64 y => wrap64 y <? wrap64 x
  | _, _ => (as_float b <? as_float a)%float
  end.

(** Python's [min(a, b)] and [max(a, b)] on floats: the second argument
    is returned only when it compares strictly below, or above, the
    first. *)
Definition py_min (a b : float) : float := if (b <? a)%float then b else a.
Definition py_max (a b : float) : float := if (a <? b)%float then b else a.

(** [a / b] on Python floats. *)
Definition float_div (a b : float) : result float :=
  if (b =? 0)%float then Raise ZeroDivisionError else Ok (a / b)%float.

(** [a / b] on Python integers, as the exact quotient. *)
Definition py_div (a b : Q) : result Q :=
  if Qeq_bool b 0 then Raise ZeroDivisionError else Ok (a / b)%Q.

(** The rational a finite float stands for (0 for the others). *)
Definition exact (f : float) : Q :=
  match Prim2SF f with
  | S754_finite s m e =>
      let q := if 0 <=? e then inject_Z (Z.pos m * 2 ^ e)
               else (inject_Z (Z.pos m) / inject_Z (2 ^ (- e)))%Q in
      if s then (- q)%Q else q
  | _ => 0%Q
  end.

(** [float('inf')] next to the integers. *)
Inductive bound : Type :=
| Fin (z : Z)
| PosInf.

(** [n < b], [b - n] and [b <= n] for an integer [n] and a bound [b]. *)
Definition lt_bound (n : Z) (b : bound) : bool :=
  match b with
  | Fin z => n <? z
  | PosInf => true
  end.

Definition bound_sub (b : bound) (n : Z) : bound :=
  match b with
  | Fin z => Fin (z - n)
  | PosInf => PosInf
  end.

Definition bound_le (b : bound) (n : Z) : bool :=
  match b with
  | Fin z => z <=? n
  | PosInf => false
  end.

(** ** Data model *)

(** A position: a list of two Python numbers read as the array
    [np.array] makes of it, of dtype [int64] for two integers (taken in
    the range of [int64]) and [float64] otherwise. *)
Inductive Pos : Type :=
| IntPos (x y : Z)
| FloatPos (x y : float).

(** [p[0]] and [p[1]]. *)
Definition item0 (p : Pos) : scalar :=
  match p with
  | IntPos x _ => I64 x
  | FloatPos x _ => F64 x
  end.

Definition item1 (p : Pos) : scalar :=
  match p with
  | IntPos _ y => I64 y
  | FloatPos _ y => F64 y
  end.

(** A box [x1, y1, x2, y2] of Python floats. *)
Record BBox : Type := mkBBox { x1 : float; y1 : float; x2 : float; y2 : float }.

(** A track dictionary.  [stitched] is [None] until [_apply_id_mapping]
    adds the key. *)
Record Track : Type := mkTrack {
  t_frame : Z;
  track_id : Z;
  bbox : BBox;
  center : Pos;
  confidence : float;
  stitched : option bool
}.

(** A frame dictionary as a value: its tracks read out of the store. *)
Record FrameData : Type := mkFrameData {
  frame : Z;
  image_path : string;
  tracks : list Track
}.

(** A frame dictionary as Python holds it: references to track
    dictionaries. *)
Record FrameRef : Type := mkFrameRef {
  r_frame : Z;
  r_image_path : string;
  r_tracks : list nat
}.

Definition heap : Type := list Track.

Definition deref (h : heap) (f : FrameRef) : FrameData :=
  {| frame := r_frame f;
     image_path := r_image_path f;
     tracks := omap (fun l : nat => h !! l) (r_tracks f) |}.

Definition deref_all (h : heap) (fs : list FrameRef) : list FrameData :=
  map (deref h) fs.

(** Allocation of a value-level sequence: every track dictionary gets a
    cell of its own, as the tracker builds them. *)
Fixpoint alloc (h : heap) (fs : list FrameData) : heap * list FrameRef :=
  match fs with
  | [] => (h, [])
  | f :: fs' =>
      let ts := tracks f in
      let r := {| r_frame := frame f;
                  r_image_path := image_path f;
                  r_tracks := seq (length h) (length ts) |} in
      let '(h', rs) := alloc (h ++ ts) fs' in
      (h', r :: rs)
  end.

Module Stitcher.

Record Config : Type := mkConfig {
  max_frame_gap : Z;
  position_threshold : float;
  size_similarity_threshold : float
}.

Record Segment : Type := mkSegment {
  start_frame : bound;
  end_frame : Z;
  start_position : option Pos;
  end_position : option Pos;
  start_bbox : option BBox;
  end_bbox : option BBox;
  frames : list Z
}.

(** The [defaultdict] factory of [_build_track_segments]. *)
Definition default_segment : Segment :=
  {| start_frame := PosInf;
     end_frame := 0;
     start_position := None;
     end_position := None;
     start_bbox := None;
     end_bbox := None;
     frames := [] |}.

(** [seg['frames'].append(frame_num)]. *)
Definition append_frame (frame_num : Z) (seg : Segment) : Segment :=
  {| start_frame := start_frame seg; end_frame := end_frame seg;
     start_position := start_position seg; end_position := end_position seg;
     start_bbox := start_bbox seg; end_bbox := end_bbox seg;
     frames := frames seg ++ [frame_num] |}.

(** [if frame_num < seg['start_frame']: ...]. *)
Definition update_start (frame_num : Z) (track : Track) (seg : Segment) : Segment :=
  if lt_bound frame_num (start_frame seg) then
    {| start_frame := Fin frame_num; end_frame := end_frame seg;
       start_position := Some (center track); end_position := end_position seg;
       start_bbox := Some (bbox track); end_bbox := end_bbox seg;
       frames := frames seg |}
  else seg.

(** [if frame_num > seg['end_frame']: ...]. *)
Definition update_end (frame_num : Z) (track : Track) (seg : Segment) : Segment :=
  if frame_num >? end_frame seg then
    {| start_frame := start_frame seg; end_frame := frame_num;
       start_position := start_position seg; end_position := Some (center track);
       start_bbox := start_bbox seg; end_bbox := Some (bbox track);
       frames := frames seg |}
  else seg.

(** The body of the inner loop of [_build_track_segments]. *)
Definition observe (frame_num : Z) (segments : gmap Z Segment) (track : Track)
  : gmap Z Segment :=
  let seg := default default_segment (segments !! track_id track) in
  let seg := append_frame frame_num seg in
  let seg := update_start frame_num track seg in
  let seg := update_end frame_num track seg in
  <[track_id track := seg]> segments.

Definition observe_frame (segments : gmap Z Segment) (frame_data : FrameData)
  : gmap Z Segment :=
  foldl (observe (frame frame_data)) segments (tracks frame_data).

Definition _build_track_segments (results : list FrameData) : gmap Z Segment :=
  foldl observe_frame ∅ results.

(** [while track_id in merge_map: track_id = merge_map[track_id]]. *)
Fixpoint _get_master_id (fuel : nat) (track_id : Z) (merge_map : gmap Z Z)
  : option Z :=
  match merge_map !! track_id with
  | None => Some track_id
  | Some next =>
      match fuel with
      | O => None
      | S fuel' => _get_master_id fuel' next merge_map
      end
  end.

Definition _get_bbox_size (b : BBox) : float :=
  ((x2 b - x1 b) * (y2 b - y1 b))%float.

(** [np.linalg.norm(np.array(p) - np.array(q))]: the difference of the
    two arrays, converted to [float64] if it is of integers, then the
    square root of its dot product with itself. *)
Definition distance (p q : Pos) : float :=
  let dx := as_float (np_sub (item0 p) (item0 q)) in
  let dy := as_float (np_sub (item1 p) (item1 q)) in
  PrimFloat.sqrt (dx * dx + dy * dy)%float.

(** The test both cases of [_find_merge_candidates] run once the frame
    gap is small enough: [p] and [q] are the positions subtracted,
    [bbox_a] and [bbox_b] the boxes of [seg_a] and [seg_b] compared.
    [np.array(None) - ...] and unpacking [None] raise [TypeError]. *)
Definition similar (cfg : Config) (p q : option Pos) (bbox_a bbox_b : option BBox)
  : result bool :=
  match p, q with
  | Some p, Some q =>
      let dist := distance p q in
      match bbox_a, bbox_b with
      | Some ba, Some bb =>
          let size_a := _get_bbox_size ba in
          let size_b := _get_bbox_size bb in
          let* size_ratio := float_div (py_min size_a size_b) (py_max size_a size_b) in
          Ok ((dist <? position_threshold cfg)%float
              && (size_similarity_threshold cfg <? size_ratio)%float)
      | _, _ => Raise TypeError
      end
  | _, _ => Raise TypeError
  end.

(** The decision taken for one pair: [Some (master_id, slave_id)] when
    [should_merge] is set. *)
Definition merge_decision (cfg : Config)
    (track_id_a : Z) (seg_a : Segment) (track_id_b : Z) (seg_b : Segment)
  : result (option (Z * Z)) :=
  if lt_bound (end_frame seg_a) (start_frame seg_b) then
    let frame_gap := bound_sub (start_frame seg_b) (end_frame seg_a) in
    if bound_le frame_gap (max_frame_gap cfg) then
      let* ok := similar cfg (end_position seg_a) (start_position seg_b)
                        (end_bbox seg_a) (start_bbox seg_b) in
      Ok (if ok : bool then Some (track_id_a, track_id_b) else None)
    else Ok None
  else if lt_bound (end_frame seg_b) (start_frame seg_a) then
    let frame_gap := bound_sub (start_frame seg_a) (end_frame seg_b) in
    if bound_le frame_gap (max_frame_gap cfg) then
      let* ok := similar cfg (end_position seg_b) (start_position seg_a)
                        (start_bbox seg_a) (end_bbox seg_b) in
      Ok (if ok : bool then Some (track_id_b, track_id_a) else None)
    else Ok None
  else Ok None.

(** [if should_merge: merge_map[slave_id] = _get_master_id(master_id)]. *)
Definition record_merge (fuel : nat) (merge_map : gmap Z Z) (d : option (Z * Z))
  : result (gmap Z Z) :=
  match d with
  | None => Ok merge_map
  | Some (master_id, slave_id) =>
      let* final_master := of_fuel (_get_master_id fuel master_id merge_map) in
      Ok (<[slave_id := final_master]> merge_map)
  end.

(** The inner loop, over [track_ids[i + 1:]]. *)
Fixpoint inner_loop (fuel : nat) (cfg : Config) (segments : gmap Z Segment)
    (track_id_a : Z) (seg_a : Segment) (rest : list Z) (merge_map : gmap Z Z)
  : result (gmap Z Z) :=
  match rest with
  | [] => Ok merge_map
  | track_id_b :: rest' =>
      let* seg_b := subscript (segments !! track_id_b) in
      let* d := merge_decision cfg track_id_a seg_a track_id_b seg_b in
      let* merge_map' := record_merge fuel merge_map d in
      inner_loop fuel cfg segments track_id_a seg_a rest' merge_map'
  end.

(** The outer loop, over [enumerate(track_ids)]. *)
Fixpoint outer_loop (fuel : nat) (cfg : Config) (segments : gmap Z Segment)
    (track_ids : list Z) (merge_map : gmap Z Z) : result (gmap Z Z) :=
  match track_ids with
  | [] => Ok merge_map
  | track_id_a :: rest =>
      let* seg_a := subscript (segments !! track_id_a) in
      let* merge_map' := inner_loop fuel cfg segments track_id_a seg_a rest merge_map in
      outer_loop fuel cfg segments rest merge_map'
  end.

Definition sorted_keys (segments : gmap Z Segment) : list Z :=
  merge_sort Z.le (elements (dom segments)).

Definition _find_merge_candidates (fuel : nat) (cfg : Config)
    (segments : gmap Z Segment) : result (gmap Z Z) :=
  outer_loop fuel cfg segments (sorted_keys segments) ∅.

(** [expanded_map[old_id] = _get_master_id(old_id, merge_map)] for the
    keys of [merge_map]. *)
Fixpoint expand (fuel : nat) (merge_map : gmap Z Z) (keys : list Z)
    (expanded_map : gmap Z Z) : result (gmap Z Z) :=
  match keys with
  | [] => Ok expanded_map
  | old_id :: keys' =>
      let* master := of_fuel (_get_master_id fuel old_id merge_map) in
      expand fuel merge_map keys' (<[old_id := master]> expanded_map)
  end.

Definition expanded (fuel : nat) (merge_map : gmap Z Z) : result (gmap Z Z) :=
  expand fuel merge_map (map fst (map_to_list merge_map)) ∅.

(** The body of the loop over [frame_data['tracks']]: the track
    dictionary in cell [l] is updated in place. *)
Definition relabel (expanded_map : gmap Z Z) (h : heap) (l : nat) : heap :=
  match h !! l with
  | None => h
  | Some track =>
      match expanded_map !! track_id track with
      | Some new_id =>
          <[l := {| t_frame := t_frame track; track_id := new_id;
                    bbox := bbox track; center := center track;
                    confidence := confidence track;
                    stitched := Some true |}]> h
      | None =>
          <[l := {| t_frame := t_frame track; track_id := track_id track;
                    bbox := bbox track; center := center track;
                    confidence := confidence track;
                    stitched := Some false |}]> h
      end
  end.

(** The body of the loop over [results]: [new_tracks] is a new list of
    the same references, and the frame dictionary is copied around it. *)
Definition relabel_frame (expanded_map : gmap Z Z)
    (st : heap * list FrameRef) (frame_data : FrameRef) : heap * list FrameRef :=
  let h := foldl (relabel expanded_map) (fst st) (r_tracks frame_data) in
  let new_tracks := r_tracks frame_data in
  (h, snd st ++ [{| r_frame := r_frame frame_data;
                    r_image_path := r_image_path frame_data;
                    r_tracks := new_tracks |}]).

Definition _apply_id_mapping (fuel : nat) (h : heap) (results : list FrameRef)
    (merge_map : gmap Z Z) : result (heap * list FrameRef) :=
  let* expanded_map := expanded fuel merge_map in
  Ok (foldl (relabel_frame expanded_map) (h, []) results).

(** [stitch_tracks]: the store after the call and the returned list. *)
Definition stitch_tracks (fuel : nat) (cfg : Config) (h : heap)
    (tracking_results : list FrameRef) : result (heap * list FrameRef) :=
  let track_segments := _build_track_segments (deref_all h tracking_results) in
  let* merge_map := _find_merge_candidates fuel cfg track_segments in
  _apply_id_mapping fuel h tracking_results merge_map.

Record Statistics : Type := mkStatistics {
  original_unique_ids : Z;
  stitched_unique_ids : Z;
  ids_merged : Z;
  reduction_percentage : Q
}.

Definition count_unique_ids (results : list FrameData) : Z :=
  let ids : gset Z :=
    foldl (fun ids frame_data =>
             foldl (fun ids track => {[track_id track]} ∪ ids) ids (tracks frame_data))
          ∅ results in
  Z.of_nat (size ids).

(** [get_statistics], on the two sequences as they read when it is
    called. *)
Definition get_statistics (original_results stitched_results : list FrameData)
  : result Statistics :=
  let original_count := count_unique_ids original_results in
  let stitched_count := count_unique_ids stitched_results in
  let* q := py_div (inject_Z (original_count - stitched_count))
                   (inject_Z original_count) in
  Ok {| original_unique_ids := original_count;
        stitched_unique_ids := stitched_count;
        ids_merged := original_count - stitched_count;
        reduction_percentage := (q * 100)%Q |}.

(** *** Notions used to state the properties of the stitcher *)

(** The detections of a sequence in the order the builder visits them. *)
Definition observations (results : list FrameData) : list (Z * Track) :=
  concat (map (fun f => map (fun t => (frame f, t)) (tracks f)) results).

(** The builder run over a list of detections. *)
Definition observe_all (segments : gmap Z Segment) (obs : list (Z * Track))
  : gmap Z Segment :=
  foldl (fun segs o => observe (fst o) segs (snd o)) segments obs.

(** What the builder guarantees of the segment of [tid] after the
    detections [obs]. *)
Definition seg_ok (obs : list (Z * Track)) (tid : Z) (seg : Segment) : Prop :=
  exists s : Z,
    start_frame seg = Fin s /\
    s <= end_frame seg /\
    (exists t, (s, t) ∈ obs /\ track_id t = tid /\
               start_position seg = Some (center t) /\
               start_bbox seg = Some (bbox t)) /\
    (exists t, (end_frame seg, t) ∈ obs /\ track_id t = tid /\
               end_position seg = Some (center t) /\
               end_bbox seg = Some (bbox t)) /\
    (s = end_frame seg ->
       start_position seg = end_position seg /\ start_bbox seg = end_bbox seg) /\
    (forall n t, (n, t) ∈ obs -> track_id t = tid -> s <= n <= end_frame seg).

(** The keys of [segments] are the ids detected, and every segment is
    as [seg_ok] says. *)
Definition build_inv (obs : list (Z * Track)) (segments : gmap Z Segment) : Prop :=
  (forall tid, is_Some (segments !! tid) <->
               exists n t, (n, t) ∈ obs /\ track_id t = tid) /\
  (forall tid seg, segments !! tid = Some seg -> seg_ok obs tid seg).

(** The ratio [min(size_a, size_b) / max(size_a, size_b)] exists and
    compares above [t]. *)
Definition ratio_gt (t size_a size_b : float) : Prop :=
  exists ratio,
    float_div (py_min size_a size_b) (py_max size_a size_b) = Ok ratio /\
    (t <? ratio)%float = true.

(** The later segment [later] passes the three tests of the resolver
    with [earlier], as the code computes them: the frame gap, the
    distance from the end of [earlier] to the start of [later], and the
    ratio of the areas of the two boxes, the box of the track with the
    smaller id first ([earlier_first] tells whether that is
    [earlier]). *)
Definition mergeable (cfg : Config) (earlier later : Segment) (earlier_first : bool)
  : Prop :=
  exists (s : Z) (p q : Pos) (ba bb : BBox),
    start_frame later = Fin s /\
    end_position earlier = Some p /\ start_position later = Some q /\
    end_bbox earlier = Some ba /\ start_bbox later = Some bb /\
    s - end_frame earlier <= max_frame_gap cfg /\
    (distance p q <? position_threshold cfg)%float = true /\
    (if earlier_first
     then ratio_gt (size_similarity_threshold cfg) (_get_bbox_size ba) (_get_bbox_size bb)
     else ratio_gt (size_similarity_threshold cfg) (_get_bbox_size bb) (_get_bbox_size ba)).

(** [earlier] ends strictly before [later] starts. *)
Definition precedes (earlier later : Segment) : Prop :=
  exists s : Z, start_frame later = Fin s /\ end_frame earlier < s.

(** The Track Segment invariant. *)
Definition well_formed (seg : Segment) : Prop :=
  exists s : Z, start_frame seg = Fin s /\ s <= end_frame seg.

(** The pairs visited by the two loops of [_find_merge_candidates]. *)
Fixpoint id_pairs (track_ids : list Z) : list (Z * Z) :=
  match track_ids with
  | [] => []
  | a :: rest => map (pair a) rest ++ id_pairs rest
  end.

(** One iteration of the inner loop, for the pair [ab]. *)
Definition merge_pair (fuel : nat) (cfg : Config) (segments : gmap Z Segment)
    (merge_map : gmap Z Z) (ab : Z * Z) : result (gmap Z Z) :=
  let* seg_a := subscript (segments !! fst ab) in
  let* seg_b := subscript (segments !! snd ab) in
  let* d := merge_decision cfg (fst ab) seg_a (snd ab) seg_b in
  record_merge fuel merge_map d.

(** The iterations for a list of pairs, in order. *)
Fixpoint merge_pairs (fuel : nat) (cfg : Config) (segments : gmap Z Segment)
    (pairs : list (Z * Z)) (merge_map : gmap Z Z) : result (gmap Z Z) :=
  match pairs with
  | [] => Ok merge_map
  | ab :: pairs' =>
      let* merge_map' := merge_pair fuel cfg segments merge_map ab in
      merge_pairs fuel cfg segments pairs' merge_map'
  end.

(** [merge_map[k] = v]. *)
Definition edge (merge_map : gmap Z Z) (k v : Z) : Prop := merge_map !! k = Some v.

(** Every slave's segment starts after its master's segment has ended. *)
Definition chrono (segments : gmap Z Segment) (merge_map : gmap Z Z) : Prop :=
  forall k v, merge_map !! k = Some v ->
    exists seg_k seg_v,
      segments !! k = Some seg_k /\ segments !! v = Some seg_v /\
      precedes seg_v seg_k.

(** Every segment of the dictionary is well formed. *)
Definition all_well_formed (segments : gmap Z Segment) : Prop :=
  forall tid seg, segments !! tid = Some seg -> well_formed seg.

(** No id reaches itself along the merge map. *)
Definition acyclic (merge_map : gmap Z Z) : Prop :=
  forall k, ~ tc (edge merge_map) k k.

End Stitcher.

Module Counter.

Inductive Direction : Type :=
| IN
| OUT.

(** A crossing event; the fields are the keys of the event dictionary. *)
Record Event : Type := mkEvent {
  ev_frame : Z;
  ev_track_id : Z;
  ev_direction : Direction;
  ev_position : Pos;
  ev_count_in : Z;
  ev_count_out : Z
}.

(** The attributes of a [LineCrossingCounter].  [history_length] is the
    [maxlen] of the deques, a non-negative integer. *)
Record LineCrossingCounter : Type := mkCounter {
  line_start : Pos;
  line_end : Pos;
  min_frames_between : Z;
  history_length : nat;
  track_history : gmap Z (list (Z * Pos));
  last_crossing_frame : gmap Z Z;
  count_in : Z;
  count_out : Z;
  events : list Event
}.

Definition init (line_start line_end : Pos)
    (min_frames_between_crossings : Z) (position_history_length : nat)
  : LineCrossingCounter :=
  {| line_start := line_start;
     line_end := line_end;
     min_frames_between := min_frames_between_crossings;
     history_length := position_history_length;
     track_history := ∅;
     last_crossing_frame := ∅;
     count_in := 0;
     count_out := 0;
     events := [] |}.

Definition set_track_history (self : LineCrossingCounter)
    (th : gmap Z (list (Z * Pos))) : LineCrossingCounter :=
  {| line_start := line_start self; line_end := line_end self;
     min_frames_between := min_frames_between self;
     history_length := history_length self;
     track_history := th;
     last_crossing_frame := last_crossing_frame self;
     count_in := count_in self; count_out := count_out self;
     events := events self |}.

(** The state after a crossing has been counted: the counters, the
    event log and the last crossing frame are replaced. *)
Definition set_crossing (self : LineCrossingCounter) (cin cout : Z)
    (evs : list Event) (lcf : gmap Z Z) : LineCrossingCounter :=
  {| line_start := line_start self; line_end := line_end self;
     min_frames_between := min_frames_between self;
     history_length := history_length self;
     track_history := track_history self;
     last_crossing_frame := lcf;
     count_in := cin; count_out := cout;
     events := evs |}.

(** [deque.append] on a deque of maximal length [maxlen]. *)
Definition deque_append {A : Type} (maxlen : nat) (d : list A) (x : A) : list A :=
  let d' := d ++ [x] in
  drop (length d' - maxlen) d'.

Definition ccw (A B C : Pos) : bool :=
  np_gt (np_mul (np_sub (item1 C) (item1 A)) (np_sub (item0 B) (item0 A)))
        (np_mul (np_sub (item1 B) (item1 A)) (np_sub (item0 C) (item0 A))).

Definition _segments_intersect (p1 p2 p3 p4 : Pos) : bool :=
  negb (eqb (ccw p1 p3 p4) (ccw p2 p3 p4))
  && negb (eqb (ccw p1 p2 p3) (ccw p1 p2 p4)).

(** The value [cross] of [_get_crossing_direction]. *)
Definition cross (line_start line_end pos1 pos2 : Pos) : scalar :=
  let line_vec := (np_sub (item0 line_end) (item0 line_start),
                   np_sub (item1 line_end) (item1 line_start)) in
  let movement_vec := (np_sub (item0 pos2) (item0 pos1),
                       np_sub (item1 pos2) (item1 pos1)) in
  np_sub (np_mul (fst line_vec) (snd movement_vec))
         (np_mul (snd line_vec) (fst movement_vec)).

Definition _get_crossing_direction (self : LineCrossingCounter) (pos1 pos2 : Pos)
  : Direction :=
  if np_gt (cross (line_start self) (line_end self) pos1 pos2) (I64 0)
  then IN else OUT.

Definition _check_line_crossing (self : LineCrossingCounter) (pos1 pos2 : Pos)
  : option Direction :=
  if _segments_intersect pos1 pos2 (line_start self) (line_end self) then
    Some (_get_crossing_direction self pos1 pos2)
  else None.

(** [track_id in last_crossing_frame and
     frame_num - last_crossing_frame[track_id] < min_frames_between]. *)
Definition cooling_down (self : LineCrossingCounter) (frame_num tid : Z) : bool :=
  match last_crossing_frame self !! tid with
  | Some last => frame_num - last <? min_frames_between self
  | None => false
  end.

(** One iteration of the loop of [process_frame]: the counter after it
    and the event it emitted, if any. *)
Definition process_track (frame_num : Z) (self : LineCrossingCounter)
    (track : Track) : LineCrossingCounter * option Event :=
  let tid := track_id track in
  let center := center track in
  let history :=
    deque_append (history_length self)
                 (default [] (track_history self !! tid)) (frame_num, center) in
  let self := set_track_history self (<[tid := history]> (track_history self)) in
  if (length history <? 2)%nat then (self, None)
  else if cooling_down self frame_num tid then (self, None)
  else
    match history !! (length history - 2)%nat with
    | None => (self, None)
    | Some (prev_frame, prev_center) =>
        match _check_line_crossing self prev_center center with
        | None => (self, None)
        | Some direction =>
            let cin := match direction with
                       | IN => count_in self + 1
                       | OUT => count_in self
                       end in
            let cout := match direction with
                        | IN => count_out self
                        | OUT => count_out self + 1
                        end in
            let event := {| ev_frame := frame_num;
                            ev_track_id := tid;
                            ev_direction := direction;
                            ev_position := center;
                            ev_count_in := cin;
                            ev_count_out := cout |} in
            (set_crossing self cin cout (events self ++ [event])
                          (<[tid := frame_num]> (last_crossing_frame self)),
             Some event)
        end
    end.

(** [process_frame]: the counter after the call and [frame_events]. *)
Definition process_step (frame_num : Z)
    (st : LineCrossingCounter * list Event) (track : Track)
  : LineCrossingCounter * list Event :=
  let '(self', ev) := process_track frame_num (fst st) track in
  (self', snd st ++ match ev with Some e => [e] | None => [] end).

Definition process_frame (self : LineCrossingCounter) (frame_num : Z)
    (tracks : list Track) : LineCrossingCounter * list Event :=
  foldl (process_step frame_num) (self, []) tracks.

(** The loop of [run.py] that feeds the counter. *)
Definition process_all (self : LineCrossingCounter) (results : list FrameData)
  : LineCrossingCounter :=
  foldl (fun self frame_data =>
           fst (process_frame self (frame frame_data) (tracks frame_data)))
        self results.

Record Summary : Type := mkSummary {
  total_in : Z;
  total_out : Z;
  net : Z;
  total_crossings : Z;
  unique_tracks : Z
}.

Definition get_summary (self : LineCrossingCounter) : Summary :=
  {| total_in := count_in self;
     total_out := count_out self;
     net := count_in self - count_out self;
     total_crossings := Z.of_nat (length (events self));
     unique_tracks :=
       Z.of_nat (size (list_to_set (map ev_track_id (events self)) : gset Z)) |}.

Definition get_events (self : LineCrossingCounter) : list Event := events self.

(** *** Notions used to state the properties of the counter *)

(** The events of a log that count as IN, and as OUT. *)
Definition is_IN (e : Event) : bool :=
  match ev_direction e with IN => true | OUT => false end.
Definition is_OUT (e : Event) : bool :=
  match ev_direction e with IN => false | OUT => true end.

Definition ins (evs : list Event) : Z := Z.of_nat (length (List.filter is_IN evs)).
Definition outs (evs : list Event) : Z := Z.of_nat (length (List.filter is_OUT evs)).

(** Every event of the log carries the number of IN and of OUT events
    up to and including itself. *)
Definition recorded (evs : list Event) : Prop :=
  forall (k : nat) (e : Event), evs !! k = Some e ->
    ev_count_in e = ins (take (S k) evs) /\ ev_count_out e = outs (take (S k) evs).

(** The counters agree with the log. *)
Definition log_inv (self : LineCrossingCounter) : Prop :=
  count_in self = ins (events self) /\
  count_out self = outs (events self) /\
  recorded (events self).

(** The history of the track after [process_track] has appended the
    new sample. *)
Definition appended (self : LineCrossingCounter) (frame_num : Z) (track : Track)
  : list (Z * Pos) :=
  deque_append (history_length self)
               (default [] (track_history self !! track_id track))
               (frame_num, center track).

(** The increment of the counter of direction [d] for an event of
    direction [d']. *)
Definition bump (d d' : Direction) : Z :=
  match d, d' with
  | IN, IN | OUT, OUT => 1
  | _, _ => 0
  end.

(** Any steps of the counter. *)
Inductive steps : LineCrossingCounter -> LineCrossingCounter -> Prop :=
| steps_refl self : steps self self
| steps_step self1 self2 frame_num track self3 oev :
    steps self1 self2 ->
    process_track frame_num self2 track = (self3, oev) ->
    steps self1 self3.

(** The last counted crossing of [tid] is at frame [F] or later. *)
Definition crossed_since (tid F : Z) (self0 self : LineCrossingCounter) : Prop :=
  min_frames_between self = min_frames_between self0 /\
  exists L, last_crossing_frame self !! tid = Some L /\ F <= L.

(** Steps of the counter in which track [tid] emits no event. *)
Inductive quiet (tid : Z) : LineCrossingCounter -> LineCrossingCounter -> Prop :=
| quiet_refl self : quiet tid self self
| quiet_step self1 self2 frame_num track self3 oev :
    quiet tid self1 self2 ->
    process_track frame_num self2 track = (self3, oev) ->
    (track_id track = tid -> oev = None) ->
    quiet tid self1 self3.

(** What a counted crossing of [tid] at frame [F] leaves behind, and
    what quiet steps keep. *)
Definition cooling_since (tid F : Z) (self0 self : LineCrossingCounter) : Prop :=
  last_crossing_frame self !! tid = Some F /\
  line_start self = line_start self0 /\
  line_end self = line_end self0 /\
  min_frames_between self = min_frames_between self0 /\
  history_length self = history_length self0 /\
  (2 <= history_length self)%nat /\
  exists h p, track_history self !! tid = Some h /\ last h = Some p.

End Counter.

(** ** Concrete sequences *)

Module Examples.

Definition box (w h : float) : BBox :=
  {| x1 := 0; y1 := 0; x2 := w; y2 := h |}.

Definition det (f tid : Z) (x y : float) (b : BBox) : Track :=
  {| t_frame := f; track_id := tid; bbox := b;
     center := FloatPos x y; confidence := 1; stitched := None |}.

Definition shot (f : Z) (ts : list Track) : FrameData :=
  {| frame := f; image_path := ""; tracks := ts |}.

(** The stitcher as [run.py] configures it. *)
Definition run_config : Stitcher.Config :=
  {| Stitcher.max_frame_gap := 30;
     Stitcher.position_threshold := 150;
     Stitcher.size_similarity_threshold := 0.5 |}.

(** Track 1 over frames 1-10 and track 2 over frames 15-30, close in
    position and size. *)
Definition two_fragments : list FrameData :=
  [ shot 1 [det 1 1 90 90 (box 40 50)];
    shot 10 [det 10 1 100 100 (box 40 50)];
    shot 15 [det 15 2 110 105 (box 38 50)];
    shot 30 [det 30 2 200 200 (box 38 50)] ].

Definition fragment_one : Stitcher.Segment :=
  {| Stitcher.start_frame := Fin 1; Stitcher.end_frame := 10;
     Stitcher.start_position := Some (FloatPos 90 90);
     Stitcher.end_position := Some (FloatPos 100 100);
     Stitcher.start_bbox := Some (box 40 50);
     Stitcher.end_bbox := Some (box 40 50);
     Stitcher.frames := [1; 10] |}.

Definition fragment_two : Stitcher.Segment :=
  {| Stitcher.start_frame := Fin 15; Stitcher.end_frame := 30;
     Stitcher.start_position := Some (FloatPos 110 105);
     Stitcher.end_position := Some (FloatPos 200 200);
     Stitcher.start_bbox := Some (box 38 50);
     Stitcher.end_bbox := Some (box 38 50);
     Stitcher.frames := [15; 30] |}.

(** Track 3 over frames 1-2, track 1 over frames 4-5, track 2 over
    frames 7-8, all at one place, and a frame gap of at most 3. *)
Definition short_gap_config : Stitcher.Config :=
  {| Stitcher.max_frame_gap := 3;
     Stitcher.position_threshold := 150;
     Stitcher.size_similarity_threshold := 0.5 |}.

Definition three_fragments : list FrameData :=
  [ shot 1 [det 1 3 0 0 (box 1 1)]; shot 2 [det 2 3 0 0 (box 1 1)];
    shot 4 [det 4 1 0 0 (box 1 1)]; shot 5 [det 5 1 0 0 (box 1 1)];
    shot 7 [det 7 2 0 0 (box 1 1)]; shot 8 [det 8 2 0 0 (box 1 1)] ].

(** Two tracks whose boxes have no area. *)
Definition flat_boxes : list FrameData :=
  [ shot 1 [det 1 1 0 0 (box 0 0)]; shot 3 [det 3 2 0 0 (box 0 0)] ].

Definition flat_one : Stitcher.Segment :=
  {| Stitcher.start_frame := Fin 1; Stitcher.end_frame := 1;
     Stitcher.start_position := Some (FloatPos 0 0);
     Stitcher.end_position := Some (FloatPos 0 0);
     Stitcher.start_bbox := Some (box 0 0);
     Stitcher.end_bbox := Some (box 0 0);
     Stitcher.frames := [1] |}.

Definition flat_two : Stitcher.Segment :=
  {| Stitcher.start_frame := Fin 3; Stitcher.end_frame := 3;
     Stitcher.start_position := Some (FloatPos 0 0);
     Stitcher.end_position := Some (FloatPos 0 0);
     Stitcher.start_bbox := Some (box 0 0);
     Stitcher.end_bbox := Some (box 0 0);
     Stitcher.frames := [3] |}.

(** Tracks 1 and 2 side by side over frames 1-10, and track 3 at the
    same place over frames 12-20. *)
Definition crowded : list FrameData :=
  [ shot 1 [det 1 1 0 0 (box 1 1); det 1 2 0 0 (box 1 1)];
    shot 10 [det 10 1 0 0 (box 1 1); det 10 2 0 0 (box 1 1)];
    shot 12 [det 12 3 0 0 (box 1 1)];
    shot 20 [det 20 3 0 0 (box 1 1)] ].

(** Track 1 at (0, 0) in frame 1 and track 2 at (1, 1) in frame 3, and
    a position threshold that is the [float64] next to the square root
    of 2, from above. *)
Definition diagonal : list FrameData :=
  [ shot 1 [det 1 1 0 0 (box 1 1)]; shot 3 [det 3 2 1 1 (box 1 1)] ].

Definition tight_config : Stitcher.Config :=
  {| Stitcher.max_frame_gap := 30;
     Stitcher.position_threshold := 0x1.6a09e667f3bcdp+0;
     Stitcher.size_similarity_threshold := 0.5 |}.

(** A counter on the line from (0,0) to (0,100), given in integers, with
    a cooldown of 30 frames, and a track stepping across it. *)
Definition doorway : Counter.LineCrossingCounter :=
  Counter.init (IntPos 0 0) (IntPos 0 100) 30 10.

Definition left_of_line (f : Z) : Track := det f 7 (-10) 50 (box 1 1).
Definition right_of_line (f : Z) : Track := det f 7 10 50 (box 1 1).

(** The counter after track 7 was seen left of the line in frame 1. *)
Definition doorway_seen : Counter.LineCrossingCounter :=
  fst (Counter.process_track 1 doorway (left_of_line 1)).

(** The counter after track 7 crossed in frame 2. *)
Definition doorway_crossed : Counter.LineCrossingCounter :=
  fst (Counter.process_track 2 doorway_seen (right_of_line 2)).

(** The event of that crossing. *)
Definition crossing : Counter.Event :=
  {| Counter.ev_frame := 2; Counter.ev_track_id := 7;
     Counter.ev_direction := Counter.OUT;
     Counter.ev_position := FloatPos 10 50;
     Counter.ev_count_in := 0; Counter.ev_count_out := 1 |}.

End Examples.

(** ** Slices

    The frame limit of [run.py] and of [visualizer.py]. *)

(** [l[:k]] for an integer [k]. *)
Definition py_prefix {A : Type} (k : Z) (l : list A) : list A :=
  if 0 <=? k then take (Z.to_nat k) l
  else take (length l - Z.to_nat (- k)) l.

(** [if max_frames: tracking_results = tracking_results[:max_frames]]:
    [None] and [0] are both false. *)
Definition limit_frames {A : Type} (max_frames : option Z) (l : list A) : list A :=
  match max_frames with
  | None => l
  | Some k => if k =? 0 then l else py_prefix k l
  end.

(** * The tracker

    [tracker_botsort.py]: the loop of [track_sequence] over the image
    files.  The detector is outside the model: an image stands for what
    the loop gets for it. *)

Module Tracker.

(** The [np.float32] nearest to a double, as a double: an operation on
    two [np.float32] gives the double result rounded once more. *)
Definition f32 (x : float) : float :=
  match Prim2SF x with
  | S754_finite s m e =>
      SF2Prim (binary_normalize 24 128 (if s then Z.neg m else Z.pos m) e s)
  | _ => x
  end.

(** One row of [zip(boxes, track_ids, confidences)]: a box of
    [np.float32], an id and a confidence. *)
Record Detection : Type := mkDetection {
  det_box : BBox;
  det_id : Z;
  det_conf : float
}.

(** What the loop of [track_sequence] gets for one image file:
    [cv2.imread] returned [None]; the model returned no boxes or no
    ids; or the rows of the model's result. *)
Inductive Image : Type :=
| Unreadable
| NoTracks
| Tracked (rows : list Detection).

(** The track dictionary built for one row in frame [frame_idx + 1]. *)
Definition make_track (frame_num : Z) (d : Detection) : Track :=
  let b := det_box d in
  let center_x := f32 (f32 (x1 b + x2 b) / 2) in
  let center_y := f32 (f32 (y1 b + y2 b) / 2) in
  {| t_frame := frame_num;
     track_id := det_id d;
     bbox := b;
     center := FloatPos center_x center_y;
     confidence := det_conf d;
     stitched := None |}.

(** The loop over [enumerate(image_files)], from index [frame_idx]. *)
Fixpoint track_loop (frame_idx : Z) (image_files : list (string * Image))
  : list FrameData :=
  match image_files with
  | [] => []
  | (img_path, image) :: rest =>
      match image with
      | Unreadable => track_loop (frame_idx + 1) rest
      | NoTracks =>
          {| frame := frame_idx + 1; image_path := img_path; tracks := [] |}
            :: track_loop (frame_idx + 1) rest
      | Tracked rows =>
          {| frame := frame_idx + 1; image_path := img_path;
             tracks := map (make_track (frame_idx + 1)) rows |}
            :: track_loop (frame_idx + 1) rest
      end
  end.

(** [track_sequence]: [None] stands for the [ValueError] raised when
    the folder holds no image. *)
Definition track_sequence (image_files : list (string * Image))
  : option (list FrameData) :=
  match image_files with
  | [] => None
  | _ :: _ => Some (track_loop 0 image_files)
  end.

End Tracker.

(** * The video

    [visualizer.py]: what [create_video] keeps between frames and what
    it hands to [_draw_counter_panel]; the drawing is outside the
    model. *)

Module Visualizer.

(** The arguments of one call of [_draw_counter_panel]. *)
Record Panel : Type := mkPanel {
  panel_frame : Z;
  panel_in : Z;
  panel_out : Z;
  panel_active : Z
}.

(** What [create_video] keeps between frames. *)
Record VideoState : Type := mkVideoState {
  track_trails : gmap Z (list Pos);
  v_count_in : Z;
  v_count_out : Z
}.

(** The event lookup by frame. *)
Definition group_event (events_by_frame : gmap Z (list Counter.Event))
    (event : Counter.Event) : gmap Z (list Counter.Event) :=
  let frame_num := Counter.ev_frame event in
  let events_by_frame :=
    match events_by_frame !! frame_num with
    | None => <[frame_num := []]> events_by_frame
    | Some _ => events_by_frame
    end in
  <[frame_num := default [] (events_by_frame !! frame_num) ++ [event]]> events_by_frame.

Definition group_events (events : list Counter.Event) : gmap Z (list Counter.Event) :=
  foldl group_event ∅ events.

(** One track of the frame: its centre joins its trail, which keeps at
    most 30 points. *)
Definition update_trail (track_trails : gmap Z (list Pos)) (track : Track)
  : gmap Z (list Pos) :=
  let track_id := track_id track in
  let track_trails :=
    match track_trails !! track_id with
    | None => <[track_id := []]> track_trails
    | Some _ => track_trails
    end in
  let trail := default [] (track_trails !! track_id) ++ [center track] in
  let trail := if (30 <? length trail)%nat then drop 1 trail else trail in
  <[track_id := trail]> track_trails.

(** One event of the frame. *)
Definition count_event (st : VideoState) (event : Counter.Event) : VideoState :=
  match Counter.ev_direction event with
  | Counter.IN =>
      {| track_trails := track_trails st;
         v_count_in := v_count_in st + 1;
         v_count_out := v_count_out st |}
  | Counter.OUT =>
      {| track_trails := track_trails st;
         v_count_in := v_count_in st;
         v_count_out := v_count_out st + 1 |}
  end.

(** The tracks drawn on the image of index [idx]. *)
Definition tracks_at (tracking_results : list FrameData) (idx : nat) : list Track :=
  match tracking_results !! idx with
  | Some frame_data => tracks frame_data
  | None => []
  end.

(** The body of the loop for the image of index [idx]: the state after
    it and the panel it draws. *)
Definition video_step (tracking_results : list FrameData)
    (events_by_frame : gmap Z (list Counter.Event))
    (idx : nat) (st : VideoState) : VideoState * Panel :=
  let frame_num := Z.of_nat idx + 1 in
  let tracks := tracks_at tracking_results idx in
  let st := {| track_trails := foldl update_trail (track_trails st) tracks;
               v_count_in := v_count_in st;
               v_count_out := v_count_out st |} in
  let st :=
    match events_by_frame !! frame_num with
    | Some evs => foldl count_event st evs
    | None => st
    end in
  (st, {| panel_frame := frame_num;
          panel_in := v_count_in st;
          panel_out := v_count_out st;
          panel_active := Z.of_nat (length tracks) |}).

(** The loop over [enumerate(image_files)] from index [idx]: for every
    image the panel drawn on it and the trails as they are then. *)
Fixpoint video_loop (tracking_results : list FrameData)
    (events_by_frame : gmap Z (list Counter.Event))
    (idx : nat) (image_files : list string) (st : VideoState)
  : list (Panel * gmap Z (list Pos)) :=
  match image_files with
  | [] => []
  | _ :: rest =>
      let '(st', panel) := video_step tracking_results events_by_frame idx st in
      (panel, track_trails st')
        :: video_loop tracking_results events_by_frame (S idx) rest st'
  end.

(** [create_video] on images that can all be read; [None] stands for
    the [IndexError] of [image_files[0]] on an empty list. *)
Definition create_video (image_files : list string)
    (tracking_results : list FrameData) (events : list Counter.Event)
    (max_frames : option Z) : option (list (Panel * gmap Z (list Pos))) :=
  let image_files := limit_frames max_frames image_files in
  match image_files with
  | [] => None
  | _ :: _ =>
      Some (video_loop tracking_results (group_events events) 0 image_files
              {| track_trails := ∅; v_count_in := 0; v_count_out := 0 |})
  end.

End Visualizer.

(** * The run

    [run.py]: [process_sequence] from the tracking results on; the
    tracker's result and the image files of the folder are its
    arguments, and the files it writes are outside the model. *)

Module Run.

Inductive TrackerType : Type :=
| botsort
| bytetrack.

(** The dictionary [process_sequence] returns, with the store it leaves. *)
Record Outcome : Type := mkOutcome {
  summary : Counter.Summary;
  events : list Counter.Event;
  num_frames : Z;
  stitching_stats : option Stitcher.Statistics;
  store : heap;
  tracking_results : list FrameRef
}.

(** Step 1.5 of [process_sequence]: the stitcher with the thresholds of
    [run.py], then [get_statistics] on the list passed in and the list
    returned, both read in the store as it is after stitching. *)
Definition stitching_step (fuel : nat) (h : heap) (tracking_results : list FrameRef)
  : result (heap * list FrameRef * Stitcher.Statistics) :=
  let* hs := Stitcher.stitch_tracks fuel Examples.run_config h tracking_results in
  let* stats := Stitcher.get_statistics (deref_all (fst hs) tracking_results)
                                        (deref_all (fst hs) (snd hs)) in
  Ok (fst hs, snd hs, stats).

(** Step 3 of [process_sequence]: [create_video] on the image files of
    the folder, each with whether [cv2.imread] can read it.  An empty
    list fails at [image_files[0]], an unreadable first image at
    [first_frame.shape], an unreadable later image at the first drawing
    call on the frame; on readable images the loop is
    [Visualizer.create_video]. *)
Definition visualization_step (image_files : list (string * bool))
    (tracking_results : list FrameData) (events : list Counter.Event)
    (max_frames : option Z)
  : result (list (Visualizer.Panel * gmap Z (list Pos))) :=
  match limit_frames max_frames image_files with
  | [] => Raise IndexError
  | (_, false) :: _ => Raise AttributeError
  | used =>
      if forallb snd used then
        match Visualizer.create_video (map fst image_files) tracking_results
                                      events max_frames with
        | Some video => Ok video
        | None => Raise IndexError
        end
      else Raise cv2_error
  end.

(** The image files of the folder as [create_video] finds them: the
    files the tracker went through, each with whether [cv2.imread]
    returns an image for it. *)
Definition video_files (image_files : list (string * Tracker.Image))
  : list (string * bool) :=
  map (fun pi => (fst pi,
                  match snd pi with Tracker.Unreadable => false | _ => true end))
      image_files.

(** [process_sequence] from the tracking results on: frame limit,
    stitching for BoT-SORT, counting, video. *)
Definition process_sequence (fuel : nat) (line_start line_end : Pos)
    (min_frames_between_crossings : Z) (position_history_length : nat)
    (tracker_type : TrackerType) (use_stitching : bool) (max_frames : option Z)
    (image_files : list (string * bool))
    (h : heap) (tracking_results : list FrameRef) : result Outcome :=
  let tracking_results := limit_frames max_frames tracking_results in
  let* st :=
    match use_stitching, tracker_type with
    | true, botsort =>
        let* r := stitching_step fuel h tracking_results in
        Ok (fst (fst r), snd (fst r), Some (snd r))
    | _, _ => Ok (h, tracking_results, None)
    end in
  let h' := fst (fst st) in
  let tracking_results := snd (fst st) in
  let counter :=
    Counter.process_all
      (Counter.init line_start line_end min_frames_between_crossings
                    position_history_length)
      (deref_all h' tracking_results) in
  let* video :=
    visualization_step image_files (deref_all h' tracking_results)
                       (Counter.get_events counter) max_frames in
  Ok {| summary := Counter.get_summary counter;
        events := Counter.get_events counter;
        num_frames := Z.of_nat (length tracking_results);
        stitching_stats := snd st;
        store := h';
        tracking_results := tracking_results |}.

End Run.

(** ** Notions used to state the further properties *)

Module Notions.
Import Stitcher Counter Visualizer.

(** *** The counter *)

(** The samples of track [tid] among a list of detections, in order. *)
Definition samples (tid : Z) (obs : list (Z * Track)) : list (Z * Pos) :=
  map (fun o => (fst o, center (snd o)))
      (List.filter (fun o => Z.eqb (track_id (snd o)) tid) obs).

(** The last [n] elements of a list. *)
Definition lastn {A : Type} (n : nat) (l : list A) : list A :=
  drop (length l - n) l.

(** After the detections [obs], the counter holds for every track the
    last [history_length] of its samples, and no history for a track
    without samples. *)
Definition history_inv (obs : list (Z * Track)) (self : LineCrossingCounter) : Prop :=
  forall tid,
    track_history self !! tid =
      match samples tid obs with
      | [] => None
      | s => Some (lastn (history_length self) s)
      end.

(** The counter run over a list of detections, one [process_track] each. *)
Definition track_all (self : LineCrossingCounter) (obs : list (Z * Track))
  : LineCrossingCounter :=
  foldl (fun self o => fst (process_track (fst o) self (snd o))) self obs.

(** Two events of one track lie at least [gap] frames apart, the later
    in the log at the later frame. *)
Definition spaced (gap : Z) (evs : list Event) : Prop :=
  forall (i j : nat) (e1 e2 : Event),
    (i < j)%nat -> evs !! i = Some e1 -> evs !! j = Some e2 ->
    ev_track_id e1 = ev_track_id e2 ->
    gap <= ev_frame e2 - ev_frame e1.

(** The last crossing frame of a track is the frame of one of its
    events, at least [gap] frames after the others. *)
Definition last_crossing_inv (gap : Z) (self : LineCrossingCounter) : Prop :=
  forall e, e ∈ events self ->
    exists L, last_crossing_frame self !! ev_track_id e = Some L /\
              (ev_frame e = L \/ gap <= L - ev_frame e).

(** Every event of the log stems from one of the detections. *)
Definition events_from (obs : list (Z * Track)) (evs : list Event) : Prop :=
  forall e, e ∈ evs ->
    exists n t, (n, t) ∈ obs /\
      ev_frame e = n /\ ev_track_id e = track_id t /\ ev_position e = center t.

(** *** The stitcher *)

(** The frame numbers of the detections of track [tid], in order. *)
Definition frames_of (tid : Z) (obs : list (Z * Track)) : list Z :=
  map fst (List.filter (fun o => Z.eqb (track_id (snd o)) tid) obs).

(** The segment built from detections at the frames [fl], whatever the
    frame numbers are. *)
Definition extent_ok (fl : list Z) (seg : Segment) : Prop :=
  frames seg = fl /\
  match fl with
  | [] => seg = default_segment
  | _ :: _ =>
      exists s : Z,
        start_frame seg = Fin s /\ s ∈ fl /\
        (forall n, n ∈ fl -> s <= n <= end_frame seg) /\
        is_Some (start_position seg) /\ is_Some (start_bbox seg) /\
        ((0 < end_frame seg /\ end_frame seg ∈ fl /\
          is_Some (end_position seg) /\ is_Some (end_bbox seg)) \/
         (end_frame seg = 0 /\ end_position seg = None /\ end_bbox seg = None))
  end.

(** The dictionary of the builder after the detections [obs]. *)
Definition extents_inv (obs : list (Z * Track)) (segments : gmap Z Segment) : Prop :=
  forall tid,
    match segments !! tid with
    | None => frames_of tid obs = []
    | Some seg => frames_of tid obs ≠ [] /\ extent_ok (frames_of tid obs) seg
    end.

(** The pair [ab] is decided as a merge with slave [k]. *)
Definition marks (cfg : Config) (segments : gmap Z Segment) (ab : Z * Z) (k : Z)
  : Prop :=
  exists seg_a seg_b master,
    segments !! fst ab = Some seg_a /\ segments !! snd ab = Some seg_b /\
    merge_decision cfg (fst ab) seg_a (snd ab) seg_b = Ok (Some (master, k)).

(** The pair under which the two loops visit the ids [a] and [b]: the
    smaller id first. *)
Definition visit (a b : Z) : Z * Z := (Z.min a b, Z.max a b).

(** The order in which the two loops visit the pairs of a sorted list
    of ids. *)
Definition visited_before (x y : Z * Z) : Prop :=
  fst x < fst y \/ (fst x = fst y /\ snd x < snd y).

(** The track dictionary after the remapper has visited it. *)
Definition relabelled (expanded_map : gmap Z Z) (track : Track) : Track :=
  match expanded_map !! track_id track with
  | Some new_id =>
      {| t_frame := t_frame track; track_id := new_id;
         bbox := bbox track; center := center track;
         confidence := confidence track; stitched := Some true |}
  | None =>
      {| t_frame := t_frame track; track_id := track_id track;
         bbox := bbox track; center := center track;
         confidence := confidence track; stitched := Some false |}
  end.

(** A frame with every track replaced by its image under [g]. *)
Definition map_tracks (g : Track -> Track) (f : FrameData) : FrameData :=
  {| frame := frame f; image_path := image_path f; tracks := map g (tracks f) |}.

(** The track with the id its own id resolves to, flagged when its id
    was a key of the merge map. *)
Definition restamped (fuel : nat) (merge_map : gmap Z Z) (track : Track) : Track :=
  {| t_frame := t_frame track;
     track_id := default (track_id track)
                         (_get_master_id fuel (track_id track) merge_map);
     bbox := bbox track; center := center track;
     confidence := confidence track;
     stitched := Some (bool_decide (is_Some (merge_map !! track_id track))) |}.

(** All the references of a sequence. *)
Definition all_refs (results : list FrameRef) : list nat :=
  concat (map r_tracks results).

(** The ids of a sequence, as [count_unique_ids] collects them. *)
Definition ids_of (results : list FrameData) : gset Z :=
  list_to_set (map (fun o => track_id (snd o)) (observations results)).

(** A box whose area, as [_get_bbox_size] computes it, compares above
    zero. *)
Definition positive_area (b : BBox) : Prop := (0 <? _get_bbox_size b)%float = true.

(** A segment as the builder leaves it for detections with frame numbers
    from 1 and boxes of positive area. *)
Definition sound_segment (seg : Segment) : Prop :=
  well_formed seg /\
  exists p q ba bb,
    start_position seg = Some p /\ end_position seg = Some q /\
    start_bbox seg = Some ba /\ end_bbox seg = Some bb /\
    positive_area ba /\ positive_area bb.

(** *** The video *)

(** The events of frame [k], and those of frames 1 to [k]. *)
Definition at_frame (k : Z) (e : Event) : bool := ev_frame e =? k.
Definition up_to_frame (k : Z) (e : Event) : bool :=
  (1 <=? ev_frame e) && (ev_frame e <=? k).

(** The centres of track [tid] in the first [k] frames of the list. *)
Definition centers_of (tid : Z) (tracking_results : list FrameData) (k : nat)
  : list Pos :=
  map (fun o => center (snd o))
      (List.filter (fun o => track_id (snd o) =? tid)
                   (observations (take k tracking_results))).

(** The trail kept for a track whose centres so far are [cs]. *)
Definition trail_of (cs : list Pos) : option (list Pos) :=
  match cs with
  | [] => None
  | _ :: _ => Some (lastn 30 cs)
  end.

(** What the loop holds before the image of index [idx]. *)
Definition video_inv (tracking_results : list FrameData) (events : list Event)
    (idx : nat) (st : VideoState) : Prop :=
  v_count_in st = ins (List.filter (up_to_frame (Z.of_nat idx)) events) /\
  v_count_out st = outs (List.filter (up_to_frame (Z.of_nat idx)) events) /\
  forall tid, track_trails st !! tid = trail_of (centers_of tid tracking_results idx).

End Notions.

(** ** Further inputs *)

Module Scenes.
Import Examples.

(** Three image files: track 1 in the first and the third, nothing in
    the second. *)
Definition footage : list (string * Tracker.Image) :=
  [ ("000001.jpg"%string,
     Tracker.Tracked [ {| Tracker.det_box := {| x1 := 70; y1 := 65; x2 := 110; y2 := 115 |};
                          Tracker.det_id := 1; Tracker.det_conf := 0.75 |} ]);
    ("000002.jpg"%string, Tracker.NoTracks);
    ("000003.jpg"%string,
     Tracker.Tracked [ {| Tracker.det_box := {| x1 := 80; y1 := 75; x2 := 120; y2 := 125 |};
                          Tracker.det_id := 1; Tracker.det_conf := 0.5 |} ]) ].

(** What the tracker returns for them. *)
Definition footage_tracks : list FrameData := Tracker.track_loop 0 footage.

(** Track 7 left of the line in frame 1 and right of it in frame 2. *)
Definition doorway_frames : list FrameData :=
  [ shot 1 [left_of_line 1]; shot 2 [right_of_line 2] ].

Definition doorway_images : list string :=
  [ "000001.jpg"%string; "000002.jpg"%string ].

(** The counter of [doorway] run over these two frames. *)
Definition doorway_counter : Counter.LineCrossingCounter :=
  Counter.process_all (Counter.init (IntPos 0 0) (IntPos 0 100) 30 10) doorway_frames.

(** The video made of them. *)
Definition doorway_video : list (Visualizer.Panel * gmap Z (list Pos)) :=
  Visualizer.video_loop doorway_frames
    (Visualizer.group_events (Counter.get_events doorway_counter)) 0 doorway_images
    {| Visualizer.track_trails := ∅;
       Visualizer.v_count_in := 0; Visualizer.v_count_out := 0 |}.

(** A counter on the line from (0, 0) to (5, 2), given in integers, and
    a step across it, nearly along it. *)
Definition slanted : Counter.LineCrossingCounter :=
  Counter.init (IntPos 0 0) (IntPos 5 2) 30 10.

Definition step_from : Pos := FloatPos 1.5 0x1.3333333333333p-1.
Definition step_to : Pos := FloatPos 2.5 1.

End Scenes.

(** * Properties *)

Import Stitcher Counter Examples Scenes.

(** ** Machine numbers *)

Lemma wrap64_small (z : Z) : - 2 ^ 63 <= z < 2 ^ 63 -> wrap64 z = z.
Proof.
  intros Hz. unfold wrap64. rewrite Z.mod_small by lia. lia.
Qed.

Lemma mul_bound (a b : Z) :
  Z.abs a < 2 ^ 31 -> Z.abs b < 2 ^ 31 -> - 2 ^ 62 < a * b < 2 ^ 62.
Proof.
  intros Ha Hb.
  assert (Hab : Z.abs (a * b) <= (2 ^ 31 - 1) * (2 ^ 31 - 1)).
  { rewrite Z.abs_mul. apply Z.mul_le_mono_nonneg; lia. }
  lia.
Qed.

Lemma Prim2SF_zero : Prim2SF 0 = S754_zero false.
Proof. reflexivity. Qed.

(** A float that compares above zero does not compare equal to it. *)
Lemma float_pos_nonzero (x : float) : (0 <? x)%float = true -> (x =? 0)%float = false.
Proof.
  rewrite FloatAxioms.ltb_spec, FloatAxioms.eqb_spec, Prim2SF_zero.
  unfold SFltb, SFeqb, SFcompare.
  destruct (Prim2SF x) as [[|] | [|] | | [|] m e]; cbn; congruence.
Qed.

Lemma py_max_cases (a b : float) : py_max a b = a \/ py_max a b = b.
Proof. unfold py_max. destruct (a <? b)%float; auto. Qed.

Lemma py_min_cases (a b : float) : py_min a b = a \/ py_min a b = b.
Proof. unfold py_min. destruct (b <? a)%float; auto. Qed.

(** ** Direction of a crossing *)

(** The line from (0, 0) to (5, 2) and the step from (1.5, 0.6) to
    (2.5, 1.0): the step is found to cross the line and the cross
    product of the line and the movement, over the rationals the
    coordinates stand for, is positive; the direction is OUT, since
    [1.0 - 0.6] is rounded and the computed product is [0.0]. *)
Lemma rounded_cross_product :
  _check_line_crossing slanted step_from step_to = Some OUT /\
  cross (line_start slanted) (line_end slanted) step_from step_to = F64 0 /\
  (0 < (5 - 0) * (exact 1 - exact 0x1.3333333333333p-1)
       - (2 - 0) * (exact 2.5 - exact 1.5))%Q.
Proof. split_and!; vm_compute; reflexivity. Qed.

(** C5, as amended.  For every line and every movement from [pos1] to
    [pos2], with [cross = line.x * (pos2.y - pos1.y) - line.y *
    (pos2.x - pos1.x)] and [line = line_end - line_start] computed in
    the arithmetic of the arrays ([float64] with its rounding, [int64]
    with its wrap-around), the direction is IN exactly when the
    computed [cross] compares above 0 and OUT otherwise, zero and NaN
    included; the direction of a detected crossing is that direction.
    For integer coordinates below 2^30 in absolute value the computed
    [cross] is the exact one. *)
Theorem crossing_direction_sign (self : LineCrossingCounter) (pos1 pos2 : Pos) :
  let line_x := np_sub (item0 (line_end self)) (item0 (line_start self)) in
  let line_y := np_sub (item1 (line_end self)) (item1 (line_start self)) in
  let c := np_sub (np_mul line_x (np_sub (item1 pos2) (item1 pos1)))
                  (np_mul line_y (np_sub (item0 pos2) (item0 pos1))) in
  (_get_crossing_direction self pos1 pos2 = IN <-> np_gt c (I64 0) = true) /\
  (_get_crossing_direction self pos1 pos2 = OUT <-> np_gt c (I64 0) = false) /\
  (forall d, _check_line_crossing self pos1 pos2 = Some d ->
             (d = IN <-> np_gt c (I64 0) = true) /\
             (d = OUT <-> np_gt c (I64 0) = false)) /\
  (forall sx sy ex ey ax ay bx by',
     line_start self = IntPos sx sy -> line_end self = IntPos ex ey ->
     pos1 = IntPos ax ay -> pos2 = IntPos bx by' ->
     Forall (fun z => Z.abs z < 2 ^ 30) [sx; sy; ex; ey; ax; ay; bx; by'] ->
     c = I64 ((ex - sx) * (by' - ay) - (ey - sy) * (bx - ax)) /\
     (_get_crossing_direction self pos1 pos2 = IN <->
      0 < (ex - sx) * (by' - ay) - (ey - sy) * (bx - ax))).
Proof.
  intros line_x line_y c.
  assert (Hdir : (_get_crossing_direction self pos1 pos2 = IN <-> np_gt c (I64 0) = true) /\
                 (_get_crossing_direction self pos1 pos2 = OUT <-> np_gt c (I64 0) = false)).
  { unfold _get_crossing_direction, cross. cbn [fst snd].
    fold line_x line_y. fold c.
    destruct (np_gt c (I64 0)); split; split; done. }
  destruct Hdir as [HI HO]. split; [exact HI | split; [exact HO | split]].
  - intros d. unfold _check_line_crossing.
    destruct (_segments_intersect _ _ _ _); [| done].
    intros [= <-]. by split.
  - intros sx sy ex ey ax ay bx by' Hs He H1 H2 Hall.
    repeat (apply Forall_cons in Hall as [? Hall]). cbv beta in *.
    assert (Hc : c = I64 ((ex - sx) * (by' - ay) - (ey - sy) * (bx - ax))).
    { subst c line_x line_y. rewrite Hs, He, H1, H2. cbn [item0 item1 np_sub np_mul].
      rewrite (wrap64_small (ex - sx)), (wrap64_small (by' - ay)),
        (wrap64_small (ey - sy)), (wrap64_small (bx - ax)) by lia.
      assert (Hp1 : - 2 ^ 62 < (ex - sx) * (by' - ay) < 2 ^ 62)
        by (apply mul_bound; lia).
      assert (Hp2 : - 2 ^ 62 < (ey - sy) * (bx - ax) < 2 ^ 62)
        by (apply mul_bound; lia).
      rewrite (wrap64_small ((ex - sx) * (by' - ay))),
        (wrap64_small ((ey - sy) * (bx - ax))) by lia.
      rewrite wrap64_small by lia. done. }
    split; [exact Hc |]. rewrite HI, Hc. cbn [np_gt].
    assert (Hp1 : - 2 ^ 62 < (ex - sx) * (by' - ay) < 2 ^ 62)
      by (apply mul_bound; lia).
    assert (Hp2 : - 2 ^ 62 < (ey - sy) * (bx - ax) < 2 ^ 62)
      by (apply mul_bound; lia).
    rewrite (wrap64_small 0) by lia. rewrite wrap64_small by lia.
    apply Z.ltb_lt.
Qed.

(** ** The event log and the running totals *)

Lemma ins_app evs evs' : ins (evs ++ evs') = ins evs + ins evs'.
Proof. unfold ins. rewrite List.filter_app, length_app. lia. Qed.

Lemma outs_app evs evs' : outs (evs ++ evs') = outs evs + outs evs'.
Proof. unfold outs. rewrite List.filter_app, length_app. lia. Qed.

Lemma ins_outs_length evs : ins evs + outs evs = Z.of_nat (length evs).
Proof.
  induction evs as [|e evs IH]; [done |].
  change (e :: evs) with ([e] ++ evs).
  rewrite ins_app, outs_app, length_app.
  assert (ins [e] + outs [e] = 1).
  { unfold ins, outs, is_IN, is_OUT. simpl. by destruct (ev_direction e). }
  simpl length. lia.
Qed.

Lemma ins_nonneg evs : 0 <= ins evs.
Proof. unfold ins. lia. Qed.

Lemma outs_nonneg evs : 0 <= outs evs.
Proof. unfold outs. lia. Qed.

Lemma take_split_le {A} (j k : nat) (l : list A) :
  (j <= k)%nat -> take k l = take j l ++ take (k - j) (drop j l).
Proof.
  intros Hjk. replace k with (j + (k - j))%nat at 1 by lia.
  by rewrite take_take_drop.
Qed.

Lemma recorded_snoc evs e :
  recorded evs ->
  ev_count_in e = ins (evs ++ [e]) ->
  ev_count_out e = outs (evs ++ [e]) ->
  recorded (evs ++ [e]).
Proof.
  intros Hrec Hin Hout k e' Hk.
  destruct (decide (k < length evs)%nat) as [Hlt | Hge].
  - rewrite lookup_app_l in Hk by done.
    rewrite take_app_le by lia. by apply Hrec.
  - apply lookup_lt_Some in Hk as Hlen. rewrite length_app in Hlen. simpl in Hlen.
    assert (k = length evs) as -> by lia.
    rewrite list_lookup_middle in Hk by done. injection Hk as <-.
    rewrite take_ge by (rewrite length_app; simpl; lia). done.
Qed.

Lemma recorded_mono evs (j k : nat) e1 e2 :
  recorded evs -> (j <= k)%nat ->
  evs !! j = Some e1 -> evs !! k = Some e2 ->
  ev_count_in e1 <= ev_count_in e2 /\ ev_count_out e1 <= ev_count_out e2.
Proof.
  intros Hrec Hjk H1 H2.
  destruct (Hrec _ _ H1) as [-> ->]. destruct (Hrec _ _ H2) as [-> ->].
  rewrite (take_split_le (S j) (S k)) by lia.
  rewrite ins_app, outs_app.
  pose proof (ins_nonneg (take (S k - S j) (drop (S j) evs))).
  pose proof (outs_nonneg (take (S k - S j) (drop (S j) evs))).
  lia.
Qed.

Lemma process_track_inv frame_num self track self' oev :
  process_track frame_num self track = (self', oev) ->
  line_start self' = line_start self /\
  line_end self' = line_end self /\
  min_frames_between self' = min_frames_between self /\
  history_length self' = history_length self /\
  track_history self' =
    <[track_id track := appended self frame_num track]> (track_history self) /\
  match oev with
  | None =>
      last_crossing_frame self' = last_crossing_frame self /\
      count_in self' = count_in self /\
      count_out self' = count_out self /\
      events self' = events self
  | Some e =>
      (2 <= length (appended self frame_num track))%nat /\
      cooling_down self frame_num (track_id track) = false /\
      (exists prev_frame prev_center,
          appended self frame_num track
            !! (length (appended self frame_num track) - 2)%nat
          = Some (prev_frame, prev_center) /\
          _segments_intersect prev_center (center track)
                              (line_start self) (line_end self) = true /\
          ev_direction e = _get_crossing_direction self prev_center (center track)) /\
      ev_frame e = frame_num /\
      ev_track_id e = track_id track /\
      ev_position e = center track /\
      ev_count_in e = count_in self' /\
      ev_count_out e = count_out self' /\
      count_in self' = count_in self + bump IN (ev_direction e) /\
      count_out self' = count_out self + bump OUT (ev_direction e) /\
      events self' = events self ++ [e] /\
      last_crossing_frame self' =
        <[track_id track := frame_num]> (last_crossing_frame self)
  end.
Proof.
  unfold process_track. fold (appended self frame_num track).
  set (history := appended self frame_num track).
  destruct (length history <? 2)%nat eqn:Hlen.
  { intros [= <- <-]. by cbn. }
  apply Nat.ltb_ge in Hlen.
  unfold cooling_down at 1. cbn [last_crossing_frame min_frames_between set_track_history].
  fold (cooling_down self frame_num (track_id track)).
  destruct (cooling_down self frame_num (track_id track)) eqn:Hcool.
  { intros [= <- <-]. by cbn. }
  destruct (history !! (length history - 2)%nat) as [[prev_frame prev_center]|] eqn:Hprev.
  2: { intros [= <- <-]. by cbn. }
  unfold _check_line_crossing. cbn [line_start line_end set_track_history].
  destruct (_segments_intersect _ _ _ _) eqn:Hx.
  2: { intros [= <- <-]. by cbn. }
  intros [= <- <-]. cbn.
  split_and!; try done.
  - exists prev_frame, prev_center. split_and!; done.
  - unfold _get_crossing_direction. cbn. by destruct (np_gt _ _); cbn; lia.
  - unfold _get_crossing_direction. cbn. by destruct (np_gt _ _); cbn; lia.
Qed.

Lemma process_track_emit frame_num self track prev_frame prev_center :
  (2 <= length (appended self frame_num track))%nat ->
  cooling_down self frame_num (track_id track) = false ->
  appended self frame_num track !! (length (appended self frame_num track) - 2)%nat
    = Some (prev_frame, prev_center) ->
  _segments_intersect prev_center (center track) (line_start self) (line_end self)
    = true ->
  exists e, snd (process_track frame_num self track) = Some e.
Proof.
  intros Hlen Hcool Hprev Hx.
  unfold process_track. fold (appended self frame_num track).
  apply Nat.ltb_ge in Hlen. rewrite Hlen.
  unfold cooling_down at 1. cbn [last_crossing_frame min_frames_between set_track_history].
  fold (cooling_down self frame_num (track_id track)). rewrite Hcool, Hprev.
  unfold _check_line_crossing. cbn [line_start line_end set_track_history].
  rewrite Hx. eauto.
Qed.

Lemma process_track_log frame_num self track :
  log_inv self -> log_inv (fst (process_track frame_num self track)).
Proof.
  intros (Hin & Hout & Hrec).
  destruct (process_track frame_num self track) as [self' oev] eqn:Hstep.
  apply process_track_inv in Hstep as (_ & _ & _ & _ & _ & Hev). cbn [fst].
  destruct oev as [e|].
  - destruct Hev as (_ & _ & _ & _ & _ & _ & Hei & Heo & Hci & Hco & Hevs & _).
    assert (Hi : count_in self' = ins (events self')).
    { rewrite Hci, Hevs, ins_app, Hin. f_equal.
      unfold ins, is_IN. simpl. by destruct (ev_direction e). }
    assert (Ho : count_out self' = outs (events self')).
    { rewrite Hco, Hevs, outs_app, Hout. f_equal.
      unfold outs, is_OUT. simpl. by destruct (ev_direction e). }
    split_and!; [done | done |].
    rewrite Hevs. apply recorded_snoc; [done | |]; rewrite <- Hevs; congruence.
  - destruct Hev as (_ & Hci & Hco & Hevs). unfold log_inv.
    by rewrite Hci, Hco, Hevs.
Qed.

Lemma process_frame_log self frame_num tracks :
  log_inv self -> log_inv (fst (process_frame self frame_num tracks)).
Proof.
  unfold process_frame. generalize (@nil Event).
  revert self. induction tracks as [|t ts IH]; intros self acc Hinv; [done |].
  cbn [foldl]. unfold process_step at 2. cbn [fst snd].
  pose proof (process_track_log frame_num self t Hinv) as Hinv'.
  destruct (process_track frame_num self t) as [self' ev]. by apply IH.
Qed.

Lemma process_all_log self results :
  log_inv self -> log_inv (process_all self results).
Proof.
  unfold process_all. revert self.
  induction results as [|f fs IH]; intros self Hinv; [done |].
  cbn [foldl]. apply IH. by apply process_frame_log.
Qed.

Lemma init_log ls le mf hl : log_inv (init ls le mf hl).
Proof. split_and!; [done | done |]. intros k e Hk. cbn in Hk. by rewrite lookup_nil in Hk. Qed.

(** C10.  After any sequence of [process_frame] calls on a fresh counter,
    [count_in + count_out] is the length of the event log (so the
    summary has [total_in + total_out = total_crossings]), the event at
    position [k] records the totals as they stood right after its own
    increment (the numbers of IN and of OUT events among the first
    [k + 1] events), and the totals recorded along the log never
    decrease. *)
Theorem running_totals_match_log
    (ls le : Pos) (mf : Z) (hl : nat) (results : list FrameData) :
  let self := process_all (init ls le mf hl) results in
  count_in self + count_out self = Z.of_nat (length (events self)) /\
  total_in (get_summary self) + total_out (get_summary self)
    = total_crossings (get_summary self) /\
  (forall (k : nat) (e : Event), events self !! k = Some e ->
     ev_count_in e = ins (take (S k) (events self)) /\
     ev_count_out e = outs (take (S k) (events self))) /\
  (forall (j k : nat) (e1 e2 : Event), (j <= k)%nat ->
     events self !! j = Some e1 -> events self !! k = Some e2 ->
     ev_count_in e1 <= ev_count_in e2 /\ ev_count_out e1 <= ev_count_out e2).
Proof.
  intros self.
  destruct (process_all_log (init ls le mf hl) results (init_log ls le mf hl))
    as (Hin & Hout & Hrec). fold self in Hin, Hout, Hrec.
  assert (Hsum : count_in self + count_out self = Z.of_nat (length (events self))).
  { rewrite Hin, Hout. apply ins_outs_length. }
  split_and!; [done | done | done |].
  intros j k e1 e2. by apply recorded_mono.
Qed.

(** ** Debouncing *)

Lemma deque_append_length {A} (maxlen : nat) (d : list A) (x : A) :
  length (deque_append maxlen d x) = Nat.min (S (length d)) maxlen.
Proof.
  unfold deque_append. rewrite length_drop, length_app. simpl length. lia.
Qed.

Lemma deque_append_prev {A} (maxlen : nat) (d : list A) (x p : A) :
  (2 <= maxlen)%nat -> last d = Some p ->
  (2 <= length (deque_append maxlen d x))%nat /\
  deque_append maxlen d x !! (length (deque_append maxlen d x) - 2)%nat = Some p.
Proof.
  intros Hmax Hlast.
  assert (Hd : (1 <= length d)%nat).
  { destruct d; [done | simpl; lia]. }
  rewrite deque_append_length. split; [lia |].
  unfold deque_append. rewrite lookup_drop, length_app. simpl length.
  rewrite last_lookup in Hlast.
  rewrite lookup_app_l by lia.
  rewrite <- Hlast. f_equal. lia.
Qed.

Lemma appended_last self frame_num track :
  (1 <= history_length self)%nat ->
  last (appended self frame_num track) = Some (frame_num, center track).
Proof.
  intros Hmax. unfold appended, deque_append.
  rewrite last_lookup, length_drop, lookup_drop, length_app. simpl length.
  apply list_lookup_middle. lia.
Qed.

Lemma cooling_since_event F self track self1 e :
  process_track F self track = (self1, Some e) ->
  cooling_since (track_id track) F self self1.
Proof.
  intros Hstep.
  apply process_track_inv in Hstep
    as (Hls & Hle & Hmf & Hhl & Hth & Hlen & _ & _ & _ & _ & _ & _ & _ & _ & _ & _ & Hlcf).
  assert (Hmax : (2 <= history_length self)%nat).
  { unfold appended in Hlen. rewrite deque_append_length in Hlen. lia. }
  unfold cooling_since. rewrite Hlcf, Hth, Hhl, !lookup_insert_eq.
  split_and!; try done.
  exists (appended self F track), (F, center track). split; [done |].
  apply appended_last. lia.
Qed.

Lemma cooling_since_step tid F self0 self frame_num track self' oev :
  cooling_since tid F self0 self ->
  process_track frame_num self track = (self', oev) ->
  (track_id track = tid -> oev = None) ->
  cooling_since tid F self0 self'.
Proof.
  intros (Hlcf & Hls & Hle & Hmf & Hhl & Hmax & h & p & Hh & Hp) Hstep Hquiet.
  apply process_track_inv in Hstep as (Hls' & Hle' & Hmf' & Hhl' & Hth' & Hev).
  unfold cooling_since. rewrite Hls', Hle', Hmf', Hhl', Hth'.
  assert (Hhist : exists h' p', <[track_id track := appended self frame_num track]>
                             (track_history self) !! tid = Some h' /\ last h' = Some p').
  { destruct (decide (track_id track = tid)) as [<- | Hne].
    - rewrite lookup_insert_eq. eexists _, _. split; [done |].
      apply appended_last. lia.
    - rewrite lookup_insert_ne by done. eauto. }
  split_and!; try done.
  destruct (decide (track_id track = tid)) as [Heq | Hne].
  - rewrite (Hquiet Heq) in Hev. destruct Hev as (-> & _). done.
  - destruct oev as [e|].
    + destruct Hev as (_ & _ & _ & _ & _ & _ & _ & _ & _ & _ & _ & ->).
      by rewrite lookup_insert_ne.
    + by destruct Hev as (-> & _).
Qed.

Lemma cooling_since_quiet tid F self0 self1 self2 :
  cooling_since tid F self0 self1 -> quiet tid self1 self2 ->
  cooling_since tid F self0 self2.
Proof.
  intros H1 Hq. induction Hq as [|s1 s2 f t s3 oev Hq IH Hstep Hnone]; [done |].
  exact (cooling_since_step tid F self0 s2 f t s3 oev (IH H1) Hstep Hnone).
Qed.

Lemma crossed_since_step tid F self0 self frame_num track self' oev :
  0 <= min_frames_between self0 ->
  crossed_since tid F self0 self ->
  process_track frame_num self track = (self', oev) ->
  crossed_since tid F self0 self'.
Proof.
  intros Hmin (Hmf & L & HL & HFL) Hstep.
  apply process_track_inv in Hstep as (_ & _ & Hmf' & _ & _ & Hev).
  split; [congruence |].
  destruct oev as [e|].
  - destruct Hev as (_ & Hcool & _ & _ & _ & _ & _ & _ & _ & _ & _ & ->).
    destruct (decide (track_id track = tid)) as [Heq | Hne].
    + exists frame_num. rewrite Heq, lookup_insert_eq. split; [done |].
      unfold cooling_down in Hcool. rewrite Heq, HL in Hcool.
      apply Z.ltb_ge in Hcool. lia.
    + exists L. by rewrite lookup_insert_ne.
  - destruct Hev as (-> & _). by exists L.
Qed.

Lemma crossed_since_steps tid F self0 self1 self2 :
  0 <= min_frames_between self0 ->
  crossed_since tid F self0 self1 -> steps self1 self2 ->
  crossed_since tid F self0 self2.
Proof.
  intros Hmin H1 Hs. induction Hs as [|s1 s2 f t s3 oev Hs IH Hstep]; [done |].
  exact (crossed_since_step tid F self0 s2 f t s3 oev Hmin (IH H1) Hstep).
Qed.

(** C4.  Let track [track] produce a counted crossing at frame [F].
    After any further steps of the counter, a sample of that id at
    frame [F + k] with [0 < k < min_frames_between] emits no event,
    whatever its position.  After steps in which the id emits no event
    (the crossing at [F] is its latest), the id has a previous sample,
    and a sample at frame [F + k] with [min_frames_between <= k] whose
    movement from the previous sample intersects the line emits an
    event for that frame and id. *)
Theorem debounce (self : LineCrossingCounter) (F : Z) (track : Track)
    (self1 : LineCrossingCounter) (e : Event) :
  process_track F self track = (self1, Some e) ->
  (forall self2 : LineCrossingCounter, steps self1 self2 ->
   forall (k : Z) (track' : Track), track_id track' = track_id track ->
     0 < k < min_frames_between self ->
     snd (process_track (F + k) self2 track') = None) /\
  (forall self2 : LineCrossingCounter, quiet (track_id track) self1 self2 ->
   (exists h p, track_history self2 !! track_id track = Some h /\ last h = Some p) /\
   forall (k : Z) (track' : Track), track_id track' = track_id track ->
     min_frames_between self <= k ->
     forall h prev_frame prev_center,
       track_history self2 !! track_id track = Some h ->
       last h = Some (prev_frame, prev_center) ->
       _segments_intersect prev_center (center track')
                           (line_start self) (line_end self) = true ->
       exists e', snd (process_track (F + k) self2 track') = Some e' /\
                  ev_frame e' = F + k /\ ev_track_id e' = track_id track).
Proof.
  intros Hstep. split.
  - intros self2 Hs k track' Hid Hk.
    pose proof (cooling_since_event _ _ _ _ _ Hstep) as (Hlcf & _ & _ & Hmf & _).
    assert (Hsince : crossed_since (track_id track) F self self2).
    { apply (crossed_since_steps _ _ _ self1); [lia | | done].
      split; [done |]. exists F. split; [done | lia]. }
    destruct Hsince as (Hmf2 & L & HL & HFL).
    destruct (process_track (F + k) self2 track') as [self3 [e'|]] eqn:Hstep'; [| done].
    apply process_track_inv in Hstep' as (_ & _ & _ & _ & _ & _ & Hcool & _).
    unfold cooling_down in Hcool. rewrite Hid, HL, Hmf2 in Hcool.
    apply Z.ltb_ge in Hcool. lia.
  - intros self2 Hq.
    pose proof (cooling_since_quiet _ _ _ _ _ (cooling_since_event _ _ _ _ _ Hstep) Hq)
      as (Hlcf & Hls & Hle & Hmf & Hhl & Hmax & Hhist).
    split; [exact Hhist |].
    intros k track' Hid Hk h prev_frame prev_center Hh Hlast Hx.
    assert (Hcool : cooling_down self2 (F + k) (track_id track') = false).
    { unfold cooling_down. rewrite Hid, Hlcf, Hmf. apply Z.ltb_ge. lia. }
    destruct (deque_append_prev (history_length self2) h (F + k, center track')
                (prev_frame, prev_center) Hmax Hlast) as [Hlen Hprev].
    assert (Happ : appended self2 (F + k) track'
                   = deque_append (history_length self2) h (F + k, center track')).
    { unfold appended. by rewrite Hid, Hh. }
    rewrite <- Happ in Hlen, Hprev. rewrite <- Hls, <- Hle in Hx.
    destruct (process_track_emit _ _ _ _ _ Hlen Hcool Hprev Hx) as [e' He'].
    exists e'. split; [done |].
    destruct (process_track (F + k) self2 track') as [self3 oev] eqn:Hstep'.
    cbn in He'. subst oev.
    apply process_track_inv in Hstep' as (_ & _ & _ & _ & _ & _ & _ & _ & Hf & Ht & _).
    by rewrite Hf, Ht, Hid.
Qed.

(** ** The segment builder *)

Lemma observe_frame_obs segments f :
  observe_frame segments f
  = observe_all segments (map (fun t => (frame f, t)) (tracks f)).
Proof.
  unfold observe_frame, observe_all. generalize (tracks f) as ts. intros ts.
  revert segments. induction ts as [|t ts IH]; intros segments; [done |].
  cbn. apply IH.
Qed.

Lemma build_observations results :
  _build_track_segments results = observe_all ∅ (observations results).
Proof.
  unfold _build_track_segments, observations. generalize (∅ : gmap Z Segment).
  induction results as [|f fs IH]; intros segments; [done |].
  cbn [foldl map concat]. rewrite IH, observe_frame_obs.
  unfold observe_all. by rewrite foldl_app.
Qed.

Ltac in_old := apply elem_of_app; left; assumption.
Ltac in_new := apply elem_of_app; right; apply list_elem_of_singleton; reflexivity.

Lemma seg_ok_weaken obs o tid seg :
  track_id (snd o) ≠ tid -> seg_ok obs tid seg -> seg_ok (obs ++ [o]) tid seg.
Proof.
  intros Hne (s & Hs & Hle & (t1 & Ht1 & H1) & (t2 & Ht2 & H2) & Heq & Hall).
  exists s. split_and!; try done.
  - exists t1. split; [in_old | done].
  - exists t2. split; [in_old | done].
  - intros n t Hin Hid. apply elem_of_app in Hin as [Hin | Hin]; [by eapply Hall |].
    apply list_elem_of_singleton in Hin. subst o. by cbn in Hne.
Qed.

Lemma observe_fresh n t segments :
  1 <= n -> segments !! track_id t = None ->
  exists seg, observe n segments t = <[track_id t := seg]> segments /\
              (forall obs', (forall n' t', (n', t') ∈ obs' -> track_id t' ≠ track_id t) ->
                 seg_ok (obs' ++ [(n, t)]) (track_id t) seg).
Proof.
  intros Hn Hnone. unfold observe. rewrite Hnone.
  eexists. split; [done |]. intros obs' Hfresh.
  unfold update_end, update_start, append_frame. cbn.
  assert ((n >? 0) = true) as -> by lia.
  exists n. cbn. split_and!; try done.
  - exists t. split; [in_new | done].
  - exists t. split; [in_new | done].
  - intros n' t' Hin Hid. apply elem_of_app in Hin as [Hin | Hin].
    + by apply Hfresh in Hin.
    + apply list_elem_of_singleton in Hin. injection Hin as -> ->. lia.
Qed.

Lemma observe_known obs n t segments seg :
  segments !! track_id t = Some seg -> seg_ok obs (track_id t) seg ->
  exists seg', observe n segments t = <[track_id t := seg']> segments /\
               seg_ok (obs ++ [(n, t)]) (track_id t) seg'.
Proof.
  intros Hsome (s & Hs & Hle & (t1 & Ht1 & Hid1 & Hp1 & Hb1)
                & (t2 & Ht2 & Hid2 & Hp2 & Hb2) & Heq & Hall).
  unfold observe. rewrite Hsome.
  eexists. split; [done |].
  destruct seg as [sf ef sp ep sb eb fr]. cbn in *. subst sf.
  unfold update_end, update_start, append_frame. cbn.
  destruct (n <? s) eqn:Hlt; cbn.
  - apply Z.ltb_lt in Hlt.
    assert ((n >? ef) = false) as -> by lia.
    exists n. cbn. split_and!; try done; try lia.
    + exists t. split; [in_new | done].
    + exists t2. split; [in_old | done].
    + intros n' t' Hin Hid. apply elem_of_app in Hin as [Hin | Hin].
      * specialize (Hall _ _ Hin Hid). lia.
      * apply list_elem_of_singleton in Hin. injection Hin as -> ->. lia.
  - apply Z.ltb_ge in Hlt.
    destruct (n >? ef) eqn:Hgt.
    + assert (ef < n) by lia.
      exists s. cbn. split_and!; try done; try lia.
      * exists t1. split; [in_old | done].
      * exists t. split; [in_new | done].
      * intros n' t' Hin Hid. apply elem_of_app in Hin as [Hin | Hin].
        -- specialize (Hall _ _ Hin Hid). lia.
        -- apply list_elem_of_singleton in Hin. injection Hin as -> ->. lia.
    + assert (n <= ef) by lia.
      exists s. cbn. split_and!; try done.
      * exists t1. split; [in_old | done].
      * exists t2. split; [in_old | done].
      * intros n' t' Hin Hid. apply elem_of_app in Hin as [Hin | Hin].
        -- by eapply Hall.
        -- apply list_elem_of_singleton in Hin. injection Hin as -> ->. lia.
Qed.

Lemma build_inv_empty : build_inv [] ∅.
Proof.
  split.
  - intros tid. rewrite lookup_empty. split.
    + by intros [? ?].
    + intros (n & t & Hin & _). by apply elem_of_nil in Hin.
  - intros tid seg. by rewrite lookup_empty.
Qed.

Lemma build_inv_step obs segments n t :
  1 <= n -> build_inv obs segments ->
  build_inv (obs ++ [(n, t)]) (observe n segments t).
Proof.
  intros Hn [Hdom Hok].
  assert (Hobs : exists seg', observe n segments t = <[track_id t := seg']> segments /\
                              seg_ok (obs ++ [(n, t)]) (track_id t) seg').
  { destruct (segments !! track_id t) as [seg|] eqn:Hlook.
    - eapply observe_known; eauto.
    - destruct (observe_fresh n t segments Hn Hlook) as (seg' & Heq & Hseg).
      exists seg'. split; [done |]. apply Hseg.
      intros n' t' Hin Hid.
      assert (is_Some (segments !! track_id t)) as [? ?]; [| congruence].
      apply Hdom. eauto. }
  destruct Hobs as (seg' & -> & Hseg'). split.
  - intros tid. destruct (decide (tid = track_id t)) as [-> | Hne].
    + rewrite lookup_insert_eq. split; [| by eauto].
      intros _. exists n, t. split; [in_new | done].
    + rewrite lookup_insert_ne by done. rewrite Hdom. split.
      * intros (n' & t' & Hin & Hid). exists n', t'. split; [in_old | done].
      * intros (n' & t' & Hin & Hid).
        apply elem_of_app in Hin as [Hin | Hin]; [by eauto |].
        apply list_elem_of_singleton in Hin. injection Hin as -> ->. done.
  - intros tid seg. destruct (decide (tid = track_id t)) as [-> | Hne].
    + rewrite lookup_insert_eq. by intros [= <-].
    + rewrite lookup_insert_ne by done. intros Hlook.
      apply seg_ok_weaken; [by cbn | by apply Hok].
Qed.

Lemma build_inv_all obs :
  (forall n t, (n, t) ∈ obs -> 1 <= n) -> build_inv obs (observe_all ∅ obs).
Proof.
  induction obs as [|[n t] obs IH] using rev_ind; intros Hpos.
  - apply build_inv_empty.
  - unfold observe_all. rewrite foldl_app. cbn.
    apply build_inv_step.
    + apply (Hpos n t). in_new.
    + apply IH. intros n' t' Hin. apply (Hpos n' t'). in_old.
Qed.

Lemma elem_of_observations results n t :
  (n, t) ∈ observations results <->
  exists f, f ∈ results /\ frame f = n /\ t ∈ tracks f.
Proof.
  unfold observations. induction results as [|f fs IH]; cbn [map concat].
  - split; [intros Hin; by apply elem_of_nil in Hin |].
    intros (f & Hf & _). by apply elem_of_nil in Hf.
  - rewrite elem_of_app, IH. split.
    + intros [Hin | (f' & Hf' & Hrest)].
      * apply list_elem_of_fmap in Hin as (t' & [= -> ->] & Ht).
        exists f. split; [left | done].
      * exists f'. split; [by right | done].
    + intros (f' & Hf' & <- & Ht). apply elem_of_cons in Hf' as [-> | Hf'].
      * left. apply list_elem_of_fmap. eauto.
      * right. eauto.
Qed.

(** C9.  For every sequence whose frame numbers are at least 1, the
    builder holds a segment for exactly the ids detected (one per id,
    the dictionary being keyed by id); in each segment
    [start_frame <= end_frame], the start position and box are those of
    a detection of that id in frame [start_frame], the end position and
    box those of a detection of that id in frame [end_frame]; and when
    all detections of the id are in one frame [n], the segment starts
    and ends at [n] with equal start and end position and box. *)
Theorem build_track_segments_sound (results : list FrameData) :
  (forall f, f ∈ results -> 1 <= frame f) ->
  let segments := _build_track_segments results in
  (forall tid, is_Some (segments !! tid) <->
               exists f t, f ∈ results /\ t ∈ tracks f /\ track_id t = tid) /\
  (forall tid seg, segments !! tid = Some seg ->
     exists s : Z,
       start_frame seg = Fin s /\ s <= end_frame seg /\
       (exists f t, f ∈ results /\ t ∈ tracks f /\ track_id t = tid /\
                    frame f = s /\
                    start_position seg = Some (center t) /\
                    start_bbox seg = Some (bbox t)) /\
       (exists f t, f ∈ results /\ t ∈ tracks f /\ track_id t = tid /\
                    frame f = end_frame seg /\
                    end_position seg = Some (center t) /\
                    end_bbox seg = Some (bbox t)) /\
       (forall n : Z,
          (forall f t, f ∈ results -> t ∈ tracks f -> track_id t = tid ->
                       frame f = n) ->
          s = n /\ end_frame seg = n /\
          start_position seg = end_position seg /\
          start_bbox seg = end_bbox seg)).
Proof.
  intros Hpos segments. unfold segments. rewrite build_observations.
  destruct (build_inv_all (observations results)) as [Hdom Hok].
  { intros n t Hin. apply elem_of_observations in Hin as (f & Hf & <- & _).
    by apply Hpos. }
  split.
  - intros tid. rewrite Hdom. split.
    + intros (n & t & Hin & Hid).
      apply elem_of_observations in Hin as (f & Hf & _ & Ht). eauto.
    + intros (f & t & Hf & Ht & Hid). exists (frame f), t. split; [| done].
      apply elem_of_observations. eauto.
  - intros tid seg Hlook.
    destruct (Hok tid seg Hlook)
      as (s & Hs & Hle & (t1 & Ht1 & Hid1 & Hp1 & Hb1)
          & (t2 & Ht2 & Hid2 & Hp2 & Hb2) & Heq & Hall).
    apply elem_of_observations in Ht1 as (f1 & Hf1 & Hn1 & Ht1).
    apply elem_of_observations in Ht2 as (f2 & Hf2 & Hn2 & Ht2).
    exists s. split_and!; try done.
    + exists f1, t1. done.
    + exists f2, t2. done.
    + intros n Hone.
      assert (s = n) as <- by (rewrite <- Hn1; eauto).
      assert (end_frame seg = s) as He by (rewrite <- Hn2; eauto).
      split_and!; try done; by apply Heq.
Qed.

(** ** The decision for one pair *)

Lemma similar_true cfg p q ba bb :
  similar cfg (Some p) (Some q) (Some ba) (Some bb) = Ok true <->
  (distance p q <? position_threshold cfg)%float = true /\
  ratio_gt (size_similarity_threshold cfg) (_get_bbox_size ba) (_get_bbox_size bb).
Proof.
  unfold similar, ratio_gt. cbv zeta.
  destruct (float_div _ _) as [ratio | e |]; cbn.
  - split.
    + intros [= Hb]. apply andb_true_iff in Hb as [Hd Hr]. by eauto.
    + intros [Hd (r & [= <-] & Hr)]. by rewrite Hd, Hr.
  - split; [done | by intros [_ (r & ? & _)]].
  - split; [done | by intros [_ (r & ? & _)]].
Qed.

Lemma similar_Ok_inv cfg p q ba bb b :
  similar cfg p q ba bb = Ok b ->
  exists p' q' ba' bb', p = Some p' /\ q = Some q' /\ ba = Some ba' /\ bb = Some bb'.
Proof.
  destruct p, q, ba, bb; try done. intros _. by eexists _, _, _, _.
Qed.

Lemma decide_Some_iff (r : result bool) (x : Z * Z) :
  bind r (fun ok : bool => Ok (if ok then Some x else None)) = Ok (Some x)
  <-> r = Ok true.
Proof.
  destruct r as [[|] | e |]; cbn; split; congruence.
Qed.

Lemma similar_mergeable cfg a b s :
  start_frame b = Fin s -> s - end_frame a <= max_frame_gap cfg ->
  (similar cfg (end_position a) (start_position b) (end_bbox a) (start_bbox b)
     = Ok true <-> mergeable cfg a b true) /\
  (similar cfg (end_position a) (start_position b) (start_bbox b) (end_bbox a)
     = Ok true <-> mergeable cfg a b false).
Proof.
  intros Hs Hgap. unfold mergeable. split; split.
  - intros Hsim. apply similar_Ok_inv in Hsim as Hs'.
    destruct Hs' as (p & q & ba & bb & Hp & Hq & Hba & Hbb).
    rewrite Hp, Hq, Hba, Hbb in Hsim. apply similar_true in Hsim as [Hd Hr].
    by exists s, p, q, ba, bb.
  - intros (s' & p & q & ba & bb & _ & -> & -> & -> & -> & _ & Hd & Hr).
    by apply similar_true.
  - intros Hsim. apply similar_Ok_inv in Hsim as Hs'.
    destruct Hs' as (p & q & bb & ba & Hp & Hq & Hbb & Hba).
    rewrite Hp, Hq, Hba, Hbb in Hsim. apply similar_true in Hsim as [Hd Hr].
    by exists s, p, q, ba, bb.
  - intros (s' & p & q & ba & bb & _ & -> & -> & -> & -> & _ & Hd & Hr).
    by apply similar_true.
Qed.

Lemma merge_decision_earlier_first cfg ida a idb b :
  precedes a b ->
  merge_decision cfg ida a idb b = Ok (Some (ida, idb)) <-> mergeable cfg a b true.
Proof.
  intros (s & Hs & Hlt). unfold merge_decision. rewrite Hs. cbn.
  assert ((end_frame a <? s) = true) as -> by lia.
  destruct (s - end_frame a <=? max_frame_gap cfg) eqn:Hgap.
  - apply Z.leb_le in Hgap. rewrite decide_Some_iff.
    by apply (similar_mergeable cfg a b s).
  - apply Z.leb_gt in Hgap. split; [done |].
    intros (s' & p' & q' & ba' & bb' & Hs' & _ & _ & _ & _ & Hle & _).
    rewrite Hs in Hs'. injection Hs' as <-. lia.
Qed.

Lemma merge_decision_earlier_second cfg ida a idb b :
  well_formed a -> well_formed b -> precedes a b ->
  merge_decision cfg idb b ida a = Ok (Some (ida, idb)) <-> mergeable cfg a b false.
Proof.
  intros (sa & Hsa & Hlea) (sb & Hsb & Hleb) (s & Hs & Hlt).
  rewrite Hsb in Hs. injection Hs as <-.
  unfold merge_decision. rewrite Hsa, Hsb. cbn.
  assert ((end_frame b <? sa) = false) as -> by lia.
  assert ((end_frame a <? sb) = true) as -> by lia.
  destruct (sb - end_frame a <=? max_frame_gap cfg) eqn:Hgap.
  - apply Z.leb_le in Hgap. rewrite decide_Some_iff.
    by apply (similar_mergeable cfg a b sb).
  - apply Z.leb_gt in Hgap. split; [done |].
    intros (s' & p' & q' & ba' & bb' & Hs' & _ & _ & _ & _ & Hle & _).
    rewrite Hsb in Hs'. injection Hs' as <-. lia.
Qed.

Lemma merge_decision_unordered cfg ida a idb b :
  well_formed a -> well_formed b -> ~ precedes a b -> ~ precedes b a ->
  merge_decision cfg ida a idb b = Ok None.
Proof.
  intros (sa & Hsa & Hlea) (sb & Hsb & Hleb) Hab Hba.
  unfold merge_decision. rewrite Hsa, Hsb. cbn.
  assert ((end_frame a <? sb) = false) as ->.
  { apply Z.ltb_ge. destruct (Z_lt_le_dec (end_frame a) sb); [| done].
    exfalso. apply Hab. by exists sb. }
  assert ((end_frame b <? sa) = false) as ->.
  { apply Z.ltb_ge. destruct (Z_lt_le_dec (end_frame b) sa); [| done].
    exfalso. apply Hba. by exists sa. }
  done.
Qed.

Lemma decide_Some_inv (r : result bool) (x d : Z * Z) :
  bind r (fun ok : bool => Ok (if ok then Some x else None)) = Ok (Some d) -> d = x.
Proof.
  destruct r as [[|] | e |]; cbn; congruence.
Qed.

Section Loops.
Variables (fuel : nat) (cfg : Config) (segments : gmap Z Segment).

Lemma merge_pairs_app pairs1 pairs2 m :
  merge_pairs fuel cfg segments (pairs1 ++ pairs2) m
  = bind (merge_pairs fuel cfg segments pairs1 m)
         (merge_pairs fuel cfg segments pairs2).
Proof.
  revert m. induction pairs1 as [|ab ps IH]; intros m; [done |].
  cbn. destruct (merge_pair fuel cfg segments m ab); cbn; [apply IH | done | done].
Qed.

Lemma inner_loop_flat a seg_a rest m :
  segments !! a = Some seg_a ->
  inner_loop fuel cfg segments a seg_a rest m
  = merge_pairs fuel cfg segments (map (pair a) rest) m.
Proof.
  intros Ha. revert m. induction rest as [|b rest IH]; intros m; [done |].
  cbn. unfold merge_pair. cbn. rewrite Ha. cbn.
  destruct (subscript (segments !! b)) as [seg_b | |]; cbn; [| done | done].
  destruct (merge_decision cfg a seg_a b seg_b) as [d | |]; cbn; [| done | done].
  destruct (record_merge fuel m d); cbn; [apply IH | done | done].
Qed.

Lemma outer_loop_flat track_ids m :
  (forall a, a ∈ track_ids -> is_Some (segments !! a)) ->
  outer_loop fuel cfg segments track_ids m
  = merge_pairs fuel cfg segments (id_pairs track_ids) m.
Proof.
  revert m. induction track_ids as [|a rest IH]; intros m Hin; [done |].
  cbn. destruct (Hin a) as [seg_a Ha]; [left |]. rewrite Ha. cbn.
  rewrite merge_pairs_app, (inner_loop_flat a seg_a rest m Ha).
  destruct (merge_pairs fuel cfg segments (map (pair a) rest) m); cbn; [| done | done].
  apply IH. intros b Hb. apply Hin. by right.
Qed.
End Loops.

Lemma sorted_keys_present segments a :
  a ∈ sorted_keys segments -> is_Some (segments !! a).
Proof.
  unfold sorted_keys. rewrite merge_sort_Permutation, elem_of_elements.
  apply elem_of_dom.
Qed.

Lemma find_merge_candidates_flat fuel cfg segments :
  _find_merge_candidates fuel cfg segments
  = merge_pairs fuel cfg segments (id_pairs (sorted_keys segments)) ∅.
Proof.
  apply outer_loop_flat. apply sorted_keys_present.
Qed.

(** *** Chains of the merge map *)

Lemma get_master_terminal fuel tid m r :
  _get_master_id fuel tid m = Some r -> m !! r = None /\ rtc (edge m) tid r.
Proof.
  revert tid. induction fuel as [|fuel IH]; intros tid; cbn.
  - destruct (m !! tid) eqn:E; [done |]. intros [= <-]. by split.
  - destruct (m !! tid) as [next|] eqn:E.
    + intros Hr. destruct (IH next Hr) as [Hnone Hpath]. split; [done |].
      by eapply rtc_l.
    + intros [= <-]. by split.
Qed.

Lemma get_master_fixed fuel r m : m !! r = None -> _get_master_id fuel r m = Some r.
Proof. intros Hnone. destruct fuel; cbn; by rewrite Hnone. Qed.

Lemma keys_bound (m : gmap Z Z) (visited : list Z) :
  NoDup visited -> (forall x, x ∈ visited -> is_Some (m !! x)) ->
  (length visited <= size m)%nat.
Proof.
  intros Hnd Hin.
  rewrite <- (size_list_to_set (C := gset Z) visited Hnd), <- size_dom.
  apply subseteq_size. intros x Hx. apply elem_of_list_to_set in Hx.
  apply elem_of_dom. by apply Hin.
Qed.

Lemma get_master_total_aux m :
  acyclic m ->
  forall fuel tid visited,
    NoDup visited ->
    (forall x, x ∈ visited -> is_Some (m !! x) /\ tc (edge m) x tid) ->
    (size m <= length visited + fuel)%nat ->
    is_Some (_get_master_id fuel tid m).
Proof.
  intros Hacyc. induction fuel as [|fuel IH]; intros tid visited Hnd Hvis Hsize.
  - cbn. destruct (m !! tid) as [next|] eqn:E; [| done].
    exfalso.
    assert (Hnd' : NoDup (tid :: visited)).
    { constructor; [| done]. intros Hin. destruct (Hvis _ Hin) as [_ Hloop].
      by apply (Hacyc tid). }
    apply keys_bound with (m := m) in Hnd'.
    + cbn in Hnd'. lia.
    + intros x Hx. apply elem_of_cons in Hx as [-> | Hx]; [by eauto |].
      by apply Hvis.
  - cbn. destruct (m !! tid) as [next|] eqn:E; [| done].
    apply (IH next (tid :: visited)).
    + constructor; [| done]. intros Hin. destruct (Hvis _ Hin) as [_ Hloop].
      by apply (Hacyc tid).
    + intros x Hx. apply elem_of_cons in Hx as [-> | Hx].
      * split; [by eauto | by apply tc_once].
      * destruct (Hvis _ Hx) as [Hsome Hpath]. split; [done |].
        eapply tc_r; eauto.
    + cbn. lia.
Qed.

Lemma get_master_total m fuel tid :
  acyclic m -> (size m <= fuel)%nat -> is_Some (_get_master_id fuel tid m).
Proof.
  intros Hacyc Hfuel. apply (get_master_total_aux m Hacyc fuel tid []).
  - constructor.
  - intros x Hx. by apply elem_of_nil in Hx.
  - cbn. lia.
Qed.

(** *** The temporal order of well-formed segments *)

Lemma precedes_trans a b c :
  well_formed b -> precedes a b -> precedes b c -> precedes a c.
Proof.
  intros (sb & Hsb & Hle) (sb' & Hsb' & Hab) (sc & Hsc & Hbc).
  rewrite Hsb in Hsb'. injection Hsb' as <-. exists sc. split; [done | lia].
Qed.

Lemma precedes_irrefl a : well_formed a -> ~ precedes a a.
Proof.
  intros (s & Hs & Hle) (s' & Hs' & Hlt). rewrite Hs in Hs'. injection Hs' as <-. lia.
Qed.

Section Chrono.
Variable segments : gmap Z Segment.
Hypothesis Hwf : all_well_formed segments.

Lemma chrono_tc m k v :
  chrono segments m -> tc (edge m) k v ->
  exists seg_k seg_v,
    segments !! k = Some seg_k /\ segments !! v = Some seg_v /\
    precedes seg_v seg_k.
Proof.
  intros Hch Hpath. induction Hpath as [k v Hkv | k w v Hkw Hwv IH].
  - by apply Hch.
  - destruct (Hch _ _ Hkw) as (seg_k & seg_w & Hk & Hw & Hwk).
    destruct IH as (seg_w' & seg_v & Hw' & Hv & Hvw).
    rewrite Hw in Hw'. injection Hw' as <-.
    exists seg_k, seg_v. split_and!; [done | done |].
    apply (precedes_trans seg_v seg_w seg_k); [by eapply Hwf | done | done].
Qed.

Lemma chrono_acyclic m : chrono segments m -> acyclic m.
Proof.
  intros Hch k Hloop.
  destruct (chrono_tc m k k Hch Hloop) as (seg & seg' & Hk & Hk' & Hpre).
  rewrite Hk in Hk'. injection Hk' as <-.
  eapply precedes_irrefl; eauto.
Qed.

Lemma chrono_size m : chrono segments m -> (size m <= size segments)%nat.
Proof.
  intros Hch. rewrite <- !size_dom. apply subseteq_size.
  intros k Hk. apply elem_of_dom in Hk as [v Hv]. apply elem_of_dom.
  destruct (Hch _ _ Hv) as (seg_k & _ & Hk & _). eauto.
Qed.

Lemma chrono_empty : chrono segments ∅.
Proof. intros k v. by rewrite lookup_empty. Qed.
End Chrono.

Lemma merge_decision_Some cfg ida a idb b master slave :
  well_formed a -> well_formed b ->
  merge_decision cfg ida a idb b = Ok (Some (master, slave)) ->
  (master = ida /\ slave = idb /\ precedes a b) \/
  (master = idb /\ slave = ida /\ precedes b a).
Proof.
  intros (sa & Hsa & Hlea) (sb & Hsb & Hleb).
  unfold merge_decision. rewrite Hsa, Hsb. cbn.
  destruct (end_frame a <? sb) eqn:Hab.
  - apply Z.ltb_lt in Hab.
    destruct (sb - end_frame a <=? max_frame_gap cfg); [| done].
    intros Hd. apply decide_Some_inv in Hd. injection Hd as -> ->.
    left. split_and!; [done | done |]. by exists sb.
  - destruct (end_frame b <? sa) eqn:Hba; [| done].
    apply Z.ltb_lt in Hba.
    destruct (sa - end_frame b <=? max_frame_gap cfg); [| done].
    intros Hd. apply decide_Some_inv in Hd. injection Hd as -> ->.
    right. split_and!; [done | done |]. by exists sa.
Qed.

Lemma similar_fuel_free cfg p q ba bb : similar cfg p q ba bb ≠ OutOfFuel.
Proof.
  unfold similar, float_div. destruct p, q, ba, bb; try done.
  by destruct (_ =? _)%float.
Qed.

Lemma merge_decision_fuel_free cfg ida a idb b :
  merge_decision cfg ida a idb b ≠ OutOfFuel.
Proof.
  unfold merge_decision.
  repeat match goal with
         | |- context [if ?c then _ else _] => destruct c
         end; try done.
  - pose proof (similar_fuel_free cfg (end_position a) (start_position b)
                                  (end_bbox a) (start_bbox b)).
    by destruct (similar _ _ _ _ _).
  - pose proof (similar_fuel_free cfg (end_position b) (start_position a)
                                  (start_bbox a) (end_bbox b)).
    by destruct (similar _ _ _ _ _).
Qed.

Section Construction.
Variables (fuel : nat) (cfg : Config) (segments : gmap Z Segment).
Hypothesis Hwf : all_well_formed segments.
Hypothesis Hfuel : (size segments <= fuel)%nat.

Lemma record_merge_step m master slave seg_m seg_s :
  chrono segments m ->
  segments !! master = Some seg_m -> segments !! slave = Some seg_s ->
  precedes seg_m seg_s ->
  exists final_master,
    _get_master_id fuel master m = Some final_master /\
    record_merge fuel m (Some (master, slave))
      = Ok (<[slave := final_master]> m) /\
    (<[slave := final_master]> m) !! final_master = None /\
    chrono segments (<[slave := final_master]> m).
Proof.
  intros Hch Hm Hs Hpre.
  pose proof (chrono_acyclic segments Hwf m Hch) as Hacyc.
  pose proof (chrono_size segments m Hch) as Hsize.
  destruct (get_master_total m fuel master Hacyc) as [fm Hfm]; [lia |].
  destruct (get_master_terminal _ _ _ _ Hfm) as [Hnone Hpath].
  assert (Hfmseg : exists seg_f, segments !! fm = Some seg_f /\ precedes seg_f seg_s).
  { apply rtc_tc in Hpath as [<- | Hpath]; [by eauto |].
    destruct (chrono_tc segments Hwf m master fm Hch Hpath)
      as (seg_m' & seg_f & Hm' & Hf & Hfm').
    rewrite Hm in Hm'. injection Hm' as <-. exists seg_f. split; [done |].
    apply (precedes_trans seg_f seg_m seg_s); [by eapply Hwf | done | done]. }
  destruct Hfmseg as (seg_f & Hf & Hfs).
  assert (Hne : slave ≠ fm).
  { intros ->. rewrite Hs in Hf. injection Hf as <-.
    eapply precedes_irrefl; eauto. }
  exists fm. split_and!.
  - done.
  - cbn. by rewrite Hfm.
  - by rewrite lookup_insert_ne.
  - intros k v. destruct (decide (k = slave)) as [-> | Hk].
    + rewrite lookup_insert_eq. intros [= <-]. by exists seg_s, seg_f.
    + rewrite lookup_insert_ne by done. apply Hch.
Qed.

Lemma merge_pair_step m ab :
  chrono segments m ->
  merge_pair fuel cfg segments m ab ≠ OutOfFuel /\
  forall m', merge_pair fuel cfg segments m ab = Ok m' ->
    chrono segments m' /\
    (m' = m \/
     exists slave final_master,
       m' = <[slave := final_master]> m /\ m' !! final_master = None).
Proof.
  intros Hch. unfold merge_pair.
  destruct (segments !! ab.1) as [seg_a|] eqn:Ha; cbn; [| by split].
  destruct (segments !! ab.2) as [seg_b|] eqn:Hb; cbn; [| by split].
  destruct (merge_decision cfg ab.1 seg_a ab.2 seg_b) as [[[master slave]|] | e |]
    eqn:Hd; cbn -[record_merge].
  - assert (Hms : exists seg_m seg_s,
               segments !! master = Some seg_m /\ segments !! slave = Some seg_s /\
               precedes seg_m seg_s).
    { apply merge_decision_Some in Hd as [(-> & -> & Hpre) | (-> & -> & Hpre)];
        eauto 6. }
    destruct Hms as (seg_m & seg_s & Hm & Hs & Hpre).
    destruct (record_merge_step m master slave seg_m seg_s Hch Hm Hs Hpre)
      as (fm & _ & -> & Hterm & Hch').
    split; [done |]. intros m' [= <-]. split; [done |]. right. eauto.
  - split; [done |]. intros m' [= <-]. split; [done | by left].
  - by split.
  - by destruct (merge_decision_fuel_free cfg ab.1 seg_a ab.2 seg_b).
Qed.

Lemma merge_pairs_chrono pairs m :
  chrono segments m ->
  merge_pairs fuel cfg segments pairs m ≠ OutOfFuel /\
  forall m', merge_pairs fuel cfg segments pairs m = Ok m' -> chrono segments m'.
Proof.
  revert m. induction pairs as [|ab pairs IH]; intros m Hch.
  - split; [done |]. by intros m' [= <-].
  - cbn. destruct (merge_pair_step m ab Hch) as [Hnf Hstep].
    destruct (merge_pair fuel cfg segments m ab) as [m1 | e |]; cbn; [| done | done].
    destruct (Hstep m1 eq_refl) as [Hch1 _]. by apply IH.
Qed.
End Construction.

(** X21.  At every point of the construction of the merge map over
    well-formed segments, that is for every split [pre ++ ab :: post]
    of the pairs visited, the iteration for [ab] either leaves the map
    as it is or inserts one edge whose master is terminal in the map
    just after the insertion: the inserted value is not a key.  (Values
    inserted earlier can have become keys.) *)
Theorem inserted_master_is_terminal (fuel : nat) (cfg : Config)
    (segments : gmap Z Segment)
    (pre post : list (Z * Z)) (ab : Z * Z) (m m' : gmap Z Z) :
  all_well_formed segments ->
  (size segments <= fuel)%nat ->
  id_pairs (sorted_keys segments) = pre ++ ab :: post ->
  merge_pairs fuel cfg segments pre ∅ = Ok m ->
  merge_pair fuel cfg segments m ab = Ok m' ->
  m' = m \/
  exists slave final_master,
    m' = <[slave := final_master]> m /\ m' !! final_master = None.
Proof.
  intros Hwf Hfuel _ Hpre Hstep.
  destruct (merge_pairs_chrono fuel cfg segments Hwf Hfuel pre ∅
              (chrono_empty segments)) as [_ Hch].
  destruct (merge_pair_step fuel cfg segments Hwf Hfuel m ab (Hch m Hpre))
    as [_ Hafter].
  by destruct (Hafter m' Hstep) as [_ ?].
Qed.

(** C3.  For every sequence whose segments all satisfy
    [start_frame <= end_frame], the resolver does not run out of fuel
    once the fuel covers the number of segments, and every merge map it
    returns is acyclic, maps no id to itself, and resolves every id,
    with any fuel covering the size of the map, to a master that is not
    a key of the map and that resolves to itself. *)
Theorem merge_map_forest (fuel : nat) (cfg : Config) (results : list FrameData) :
  let segments := _build_track_segments results in
  all_well_formed segments ->
  (size segments <= fuel)%nat ->
  _find_merge_candidates fuel cfg segments ≠ OutOfFuel /\
  forall merge_map,
    _find_merge_candidates fuel cfg segments = Ok merge_map ->
    (forall tid, ~ tc (edge merge_map) tid tid) /\
    (forall tid, merge_map !! tid ≠ Some tid) /\
    (forall (tid : Z) (fuel' : nat), (size merge_map <= fuel')%nat ->
       exists master,
         _get_master_id fuel' tid merge_map = Some master /\
         merge_map !! master = None /\
         _get_master_id fuel' master merge_map = Some master).
Proof.
  intros segments Hwf Hfuel. rewrite find_merge_candidates_flat.
  destruct (merge_pairs_chrono fuel cfg segments Hwf Hfuel
              (id_pairs (sorted_keys segments)) ∅ (chrono_empty segments))
    as [Hnf Hch].
  split; [done |]. intros m Hm. specialize (Hch m Hm).
  pose proof (chrono_acyclic segments Hwf m Hch) as Hacyc.
  split_and!.
  - exact Hacyc.
  - intros tid Hself. apply (Hacyc tid). by apply tc_once.
  - intros tid fuel' Hfuel'.
    destruct (get_master_total m fuel' tid Hacyc Hfuel') as [master Hmaster].
    destruct (get_master_terminal _ _ _ _ Hmaster) as [Hnone _].
    exists master. split_and!; [done | done |]. by apply get_master_fixed.
Qed.

(** ** Boxes without area, and the empty sequence *)

Lemma py_div_zero a b : (b == 0)%Q -> py_div a b = Raise ZeroDivisionError.
Proof.
  intros Hb. unfold py_div. apply Qeq_bool_iff in Hb. by rewrite Hb.
Qed.

Lemma float_div_zero a b :
  (b =? 0)%float = true -> float_div a b = Raise ZeroDivisionError.
Proof. intros Hb. unfold float_div. by rewrite Hb. Qed.

Lemma py_max_zero a b :
  (a =? 0)%float = true -> (b =? 0)%float = true -> (py_max a b =? 0)%float = true.
Proof. intros Ha Hb. by destruct (py_max_cases a b) as [-> | ->]. Qed.

Lemma similar_zero_area cfg p q ba bb :
  (_get_bbox_size ba =? 0)%float = true -> (_get_bbox_size bb =? 0)%float = true ->
  similar cfg (Some p) (Some q) (Some ba) (Some bb) = Raise ZeroDivisionError.
Proof.
  intros Ha Hb. unfold similar. cbv zeta.
  by rewrite float_div_zero by (by apply py_max_zero).
Qed.

(** C6, as amended.  For two well-formed segments [a] before [b] whose
    compared boxes both have zero area: when the frame gap is within
    [max_frame_gap], the decision for the pair, in either order of the
    ids, raises [ZeroDivisionError], and so does the inner loop that
    reaches the pair; when the gap exceeds [max_frame_gap] the pair is
    rejected without the ratio being computed. *)
Theorem zero_area_pair_raises (cfg : Config) (ida idb : Z) (a b : Segment)
    (p q : Pos) (ba bb : BBox) :
  well_formed a -> well_formed b -> precedes a b ->
  end_position a = Some p -> start_position b = Some q ->
  end_bbox a = Some ba -> start_bbox b = Some bb ->
  (_get_bbox_size ba =? 0)%float = true -> (_get_bbox_size bb =? 0)%float = true ->
  exists s : Z, start_frame b = Fin s /\
    (s - end_frame a <= max_frame_gap cfg ->
       merge_decision cfg ida a idb b = Raise ZeroDivisionError /\
       merge_decision cfg idb b ida a = Raise ZeroDivisionError /\
       forall fuel segments rest m,
         segments !! idb = Some b ->
         inner_loop fuel cfg segments ida a (idb :: rest) m
           = Raise ZeroDivisionError) /\
    (max_frame_gap cfg < s - end_frame a ->
       merge_decision cfg ida a idb b = Ok None /\
       merge_decision cfg idb b ida a = Ok None).
Proof.
  intros (sa & Hsa & Hlea) (sb & Hsb & Hleb) (s & Hs & Hlt) Hp Hq Hba Hbb Ha Hb.
  rewrite Hsb in Hs. injection Hs as <-. exists sb. split; [done |].
  assert (H1 : (end_frame a <? sb) = true) by lia.
  assert (H2 : (end_frame b <? sa) = false) by lia.
  split.
  - intros Hgap. apply Z.leb_le in Hgap.
    assert (Hd1 : merge_decision cfg ida a idb b = Raise ZeroDivisionError).
    { unfold merge_decision. rewrite Hsb. cbn. rewrite H1, Hgap, Hp, Hq, Hba, Hbb.
      by rewrite similar_zero_area. }
    split_and!; [done | |].
    + unfold merge_decision. rewrite Hsa, Hsb. cbn. rewrite H2, H1, Hgap, Hp, Hq, Hba, Hbb.
      by rewrite similar_zero_area.
    + intros fuel segments rest m Hlook. cbn. rewrite Hlook. cbn. by rewrite Hd1.
  - intros Hgap. apply Z.leb_gt in Hgap. split.
    + unfold merge_decision. rewrite Hsb. cbn. by rewrite H1, Hgap.
    + unfold merge_decision. rewrite Hsa, Hsb. cbn. by rewrite H2, H1, Hgap.
Qed.

Lemma build_empty : _build_track_segments [] = ∅.
Proof. reflexivity. Qed.

Lemma sorted_keys_empty : sorted_keys ∅ = [].
Proof. reflexivity. Qed.

Lemma expanded_empty fuel : expanded fuel ∅ = Ok ∅.
Proof. unfold expanded. by rewrite map_to_list_empty. Qed.

(** C7, as amended.  On an empty sequence the resolver returns the
    empty merge map and [stitch_tracks] returns the empty sequence and
    an unchanged store; [get_statistics] with an empty original
    sequence raises [ZeroDivisionError]. *)
Theorem empty_sequence (fuel : nat) (cfg : Config) (h : heap) :
  _find_merge_candidates fuel cfg (_build_track_segments []) = Ok ∅ /\
  stitch_tracks fuel cfg h [] = Ok (h, []) /\
  forall stitched_results, get_statistics [] stitched_results = Raise ZeroDivisionError.
Proof.
  assert (Hfind : _find_merge_candidates fuel cfg (_build_track_segments []) = Ok ∅).
  { unfold _find_merge_candidates. by rewrite build_empty, sorted_keys_empty. }
  split_and!.
  - done.
  - unfold stitch_tracks. cbn [deref_all map]. rewrite Hfind. cbn.
    unfold _apply_id_mapping. by rewrite expanded_empty.
  - intros stitched_results. unfold get_statistics. by rewrite py_div_zero.
Qed.

(** ** The concrete sequences *)

Lemma build_well_formed results :
  (forall f, f ∈ results -> 1 <= frame f) ->
  all_well_formed (_build_track_segments results).
Proof.
  intros Hpos tid seg Hlook. rewrite build_observations in Hlook.
  destruct (build_inv_all (observations results)) as [_ Hok].
  { intros n t Hin. apply elem_of_observations in Hin as (f & Hf & <- & _).
    by apply Hpos. }
  destruct (Hok tid seg Hlook) as (s & Hs & Hle & _). by exists s.
Qed.

Ltac frames_from_one :=
  let f := fresh "f" in
  let Hf := fresh "Hf" in
  intros f Hf;
  repeat (apply elem_of_cons in Hf as [-> | Hf]; [cbn; lia |]);
  by apply elem_of_nil in Hf.

Lemma two_fragments_frames : forall f, f ∈ two_fragments -> 1 <= frame f.
Proof. frames_from_one. Qed.

Lemma three_fragments_frames : forall f, f ∈ three_fragments -> 1 <= frame f.
Proof. frames_from_one. Qed.

(** The scenario of the specification: the decision for the two
    fragments, and the merge map of the sequence. *)
Example two_fragments_merge :
  merge_decision run_config 1 fragment_one 2 fragment_two = Ok (Some (1, 2)).
Proof. vm_compute. reflexivity. Qed.

Example two_fragments_map :
  _find_merge_candidates 10 run_config (_build_track_segments two_fragments)
  = Ok {[2 := 1]}.
Proof. vm_compute. reflexivity. Qed.

(** On [crowded], track 1 ends before track 3 starts and the two pass
    the three tests, yet the merge map returned holds [3 -> 2]: the
    later pair (2, 3) has overwritten the entry.  On [diagonal], the
    frame gap is 2, the two boxes are equal and the distance between
    the two positions, the square root of 2, is below the threshold,
    yet the merge map is empty: the distance computed in [float64] is
    the threshold itself. *)
Lemma overwritten_and_rounded_marks :
  (exists seg_1 seg_3,
     _build_track_segments crowded !! 1 = Some seg_1 /\
     _build_track_segments crowded !! 3 = Some seg_3 /\
     precedes seg_1 seg_3 /\ mergeable run_config seg_1 seg_3 true) /\
  _find_merge_candidates 10 run_config (_build_track_segments crowded)
    = Ok {[ 3 := 2 ]} /\
  (exists seg_1 seg_2,
     _build_track_segments diagonal !! 1 = Some seg_1 /\
     _build_track_segments diagonal !! 2 = Some seg_2 /\
     precedes seg_1 seg_2 /\
     start_frame seg_2 = Fin 3 /\ 3 - end_frame seg_1 <= max_frame_gap tight_config /\
     end_position seg_1 = Some (FloatPos 0 0) /\
     start_position seg_2 = Some (FloatPos 1 1) /\
     end_bbox seg_1 = Some (box 1 1) /\ start_bbox seg_2 = Some (box 1 1)) /\
  ((exact 1 - exact 0) * (exact 1 - exact 0) + (exact 1 - exact 0) * (exact 1 - exact 0)
   < exact (position_threshold tight_config) * exact (position_threshold tight_config))%Q /\
  (0 < exact (position_threshold tight_config))%Q /\
  _find_merge_candidates 10 tight_config (_build_track_segments diagonal) = Ok ∅.
Proof.
  split_and!.
  - eexists _, _. split_and!; [vm_compute; reflexivity | vm_compute; reflexivity | |].
    + exists 12. split; [reflexivity | cbn; lia].
    + exists 12, (FloatPos 0 0), (FloatPos 0 0), (box 1 1), (box 1 1).
      split_and!; try reflexivity; [cbn; lia |].
      eexists. split; vm_compute; reflexivity.
  - vm_compute. reflexivity.
  - eexists _, _. split_and!; [vm_compute; reflexivity | vm_compute; reflexivity | | ..];
      try reflexivity; [| cbn; lia].
    exists 3. split; [reflexivity | cbn; lia].
  - vm_compute. reflexivity.
  - vm_compute. reflexivity.
  - vm_compute. reflexivity.
Qed.

(** C2.  The comment at the insertion, "avoid creating chains", states
    the claim, and the code does not keep it: on [three_fragments] with
    a frame gap of at most 3 the merge map returned holds [2 -> 1] and
    [1 -> 3], so the value 1, stored for key 2, is itself a key. *)
Lemma chain_in_merge_map :
  exists merge_map,
    _find_merge_candidates 10 short_gap_config
      (_build_track_segments three_fragments) = Ok merge_map /\
    merge_map !! 2 = Some 1 /\ merge_map !! 1 = Some 3.
Proof.
  exists (<[1 := 3]> {[2 := 1]}). split_and!; vm_compute; reflexivity.
Qed.

(** The second iteration on [three_fragments], for the pair (1, 3). *)
Lemma inserted_master_is_terminal_witness :
  let segments := _build_track_segments three_fragments in
  all_well_formed segments /\
  (size segments <= 10)%nat /\
  id_pairs (sorted_keys segments) = [(1, 2)] ++ (1, 3) :: [(2, 3)] /\
  merge_pairs 10 short_gap_config segments [(1, 2)] ∅ = Ok {[2 := 1]} /\
  merge_pair 10 short_gap_config segments {[2 := 1]} (1, 3)
    = Ok (<[1 := 3]> {[2 := 1]}) /\
  (<[1 := 3]> {[2 := 1]} = ({[2 := 1]} : gmap Z Z) \/
   exists slave final_master,
     <[1 := 3]> {[2 := 1]} = <[slave := final_master]> ({[2 := 1]} : gmap Z Z) /\
     (<[1 := 3]> {[2 := 1]} : gmap Z Z) !! final_master = None).
Proof.
  intros segments.
  assert (H1 : all_well_formed segments)
    by exact (build_well_formed three_fragments three_fragments_frames).
  assert (H2 : (size segments <= 10)%nat) by (vm_compute; lia).
  assert (H3 : id_pairs (sorted_keys segments) = [(1, 2)] ++ (1, 3) :: [(2, 3)])
    by (vm_compute; reflexivity).
  assert (H4 : merge_pairs 10 short_gap_config segments [(1, 2)] ∅ = Ok {[2 := 1]})
    by (vm_compute; reflexivity).
  assert (H5 : merge_pair 10 short_gap_config segments {[2 := 1]} (1, 3)
               = Ok (<[1 := 3]> {[2 := 1]}))
    by (vm_compute; reflexivity).
  split_and!; [exact H1 | exact H2 | exact H3 | exact H4 | exact H5 |].
  exact (inserted_master_is_terminal 10 short_gap_config segments
           [(1, 2)] [(2, 3)] (1, 3) {[2 := 1]} (<[1 := 3]> {[2 := 1]})
           H1 H2 H3 H4 H5).
Defined.

(** [two_fragments] satisfies the hypotheses of [merge_map_forest]. *)
Lemma merge_map_forest_witness :
  let segments := _build_track_segments two_fragments in
  all_well_formed segments /\ (size segments <= 10)%nat /\
  _find_merge_candidates 10 run_config segments ≠ OutOfFuel /\
  forall merge_map,
    _find_merge_candidates 10 run_config segments = Ok merge_map ->
    forall tid, merge_map !! tid ≠ Some tid.
Proof.
  intros segments.
  assert (H1 : all_well_formed segments)
    by exact (build_well_formed two_fragments two_fragments_frames).
  assert (H2 : (size segments <= 10)%nat) by (vm_compute; lia).
  destruct (merge_map_forest 10 run_config two_fragments H1 H2) as [Hnf Hall].
  split_and!; [exact H1 | exact H2 | exact Hnf |].
  intros merge_map Hm. exact (proj1 (proj2 (Hall merge_map Hm))).
Defined.

(** Track 7 crosses in frame 2; a step back across the line in frame 7
    is not counted, one in frame 32 is. *)
Lemma debounce_witness :
  process_track 2 doorway_seen (right_of_line 2) = (doorway_crossed, Some crossing) /\
  steps doorway_crossed doorway_crossed /\
  quiet 7 doorway_crossed doorway_crossed /\
  snd (process_track (2 + 5) doorway_crossed (left_of_line 7)) = None /\
  exists e', snd (process_track (2 + 30) doorway_crossed (left_of_line 32)) = Some e' /\
             ev_frame e' = 2 + 30 /\ ev_track_id e' = 7.
Proof.
  assert (H1 : process_track 2 doorway_seen (right_of_line 2)
               = (doorway_crossed, Some crossing)) by (vm_compute; reflexivity).
  assert (H2 : steps doorway_crossed doorway_crossed) by constructor.
  assert (H3 : quiet 7 doorway_crossed doorway_crossed) by constructor.
  destruct (debounce doorway_seen 2 (right_of_line 2) doorway_crossed crossing H1)
    as [Hcool Harmed].
  split_and!; [exact H1 | exact H2 | exact H3 | |].
  - refine (Hcool doorway_crossed H2 5 (left_of_line 7) eq_refl _).
    vm_compute. by split.
  - refine (proj2 (Harmed doorway_crossed H3) 30 (left_of_line 32) eq_refl _
              [(1, FloatPos (-10) 50); (2, FloatPos 10 50)] 2 (FloatPos 10 50) _ _ _).
    + vm_compute. discriminate.
    + vm_compute. reflexivity.
    + reflexivity.
    + vm_compute. reflexivity.
Defined.

(** Two tracks with boxes of zero area, two frames apart: the decision
    and the whole stitching pass raise [ZeroDivisionError]. *)
Lemma zero_area_stitch_raises :
  precedes flat_one flat_two /\
  (_get_bbox_size (box 0 0) =? 0)%float = true /\
  merge_decision run_config 1 flat_one 2 flat_two = Raise ZeroDivisionError /\
  stitch_tracks 10 run_config (fst (alloc [] flat_boxes)) (snd (alloc [] flat_boxes))
  = Raise ZeroDivisionError.
Proof.
  split_and!.
  - exists 3. split; [reflexivity | cbn; lia].
  - vm_compute. reflexivity.
  - vm_compute. reflexivity.
  - vm_compute. reflexivity.
Qed.

(** The segments of [flat_boxes] satisfy the hypotheses of
    [zero_area_pair_raises]. *)
Lemma zero_area_pair_raises_witness :
  well_formed flat_one /\ well_formed flat_two /\ precedes flat_one flat_two /\
  (_get_bbox_size (box 0 0) =? 0)%float = true /\
  exists s : Z, start_frame flat_two = Fin s /\
    (s - end_frame flat_one <= max_frame_gap run_config ->
       merge_decision run_config 1 flat_one 2 flat_two = Raise ZeroDivisionError).
Proof.
  assert (H1 : well_formed flat_one) by (exists 1; split; [reflexivity | cbn; lia]).
  assert (H2 : well_formed flat_two) by (exists 3; split; [reflexivity | cbn; lia]).
  assert (H3 : precedes flat_one flat_two) by (exists 3; split; [reflexivity | cbn; lia]).
  assert (H4 : (_get_bbox_size (box 0 0) =? 0)%float = true) by (vm_compute; reflexivity).
  split_and!; [exact H1 | exact H2 | exact H3 | exact H4 |].
  destruct (zero_area_pair_raises run_config 1 2 flat_one flat_two
              (FloatPos 0 0) (FloatPos 0 0) (box 0 0) (box 0 0)
              H1 H2 H3 eq_refl eq_refl eq_refl eq_refl H4 H4)
    as (s & Hs & Hin & _).
  exists s. split; [exact Hs |]. intros Hgap. exact (proj1 (Hin Hgap)).
Defined.

(** [get_statistics] on two empty sequences raises
    [ZeroDivisionError]; it returns no statistics. *)
Lemma empty_statistics_raise :
  get_statistics [] [] = Raise ZeroDivisionError /\
  forall st, get_statistics [] [] ≠ Ok st.
Proof. split; [vm_compute; reflexivity | intros st; vm_compute; discriminate]. Qed.

(** ** Aliasing in the remapper *)

(** The frames returned by the remapper hold the references of the
    frames it was given. *)
Lemma relabel_frames_snd em st results :
  snd (foldl (relabel_frame em) st results) = snd st ++ results.
Proof.
  revert st. induction results as [|f fs IH]; intros st; cbn.
  - by rewrite app_nil_r.
  - rewrite IH. cbn. rewrite <- app_assoc. by destruct f.
Qed.

Lemma apply_id_mapping_shares fuel h results merge_map h' stitched :
  _apply_id_mapping fuel h results merge_map = Ok (h', stitched) ->
  stitched = results.
Proof.
  unfold _apply_id_mapping.
  destruct (expanded fuel merge_map) as [em | |]; cbn; [| done | done].
  intros [= Hfold].
  pose proof (relabel_frames_snd em (h, []) results) as Hsnd.
  by rewrite Hfold in Hsnd.
Qed.

(** C8.  On the two-fragment sequence [stitch_tracks] returns a list of
    the very frames it was given, and afterwards the sequence the
    caller passed in reads track id 1 where it read 2 before; the
    statistics of the original against the stitched sequence then
    report no merged id. *)
Theorem stitch_tracks_rewrites_caller_records :
  let h := fst (alloc [] two_fragments) in
  let original := snd (alloc [] two_fragments) in
  exists h' stitched,
    stitch_tracks 10 run_config h original = Ok (h', stitched) /\
    map track_id (concat (map tracks (deref_all h original))) = [1; 1; 2; 2] /\
    map track_id (concat (map tracks (deref_all h' original))) = [1; 1; 1; 1] /\
    stitched = original /\
    get_statistics (deref_all h' original) (deref_all h' stitched)
    = Ok {| original_unique_ids := 1; stitched_unique_ids := 1;
            ids_merged := 0; reduction_percentage := 0 # 1 |}.
Proof.
  intros h original.
  destruct (stitch_tracks 10 run_config h original) as [[h' stitched] | |] eqn:Hst;
    [| by vm_compute in Hst | by vm_compute in Hst].
  exists h', stitched. vm_compute in Hst. injection Hst as <- <-.
  split_and!; vm_compute; reflexivity.
Qed.

(** [two_fragments] satisfies the hypothesis of
    [build_track_segments_sound]. *)
Lemma build_track_segments_sound_witness :
  (forall f, f ∈ two_fragments -> 1 <= frame f) /\
  forall tid seg, _build_track_segments two_fragments !! tid = Some seg ->
    exists s : Z, start_frame seg = Fin s /\ s <= end_frame seg.
Proof.
  split; [exact two_fragments_frames |].
  intros tid seg Hlook.
  destruct (proj2 (build_track_segments_sound two_fragments two_fragments_frames)
              tid seg Hlook) as (s & Hs & Hle & _).
  exists s. by split.
Defined.

(** * Further properties *)

Import Notions Tracker Visualizer Scenes.

(** ** Histories, returned events and spacing *)

Lemma track_all_results self results :
  process_all self results = track_all self (observations results).
Proof.
  unfold process_all, track_all, observations. revert self.
  induction results as [|f fs IH]; intros self; [done |].
  cbn [foldl map concat]. rewrite foldl_app, IH. f_equal.
  unfold process_frame. generalize (@nil Event) as acc.
  generalize (tracks f) as ts. intros ts. revert self.
  induction ts as [|t ts IHt]; intros self acc; [done |].
  cbn [foldl map fst snd]. unfold process_step at 2. cbn [fst snd].
  destruct (process_track (frame f) self t) as [self' ev]. apply IHt.
Qed.

Lemma deque_append_lastn {A} (n : nat) (l : list A) (x : A) :
  deque_append n (lastn n l) x = lastn n (l ++ [x]).
Proof.
  unfold deque_append, lastn.
  rewrite <- (drop_app_le l [x]) by lia.
  rewrite drop_drop. f_equal.
  rewrite length_drop, length_app. simpl length. lia.
Qed.

Lemma lastn_length {A} (n : nat) (l : list A) :
  length (lastn n l) = Nat.min (length l) n.
Proof. unfold lastn. rewrite length_drop. lia. Qed.

Lemma samples_snoc tid obs o :
  samples tid (obs ++ [o]) =
  samples tid obs ++ (if Z.eqb (track_id (snd o)) tid then [(fst o, center (snd o))] else []).
Proof.
  unfold samples. rewrite List.filter_app, map_app. cbn.
  by destruct (Z.eqb (track_id (snd o)) tid).
Qed.

Lemma history_inv_step obs self frame_num track :
  history_inv obs self ->
  history_inv (obs ++ [(frame_num, track)])
              (fst (process_track frame_num self track)) /\
  history_length (fst (process_track frame_num self track)) = history_length self.
Proof.
  intros Hinv.
  destruct (process_track frame_num self track) as [self' oev] eqn:Hstep.
  apply process_track_inv in Hstep as (_ & _ & _ & Hhl & Hth & _). cbn [fst].
  split; [| done]. intros tid. rewrite Hth, Hhl, samples_snoc. cbn [fst snd].
  destruct (Z.eqb_spec (track_id track) tid) as [<- | Hne].
  - rewrite lookup_insert_eq. unfold appended. rewrite (Hinv (track_id track)).
    assert (Hne : forall s : list (Z * Pos),
               match s ++ [(frame_num, center track)] with
               | [] => None
               | _ :: _ => Some (lastn (history_length self)
                                       (s ++ [(frame_num, center track)]))
               end = Some (lastn (history_length self)
                                 (s ++ [(frame_num, center track)]))).
    { intros s. destruct (s ++ [(frame_num, center track)]) eqn:Happ; [| done].
      by apply app_eq_nil in Happ as [_ ?]. }
    destruct (samples (track_id track) obs) as [|x s'] eqn:Hs.
    + change (default [] None) with (lastn (history_length self) (@nil (Z * Pos))).
      by rewrite deque_append_lastn.
    + change (default [] (Some ?l)) with l.
      rewrite deque_append_lastn. symmetry. apply (Hne (x :: s')).
  - rewrite lookup_insert_ne by done. rewrite app_nil_r. apply Hinv.
Qed.

Lemma history_inv_all obs pre self :
  history_inv pre self ->
  history_inv (pre ++ obs) (track_all self obs) /\
  history_length (track_all self obs) = history_length self.
Proof.
  revert pre self. induction obs as [|[n t] obs IH]; intros pre self Hinv.
  - by rewrite app_nil_r.
  - cbn [track_all foldl fst snd].
    destruct (history_inv_step pre self n t Hinv) as [Hinv' Hhl].
    destruct (IH (pre ++ [(n, t)]) _ Hinv') as [Hall Hhl'].
    rewrite <- app_assoc in Hall. split; [exact Hall |].
    unfold track_all in Hhl'. by rewrite Hhl'.
Qed.

(** X3.  After a counter started fresh has processed a sequence, the
    history of a track is the last [position_history_length] of its
    samples (frame number and centre, in the order processed); a track
    never seen has no history, and no history is longer than
    [position_history_length]. *)
Theorem history_holds_recent_samples
    (ls le : Pos) (mf : Z) (hl : nat) (results : list FrameData) (tid : Z) :
  let self := process_all (init ls le mf hl) results in
  let s := samples tid (observations results) in
  track_history self !! tid
    = (if decide (s = []) then None else Some (lastn hl s)) /\
  forall h, track_history self !! tid = Some h -> (length h <= hl)%nat.
Proof.
  intros self s. unfold self. rewrite track_all_results.
  destruct (history_inv_all (observations results) [] (init ls le mf hl)) as [Hinv Hhl].
  { intros t. cbn. apply lookup_empty. }
  cbn [app] in Hinv. specialize (Hinv tid). rewrite Hhl in Hinv.
  change (history_length (init ls le mf hl)) with hl in Hinv.
  fold s in Hinv. rewrite Hinv.
  split.
  - destruct s; by case_decide.
  - intros h. destruct s as [|x s']; [done |]. intros [= <-].
    rewrite lastn_length. lia.
Qed.

Lemma process_step_appends frame_num st track :
  let st' := process_step frame_num st track in
  exists new,
    events (fst st') = events (fst st) ++ new /\
    snd st' = snd st ++ new /\
    forall e, e ∈ new ->
      ev_frame e = frame_num /\ ev_track_id e = track_id track /\
      ev_position e = center track.
Proof.
  unfold process_step.
  destruct (process_track frame_num (fst st) track) as [self' oev] eqn:Hstep.
  apply process_track_inv in Hstep as (_ & _ & _ & _ & _ & Hev). cbn [fst snd].
  destruct oev as [e|].
  - destruct Hev as (_ & _ & _ & Hf & Ht & Hp & _ & _ & _ & _ & Hevs & _).
    exists [e]. split_and!; [done | done |].
    intros e' He'. apply list_elem_of_singleton in He'. by subst e'.
  - destruct Hev as (_ & _ & _ & Hevs). exists []. rewrite !app_nil_r.
    split_and!; [done | done |]. intros e' He'. by apply elem_of_nil in He'.
Qed.

(** X4.  [process_frame] returns exactly the events it has appended
    to the log in this call, in the same order; each of them carries
    the frame number of the call and the id and centre of one of the
    tracks passed in. *)
Theorem process_frame_returns_appended
    (self : LineCrossingCounter) (frame_num : Z) (tracks : list Track) :
  let self' := fst (process_frame self frame_num tracks) in
  let frame_events := snd (process_frame self frame_num tracks) in
  events self' = events self ++ frame_events /\
  forall e, e ∈ frame_events ->
    ev_frame e = frame_num /\
    exists track, track ∈ tracks /\
      ev_track_id e = track_id track /\ ev_position e = center track.
Proof.
  cbv zeta. unfold process_frame.
  assert (Hgen : forall ts st,
             let st' := foldl (process_step frame_num) st ts in
             exists new,
               events (fst st') = events (fst st) ++ new /\
               snd st' = snd st ++ new /\
               forall e, e ∈ new ->
                 ev_frame e = frame_num /\
                 exists track, track ∈ ts /\
                   ev_track_id e = track_id track /\ ev_position e = center track).
  { induction ts as [|t ts IH]; intros st; cbn [foldl].
    - exists []. rewrite !app_nil_r. split_and!; [done | done |].
      intros e He. by apply elem_of_nil in He.
    - destruct (process_step_appends frame_num st t) as (new1 & He1 & Hs1 & Hn1).
      destruct (IH (process_step frame_num st t)) as (new2 & He2 & Hs2 & Hn2).
      exists (new1 ++ new2). rewrite He2, Hs2, He1, Hs1, <- !app_assoc.
      split_and!; [done | done |].
      intros e He. apply elem_of_app in He as [He | He].
      + destruct (Hn1 e He) as (Hf & Ht & Hp). split; [done |].
        exists t. split; [left | done].
      + destruct (Hn2 e He) as (Hf & t' & Hin & Ht & Hp). split; [done |].
        exists t'. split; [by right | done]. }
  destruct (Hgen tracks (self, [])) as (new & He & Hs & Hn).
  cbn [fst snd app] in He, Hs. rewrite Hs. split; [exact He | exact Hn].
Qed.

Lemma spacing_step self frame_num track :
  0 <= min_frames_between self ->
  spaced (min_frames_between self) (events self) ->
  last_crossing_inv (min_frames_between self) self ->
  let self' := fst (process_track frame_num self track) in
  min_frames_between self' = min_frames_between self /\
  spaced (min_frames_between self) (events self') /\
  last_crossing_inv (min_frames_between self) self'.
Proof.
  intros Hmin Hsp Hlast.
  destruct (process_track frame_num self track) as [self' oev] eqn:Hstep.
  apply process_track_inv in Hstep as (_ & _ & Hmf & _ & _ & Hev). cbn [fst].
  split; [done |].
  destruct oev as [e|].
  - destruct Hev as (_ & Hcool & _ & Hf & Ht & _ & _ & _ & _ & _ & Hevs & Hlcf).
    assert (Hold : forall e0, e0 ∈ events self -> ev_track_id e0 = track_id track ->
                              min_frames_between self <= frame_num - ev_frame e0).
    { intros e0 He0 Hid. destruct (Hlast e0 He0) as (L & HL & Hor).
      unfold cooling_down in Hcool. rewrite <- Hid, HL in Hcool.
      apply Z.ltb_ge in Hcool. lia. }
    split.
    + rewrite Hevs. intros i j e1 e2 Hij H1 H2 Hid.
      destruct (decide (j < length (events self))%nat) as [Hj | Hj].
      * rewrite lookup_app_l in H1, H2 by lia. exact (Hsp i j e1 e2 Hij H1 H2 Hid).
      * apply lookup_lt_Some in H2 as Hlen. rewrite length_app in Hlen.
        cbn [length] in Hlen. assert (j = length (events self)) as -> by lia.
        rewrite list_lookup_middle in H2 by done. injection H2 as <-.
        rewrite lookup_app_l in H1 by lia.
        rewrite Hf. apply Hold; [| congruence].
        apply list_elem_of_lookup. eauto.
    + intros e0 He0. rewrite Hevs in He0. rewrite Hlcf.
      apply elem_of_app in He0 as [He0 | He0].
      * destruct (decide (ev_track_id e0 = track_id track)) as [Hid | Hid].
        -- rewrite Hid, lookup_insert_eq. exists frame_num. split; [done |].
           right. by apply Hold.
        -- rewrite lookup_insert_ne by done. by apply Hlast.
      * apply list_elem_of_singleton in He0. subst e0.
        rewrite Ht, lookup_insert_eq. exists frame_num. split; [done |]. left. done.
  - destruct Hev as (Hlcf & _ & _ & Hevs). split; [by rewrite Hevs |].
    intros e0 He0. rewrite Hevs in He0. rewrite Hlcf. by apply Hlast.
Qed.

Lemma spacing_all obs self :
  0 <= min_frames_between self ->
  spaced (min_frames_between self) (events self) ->
  last_crossing_inv (min_frames_between self) self ->
  spaced (min_frames_between self) (events (track_all self obs)).
Proof.
  revert self. induction obs as [|[n t] obs IH]; intros self Hmin Hsp Hlast; [done |].
  cbn [track_all foldl fst snd].
  destruct (spacing_step self n t Hmin Hsp Hlast) as (Hmf & Hsp' & Hlast').
  rewrite <- Hmf in Hsp', Hlast' |- *. apply IH; [lia | done | done].
Qed.

(** X5.  With a non-negative [min_frames_between_crossings], any two
    events of one track in the log of a counter started fresh lie at
    least that many frames apart, the later one in the log at the later
    frame. *)
Theorem events_of_a_track_are_spaced
    (ls le : Pos) (mf : Z) (hl : nat) (results : list FrameData) :
  0 <= mf ->
  spaced mf (events (process_all (init ls le mf hl) results)).
Proof.
  intros Hmf. rewrite track_all_results.
  apply (spacing_all (observations results) (init ls le mf hl)).
  - done.
  - intros i j e1 e2 _ H1. cbn in H1. by rewrite lookup_nil in H1.
  - intros e He. cbn in He. by apply elem_of_nil in He.
Qed.

Lemma short_history_silent self frame_num track :
  (history_length self <= 1)%nat ->
  snd (process_track frame_num self track) = None.
Proof.
  intros Hhl.
  destruct (process_track frame_num self track) as [self' [e|]] eqn:Hstep; [| done].
  apply process_track_inv in Hstep as (_ & _ & _ & _ & _ & Hlen & _).
  unfold appended in Hlen. rewrite deque_append_length in Hlen. lia.
Qed.

(** X6.  A counter created with a [position_history_length] of 0 or
    1 never counts: whatever the sequence, its log stays empty and both
    totals stay 0. *)
Theorem short_history_never_counts
    (ls le : Pos) (mf : Z) (hl : nat) (results : list FrameData) :
  (hl <= 1)%nat ->
  let self := process_all (init ls le mf hl) results in
  events self = [] /\ count_in self = 0 /\ count_out self = 0.
Proof.
  intros Hhl self. unfold self. rewrite track_all_results.
  assert (Hgen : forall obs s,
             (history_length s <= 1)%nat ->
             events (track_all s obs) = events s /\
             count_in (track_all s obs) = count_in s /\
             count_out (track_all s obs) = count_out s).
  { induction obs as [|[n t] obs IH]; intros s Hs; [done |].
    cbn [track_all foldl fst snd].
    pose proof (short_history_silent s n t Hs) as Hnone.
    destruct (process_track n s t) as [s' oev] eqn:Hstep. cbn in Hnone. subst oev.
    apply process_track_inv in Hstep as (_ & _ & _ & Hhl' & _ & _ & Hci & Hco & Hevs).
    cbn [fst]. rewrite <- Hci, <- Hco, <- Hevs. apply IH. lia. }
  by apply (Hgen (observations results) (init ls le mf hl)).
Qed.

Lemma events_from_all obs pre self :
  events_from pre (events self) ->
  events_from (pre ++ obs) (events (track_all self obs)).
Proof.
  revert pre self. induction obs as [|[n t] obs IH]; intros pre self Hinv.
  - by rewrite app_nil_r.
  - cbn [track_all foldl fst snd].
    replace (pre ++ (n, t) :: obs) with ((pre ++ [(n, t)]) ++ obs)
      by (by rewrite <- app_assoc).
    apply IH.
    destruct (process_track n self t) as [self' oev] eqn:Hstep.
    apply process_track_inv in Hstep as (_ & _ & _ & _ & _ & Hev). cbn [fst].
    destruct oev as [e|].
    + destruct Hev as (_ & _ & _ & Hf & Ht & Hp & _ & _ & _ & _ & Hevs & _).
      rewrite Hevs. intros e0 He0. apply elem_of_app in He0 as [He0 | He0].
      * destruct (Hinv e0 He0) as (n0 & t0 & Hin & Hrest).
        exists n0, t0. split; [apply elem_of_app; by left | done].
      * apply list_elem_of_singleton in He0. subst e0.
        exists n, t. split; [| done].
        apply elem_of_app. right. by apply list_elem_of_singleton.
    + destruct Hev as (_ & _ & _ & Hevs). rewrite Hevs.
      intros e0 He0. destruct (Hinv e0 He0) as (n0 & t0 & Hin & Hrest).
      exists n0, t0. split; [apply elem_of_app; by left | done].
Qed.

(** ** The extent of a segment *)

Lemma frames_of_snoc tid obs o :
  frames_of tid (obs ++ [o]) =
  frames_of tid obs ++ (if Z.eqb (track_id (snd o)) tid then [fst o] else []).
Proof.
  unfold frames_of. rewrite List.filter_app, map_app. cbn.
  by destruct (Z.eqb (track_id (snd o)) tid).
Qed.

Ltac six := split; [| split; [| split; [| split; [| split]]]].

Lemma extent_step fl seg n t :
  extent_ok fl seg ->
  extent_ok (fl ++ [n]) (update_end n t (update_start n t (append_frame n seg))).
Proof.
  intros [Hfr Hrest]. destruct fl as [|m fl].
  - subst seg. unfold update_end, update_start, append_frame. cbn.
    split; [by destruct (n >? 0) |].
    exists n. destruct (n >? 0) eqn:Hn; cbn; six.
    + done.
    + by apply list_elem_of_singleton.
    + intros k Hk. apply list_elem_of_singleton in Hk. lia.
    + by eauto.
    + by eauto.
    + left. split_and!; [lia | by apply list_elem_of_singleton | by eauto | by eauto].
    + done.
    + by apply list_elem_of_singleton.
    + intros k Hk. apply list_elem_of_singleton in Hk. lia.
    + by eauto.
    + by eauto.
    + by right.
  - destruct Hrest as (s & Hs & Hin & Hall & Hsp & Hsb & Hend).
    destruct seg as [sf ef sp ep sb eb fr]. cbn in *. subst sf fr.
    unfold update_end, update_start, append_frame. cbn.
    assert (Hsn : forall k, k ∈ (m :: fl) ++ [n] -> k ∈ m :: fl \/ k = n).
    { intros k Hk. apply elem_of_app in Hk as [Hk | Hk]; [by left |].
      right. by apply list_elem_of_singleton in Hk. }
    assert (Hold : forall k, k ∈ m :: fl -> k ∈ (m :: fl) ++ [n]).
    { intros k Hk. apply elem_of_app. by left. }
    assert (Hnew : n ∈ (m :: fl) ++ [n]).
    { apply elem_of_app. right. by apply list_elem_of_singleton. }
    pose proof (Hall s Hin) as Hse.
    assert (H0ef : 0 <= ef) by (destruct Hend as [? | [? ?]]; lia).
    destruct (n <? s) eqn:Hlt; cbn.
    + apply Z.ltb_lt in Hlt.
      assert ((n >? ef) = false) as -> by lia. cbn.
      split; [done |]. exists n. cbn. six.
      * done.
      * exact Hnew.
      * intros k Hk. apply Hsn in Hk as [Hk | ->]; [specialize (Hall k Hk) |]; lia.
      * by eauto.
      * by eauto.
      * destruct Hend as [(H0 & He & Hp & Hb) | Hz]; [left | by right].
        split_and!; [done | by apply Hold | done | done].
    + apply Z.ltb_ge in Hlt. destruct (n >? ef) eqn:Hgt; cbn.
      * assert (ef < n) by lia.
        split; [done |]. exists s. cbn. six.
        -- done.
        -- by apply Hold.
        -- intros k Hk. apply Hsn in Hk as [Hk | ->]; [specialize (Hall k Hk) |]; lia.
        -- done.
        -- done.
        -- left. split_and!; [lia | exact Hnew | by eauto | by eauto].
      * assert (n <= ef) by lia.
        split; [done |]. exists s. cbn. six.
        -- done.
        -- by apply Hold.
        -- intros k Hk. apply Hsn in Hk as [Hk | ->]; [specialize (Hall k Hk) |]; lia.
        -- done.
        -- done.
        -- destruct Hend as [(H0 & He & Hp & Hb) | Hz]; [left | by right].
           split_and!; [done | by apply Hold | done | done].
Qed.

Lemma extents_step obs segments n t :
  extents_inv obs segments ->
  extents_inv (obs ++ [(n, t)]) (observe n segments t).
Proof.
  intros Hinv tid. unfold observe. rewrite frames_of_snoc. cbn [fst snd].
  destruct (Z.eqb_spec (track_id t) tid) as [<- | Hne].
  - rewrite lookup_insert_eq. split.
    { intros Hnil. by apply app_eq_nil in Hnil as [_ ?]. }
    apply extent_step. specialize (Hinv (track_id t)).
    destruct (segments !! track_id t) as [seg|]; cbn [default].
    + by destruct Hinv.
    + rewrite Hinv. by split.
  - rewrite lookup_insert_ne by done. rewrite app_nil_r. apply Hinv.
Qed.

Lemma extents_all obs : extents_inv obs (observe_all ∅ obs).
Proof.
  induction obs as [|[n t] obs IH] using rev_ind.
  - intros tid. cbn. by rewrite lookup_empty.
  - unfold observe_all. rewrite foldl_app. cbn. by apply extents_step.
Qed.

(** X7.  Whatever the frame numbers are, the segment built for an id
    lists the frame numbers of its detections in the order of the
    sequence; [start_frame] is one of them and the least; [end_frame]
    is at least each of them, and either it is one of them, positive,
    with the end position set, or it is still 0 with no end position
    and no end box. *)
Theorem segment_extents (results : list FrameData) (tid : Z) (seg : Segment) :
  _build_track_segments results !! tid = Some seg ->
  let fl := frames_of tid (observations results) in
  frames seg = fl /\
  exists s : Z,
    start_frame seg = Fin s /\ s ∈ fl /\
    (forall n, n ∈ fl -> s <= n <= end_frame seg) /\
    is_Some (start_position seg) /\
    ((0 < end_frame seg /\ end_frame seg ∈ fl /\ is_Some (end_position seg)) \/
     (end_frame seg = 0 /\ end_position seg = None /\ end_bbox seg = None)).
Proof.
  intros Hlook fl. rewrite build_observations in Hlook.
  pose proof (extents_all (observations results) tid) as Hinv.
  rewrite Hlook in Hinv. fold fl in Hinv. destruct Hinv as [Hne [Hfr Hrest]].
  split; [done |]. destruct fl as [|m fl']; [done |].
  destruct Hrest as (s & Hs & Hin & Hall & Hsp & _ & Hend).
  exists s. split_and!; try done.
  destruct Hend as [(H0 & He & Hp & _) | Hz]; [by left | by right].
Qed.

(** ** The keys and the entries of the merge map *)

Lemma id_pairs_fst ids a b : (a, b) ∈ id_pairs ids -> a ∈ ids /\ b ∈ ids.
Proof.
  induction ids as [|x rest IH]; cbn; [intros H; by apply elem_of_nil in H |].
  rewrite elem_of_app. intros [Hin | Hin].
  - apply list_elem_of_fmap in Hin as (b' & [= -> ->] & Hb).
    split; [left | by right].
  - destruct (IH Hin). split; by right.
Qed.

Lemma id_pairs_sorted ids a b :
  StronglySorted Z.lt ids ->
  (a, b) ∈ id_pairs ids <-> a ∈ ids /\ b ∈ ids /\ a < b.
Proof.
  induction 1 as [|x rest Hss IH Hall]; cbn.
  - split; [intros H; by apply elem_of_nil in H |].
    intros (H & _). by apply elem_of_nil in H.
  - rewrite elem_of_app. rewrite Forall_forall in Hall. split.
    + intros [Hin | Hin].
      * apply list_elem_of_fmap in Hin as (b' & [= -> ->] & Hb).
        split_and!; [left | by right |]. by apply Hall.
      * apply IH in Hin as (Ha & Hb & Hlt). split_and!; [by right | by right | done].
    + intros (Ha & Hb & Hlt).
      apply elem_of_cons in Ha as [-> | Ha], Hb as [-> | Hb].
      * lia.
      * left. apply list_elem_of_fmap. eauto.
      * apply Hall in Ha. lia.
      * right. apply IH. done.
Qed.

Lemma sorted_keys_strict segments : StronglySorted Z.lt (sorted_keys segments).
Proof.
  unfold sorted_keys.
  assert (Hnd : NoDup (merge_sort Z.le (elements (dom segments)))).
  { rewrite merge_sort_Permutation. apply NoDup_elements. }
  assert (Hss : StronglySorted Z.le (merge_sort Z.le (elements (dom segments)))).
  { apply StronglySorted_merge_sort; [intros x y z; lia |].
    intros x y. destruct (Z.le_ge_cases x y); [by left | right; lia]. }
  revert Hnd Hss. generalize (merge_sort Z.le (elements (dom segments))).
  induction l as [|x l IH]; intros Hnd Hss; [constructor |].
  apply NoDup_cons in Hnd as [Hx Hnd]. apply StronglySorted_inv in Hss as [Hss Hall].
  constructor; [by apply IH |].
  rewrite Forall_forall in Hall |- *. intros y Hy.
  assert (x ≠ y) by (by intros ->).
  specialize (Hall y Hy). lia.
Qed.

Lemma sorted_keys_elem segments a :
  a ∈ sorted_keys segments <-> is_Some (segments !! a).
Proof.
  unfold sorted_keys. rewrite merge_sort_Permutation, elem_of_elements.
  apply elem_of_dom.
Qed.

Lemma merge_pair_keys fuel cfg segments m ab m' :
  merge_pair fuel cfg segments m ab = Ok m' ->
  forall k, is_Some (m' !! k) <-> is_Some (m !! k) \/ marks cfg segments ab k.
Proof.
  unfold merge_pair, marks.
  destruct (segments !! ab.1) as [seg_a|]; cbn; [| done].
  destruct (segments !! ab.2) as [seg_b|]; cbn; [| done].
  destruct (merge_decision cfg ab.1 seg_a ab.2 seg_b) as [[[master slave]|] | e |]
    eqn:Hd; cbn; [| | done | done].
  - destruct (_get_master_id fuel master m) as [fm|]; cbn; [| done].
    intros [= <-] k. rewrite lookup_insert_is_Some. split.
    + intros [<- | [_ Hk]]; [right | by left]. by exists seg_a, seg_b, master.
    + intros [Hk | (sa & sb & ms & [= <-] & [= <-] & Hd')].
      * destruct (decide (slave = k)); [by left | by right].
      * rewrite Hd in Hd'. injection Hd' as <- <-. by left.
  - intros [= <-] k. split; [by left |].
    intros [Hk | (sa & sb & ms & [= <-] & [= <-] & Hd')]; [done |].
    rewrite Hd in Hd'. done.
Qed.

Lemma merge_pairs_keys fuel cfg segments pairs m m' :
  merge_pairs fuel cfg segments pairs m = Ok m' ->
  forall k, is_Some (m' !! k) <->
            is_Some (m !! k) \/ exists ab, ab ∈ pairs /\ marks cfg segments ab k.
Proof.
  revert m. induction pairs as [|ab pairs IH]; intros m; cbn.
  - intros [= <-] k. split; [by left |].
    intros [Hk | (ab & Hin & _)]; [done | by apply elem_of_nil in Hin].
  - destruct (merge_pair fuel cfg segments m ab) as [m1 | |] eqn:Hstep; cbn; [| done | done].
    intros Hrest k. rewrite (IH m1 Hrest k), (merge_pair_keys _ _ _ _ _ _ Hstep k).
    split.
    + intros [[Hk | Hm] | (ab' & Hin & Hm)].
      * by left.
      * right. exists ab. split; [left | done].
      * right. exists ab'. split; [by right | done].
    + intros [Hk | (ab' & Hin & Hm)]; [by left; left |].
      apply elem_of_cons in Hin as [-> | Hin]; [left; by right | right; eauto].
Qed.

(** *** The order of the visits *)

Lemma visited_before_irrefl x : ~ visited_before x x.
Proof. unfold visited_before. lia. Qed.

Lemma visited_before_asym x y : visited_before x y -> ~ visited_before y x.
Proof. unfold visited_before. lia. Qed.

Lemma visit_order e e' s :
  e < e' -> e ≠ s -> e' ≠ s -> visited_before (visit e s) (visit e' s).
Proof. unfold visited_before, visit. cbn. lia. Qed.

Lemma id_pairs_in_order ids :
  StronglySorted Z.lt ids -> StronglySorted visited_before (id_pairs ids).
Proof.
  induction 1 as [|x rest Hss IH Hall]; cbn; [constructor |].
  rewrite Forall_forall in Hall. apply StronglySorted_app_2.
  - intros [a b] [a' b'] H1 H2.
    apply list_elem_of_fmap in H1 as (b0 & [= -> ->] & Hb).
    apply id_pairs_fst in H2 as [Ha' _]. left. cbn. by apply Hall.
  - apply (StronglySorted_fmap _ Z.lt); [| done].
    intros y z Hyz. right. by cbn.
  - done.
Qed.

Lemma visited_later pre x post y :
  StronglySorted visited_before (pre ++ x :: post) ->
  y ∈ pre ++ x :: post -> visited_before x y -> y ∈ post.
Proof.
  intros Hss Hin Hlt. apply elem_of_app in Hin as [Hin | Hin].
  - exfalso. apply (visited_before_asym x y Hlt).
    apply (StronglySorted_app_1_elem_of _ _ _ _ _ Hss Hin). left.
  - apply elem_of_cons in Hin as [-> | Hin]; [| done].
    by apply visited_before_irrefl in Hlt.
Qed.

Lemma visited_after pre x post y :
  StronglySorted visited_before (pre ++ x :: post) -> y ∈ post -> visited_before x y.
Proof.
  intros Hss Hin. apply StronglySorted_app_1_r in Hss.
  apply StronglySorted_cons in Hss as [Hall _].
  rewrite Forall_forall in Hall. by apply Hall.
Qed.

(** *** The decision for a visited pair *)

(** For [a < b], the decision for the pair names [master] and [k]
    exactly when the pair is the visit of the two, the segment of
    [master] precedes that of [k], and the two pass the tests. *)
Lemma decision_of_visit cfg (segments : gmap Z Segment) a b seg_a seg_b master k :
  all_well_formed segments -> a < b ->
  segments !! a = Some seg_a -> segments !! b = Some seg_b ->
  merge_decision cfg a seg_a b seg_b = Ok (Some (master, k)) <->
  exists seg_m seg_k,
    (a, b) = visit master k /\
    segments !! master = Some seg_m /\ segments !! k = Some seg_k /\
    precedes seg_m seg_k /\ mergeable cfg seg_m seg_k (bool_decide (master < k)).
Proof.
  intros Hwf Hlt Ha Hb.
  pose proof (Hwf _ _ Ha) as Hwa. pose proof (Hwf _ _ Hb) as Hwb. split.
  - intros Hd.
    destruct (merge_decision_Some _ _ _ _ _ _ _ Hwa Hwb Hd)
      as [(-> & -> & Hpre) | (-> & -> & Hpre)].
    + exists seg_a, seg_b. rewrite bool_decide_eq_true_2 by done.
      split_and!; try done.
      * unfold visit. f_equal; lia.
      * by apply (merge_decision_earlier_first cfg a seg_a b seg_b Hpre).
    + exists seg_b, seg_a. rewrite bool_decide_eq_false_2 by lia.
      split_and!; try done.
      * unfold visit. f_equal; lia.
      * by apply (merge_decision_earlier_second cfg b seg_b a seg_a Hwb Hwa Hpre).
  - intros (seg_m & seg_k & Hv & Hm & Hk & Hpre & Hmg).
    unfold visit in Hv. injection Hv as Hmin Hmax.
    destruct (Z.lt_total master k) as [Hmk | [-> | Hkm]].
    + assert (a = master) as -> by lia. assert (b = k) as -> by lia.
      rewrite Ha in Hm. injection Hm as <-. rewrite Hb in Hk. injection Hk as <-.
      rewrite bool_decide_eq_true_2 in Hmg by done.
      by apply (merge_decision_earlier_first cfg master seg_a k seg_b Hpre).
    + lia.
    + assert (a = k) as -> by lia. assert (b = master) as -> by lia.
      rewrite Ha in Hk. injection Hk as <-. rewrite Hb in Hm. injection Hm as <-.
      rewrite bool_decide_eq_false_2 in Hmg by lia.
      by apply (merge_decision_earlier_second cfg master seg_b k seg_a Hwb Hwa Hpre).
Qed.

Lemma marks_visit cfg (segments : gmap Z Segment) ab k :
  all_well_formed segments -> ab ∈ id_pairs (sorted_keys segments) ->
  marks cfg segments ab k <->
  exists earlier seg_e seg_k,
    ab = visit earlier k /\
    segments !! earlier = Some seg_e /\ segments !! k = Some seg_k /\
    precedes seg_e seg_k /\ mergeable cfg seg_e seg_k (bool_decide (earlier < k)).
Proof.
  intros Hwf Hin. destruct ab as [a b].
  apply (id_pairs_sorted _ _ _ (sorted_keys_strict segments)) in Hin
    as (Ha & Hb & Hlt).
  apply sorted_keys_elem in Ha as [seg_a Ha]. apply sorted_keys_elem in Hb as [seg_b Hb].
  unfold marks. cbn [fst snd]. split.
  - intros (sa & sb & master & Ha' & Hb' & Hd).
    rewrite Ha in Ha'. injection Ha' as <-. rewrite Hb in Hb'. injection Hb' as <-.
    apply (decision_of_visit cfg segments a b seg_a seg_b master k Hwf Hlt Ha Hb) in Hd
      as (seg_m & seg_k & Hd).
    by exists master, seg_m, seg_k.
  - intros (earlier & seg_e & seg_k & Hd). exists seg_a, seg_b, earlier.
    split_and!; [done | done |].
    apply (decision_of_visit cfg segments a b seg_a seg_b earlier k Hwf Hlt Ha Hb).
    by exists seg_e, seg_k.
Qed.

Lemma visit_in_pairs (segments : gmap Z Segment) a b :
  is_Some (segments !! a) -> is_Some (segments !! b) -> a ≠ b ->
  visit a b ∈ id_pairs (sorted_keys segments).
Proof.
  intros Ha Hb Hne. unfold visit.
  apply (id_pairs_sorted _ _ _ (sorted_keys_strict segments)).
  rewrite !sorted_keys_elem.
  destruct (Z.lt_total a b) as [Hlt | [-> | Hgt]]; [| done |].
  - rewrite Z.min_l, Z.max_r by lia. by split_and!.
  - rewrite Z.min_r, Z.max_l by lia. split_and!; [done | done | lia].
Qed.

(** *** The entries written by the iterations *)

Lemma merge_pair_entry fuel cfg segments m ab m' :
  merge_pair fuel cfg segments m ab = Ok m' ->
  forall k,
    (exists seg_a seg_b master final_master,
       segments !! fst ab = Some seg_a /\ segments !! snd ab = Some seg_b /\
       merge_decision cfg (fst ab) seg_a (snd ab) seg_b = Ok (Some (master, k)) /\
       _get_master_id fuel master m = Some final_master /\
       m' !! k = Some final_master) \/
    (~ marks cfg segments ab k /\ m' !! k = m !! k).
Proof.
  unfold merge_pair, marks.
  destruct (segments !! ab.1) as [seg_a|]; cbn; [| done].
  destruct (segments !! ab.2) as [seg_b|]; cbn; [| done].
  destruct (merge_decision cfg ab.1 seg_a ab.2 seg_b) as [[[master slave]|] | e |]
    eqn:Hd; cbn; [| | done | done].
  - destruct (_get_master_id fuel master m) as [fm|] eqn:Hfm; cbn; [| done].
    intros [= <-] k. destruct (decide (slave = k)) as [<- | Hne].
    + left. exists seg_a, seg_b, master, fm. split_and!; try done.
      apply lookup_insert_eq.
    + right. split; [| by apply lookup_insert_ne].
      intros (sa & sb & ms & [= <-] & [= <-] & Hd'). rewrite Hd in Hd'.
      by injection Hd' as _ ->.
  - intros [= <-] k. right. split; [| done].
    intros (sa & sb & ms & [= <-] & [= <-] & Hd'). by rewrite Hd in Hd'.
Qed.

Lemma merge_pairs_unmarked fuel cfg segments pairs m m' k :
  (forall ab, ab ∈ pairs -> ~ marks cfg segments ab k) ->
  merge_pairs fuel cfg segments pairs m = Ok m' -> m' !! k = m !! k.
Proof.
  revert m. induction pairs as [|ab pairs IH]; intros m Hno; cbn.
  - by intros [= <-].
  - destruct (merge_pair fuel cfg segments m ab) as [m1 | |] eqn:Hstep; cbn; [| done | done].
    intros Hrest. rewrite (IH m1); [| intros ab' Hin; apply Hno; by right | done].
    destruct (merge_pair_entry _ _ _ _ _ _ Hstep k)
      as [(sa & sb & ms & fm & Ha & Hb & Hd & _) | [_ Heq]]; [| done].
    exfalso. apply (Hno ab); [left |]. by exists sa, sb, ms.
Qed.

(** The entry of [k] after the iterations for [pairs] is the one the
    map held before them, if no pair marked [k], and otherwise the one
    written by the last pair that marked [k]. *)
Lemma merge_pairs_entry fuel cfg segments pairs m m' k v :
  merge_pairs fuel cfg segments pairs m = Ok m' -> m' !! k = Some v ->
  (m !! k = Some v /\ forall ab, ab ∈ pairs -> ~ marks cfg segments ab k) \/
  exists pre ab post m_pre seg_a seg_b master,
    pairs = pre ++ ab :: post /\
    merge_pairs fuel cfg segments pre m = Ok m_pre /\
    segments !! fst ab = Some seg_a /\ segments !! snd ab = Some seg_b /\
    merge_decision cfg (fst ab) seg_a (snd ab) seg_b = Ok (Some (master, k)) /\
    _get_master_id fuel master m_pre = Some v /\
    forall ab', ab' ∈ post -> ~ marks cfg segments ab' k.
Proof.
  revert m. induction pairs as [|ab pairs IH]; intros m; cbn.
  - intros [= <-] Hk. left. split; [done |]. intros ab Hin. by apply elem_of_nil in Hin.
  - destruct (merge_pair fuel cfg segments m ab) as [m1 | |] eqn:Hstep; cbn; [| done | done].
    intros Hrest Hk.
    destruct (IH m1 Hrest Hk)
      as [[Hk1 Hno] | (pre & ab' & post & m_pre & sa & sb & ms & -> & Hpre & Hrec)].
    + destruct (merge_pair_entry _ _ _ _ _ _ Hstep k)
        as [(sa & sb & ms & fm & Ha & Hb & Hd & Hfm & Hk1') | [Hnm Heq]].
      * right. exists [], ab, pairs, m, sa, sb, ms.
        rewrite Hk1 in Hk1'. injection Hk1' as <-. by split_and!.
      * left. rewrite <- Heq. split; [done |].
        intros ab' Hin. apply elem_of_cons in Hin as [-> | Hin]; [done | by apply Hno].
    + right. exists (ab :: pre), ab', post, m_pre, sa, sb, ms.
      split; [done |]. split; [| done]. cbn. by rewrite Hstep.
Qed.

(** X8.  On well-formed segments, an id is a key of the merge map
    exactly when the segment of some track ends before its own segment
    starts and the two pass the three tests of frame gap, distance and
    size ratio, as the code computes them in [float64], the area of the
    track with the smaller id first in the ratio. *)
Theorem slaves_are_the_mergeable_tracks (fuel : nat) (cfg : Config)
    (segments : gmap Z Segment) (merge_map : gmap Z Z) :
  all_well_formed segments ->
  _find_merge_candidates fuel cfg segments = Ok merge_map ->
  forall slave : Z,
    is_Some (merge_map !! slave) <->
    exists earlier seg_e seg_s,
      segments !! earlier = Some seg_e /\ segments !! slave = Some seg_s /\
      precedes seg_e seg_s /\
      mergeable cfg seg_e seg_s (bool_decide (earlier < slave)).
Proof.
  intros Hwf Hfind slave. rewrite find_merge_candidates_flat in Hfind.
  rewrite (merge_pairs_keys _ _ _ _ _ _ Hfind slave), lookup_empty.
  split.
  - intros [[? [=]] | (ab & Hin & Hm)].
    apply (marks_visit cfg segments ab slave Hwf Hin) in Hm
      as (earlier & seg_e & seg_s & _ & He & Hs & Hpre & Hmg).
    by exists earlier, seg_e, seg_s.
  - intros (earlier & seg_e & seg_s & He & Hs & Hpre & Hm). right.
    assert (Hne : earlier ≠ slave).
    { intros ->. rewrite He in Hs. injection Hs as <-.
      apply (precedes_irrefl seg_e); [by eapply Hwf | done]. }
    exists (visit earlier slave).
    assert (Hin : visit earlier slave ∈ id_pairs (sorted_keys segments))
      by (apply visit_in_pairs; by eauto).
    split; [done |]. apply (marks_visit cfg segments _ slave Hwf Hin).
    by exists earlier, seg_e, seg_s.
Qed.

(** C1, as amended.  On well-formed segments, the merge map returned by
    [_find_merge_candidates] holds [slave -> master] exactly when some
    track [earlier] whose segment ends before the segment of [slave]
    starts passes the three tests with it, as the code computes them in
    [float64]; [earlier] has the largest id among the tracks that do;
    and [master] is what [_get_master_id] resolves [earlier] to in the
    map built from the pairs visited before the pair of [earlier] and
    [slave].  The iteration for a pair of segments neither of which
    precedes the other leaves the map as it is. *)
Theorem find_merge_candidates_entries (fuel : nat) (cfg : Config)
    (segments : gmap Z Segment) (merge_map : gmap Z Z) :
  all_well_formed segments ->
  _find_merge_candidates fuel cfg segments = Ok merge_map ->
  (forall slave master : Z,
     merge_map !! slave = Some master <->
     exists earlier seg_e seg_s pre post m_pre,
       segments !! earlier = Some seg_e /\ segments !! slave = Some seg_s /\
       precedes seg_e seg_s /\
       mergeable cfg seg_e seg_s (bool_decide (earlier < slave)) /\
       (forall other seg_o,
          segments !! other = Some seg_o -> precedes seg_o seg_s ->
          mergeable cfg seg_o seg_s (bool_decide (other < slave)) ->
          other <= earlier) /\
       id_pairs (sorted_keys segments) = pre ++ visit earlier slave :: post /\
       merge_pairs fuel cfg segments pre ∅ = Ok m_pre /\
       _get_master_id fuel earlier m_pre = Some master) /\
  (forall a b seg_a seg_b m,
     segments !! a = Some seg_a -> segments !! b = Some seg_b ->
     ~ precedes seg_a seg_b -> ~ precedes seg_b seg_a ->
     merge_pair fuel cfg segments m (a, b) = Ok m).
Proof.
  intros Hwf Hfind. rewrite find_merge_candidates_flat in Hfind.
  pose proof (id_pairs_in_order _ (sorted_keys_strict segments)) as Hord.
  assert (Hself : forall e s seg_e seg_s,
             segments !! e = Some seg_e -> segments !! s = Some seg_s ->
             precedes seg_e seg_s -> e ≠ s).
  { intros e s seg_e seg_s He Hs Hpre ->. rewrite He in Hs. injection Hs as <-.
    apply (precedes_irrefl seg_e); [by eapply Hwf | done]. }
  split.
  - intros slave master. split.
    + intros Hlook.
      destruct (merge_pairs_entry _ _ _ _ _ _ _ _ Hfind Hlook)
        as [[Hnone _] | (pre & ab & post & m_pre & sa & sb & ms
                         & Hsplit & Hpre & Ha & Hb & Hd & Hfm & Hno)];
        [by rewrite lookup_empty in Hnone |].
      assert (Hin : ab ∈ id_pairs (sorted_keys segments)).
      { rewrite Hsplit. apply elem_of_app. right. left. }
      assert (Hmark : marks cfg segments ab slave) by (by exists sa, sb, ms).
      destruct ab as [a b].
      apply (id_pairs_sorted _ _ _ (sorted_keys_strict segments)) in Hin as Hab.
      destruct Hab as (_ & _ & Hlt). cbn [fst snd] in Ha, Hb, Hd.
      apply (decision_of_visit cfg segments a b sa sb ms slave Hwf Hlt Ha Hb) in Hd
        as (seg_e & seg_s & Hv & He & Hs & Hprec & Hmg).
      exists ms, seg_e, seg_s, pre, post, m_pre.
      split_and!; try done; [| by rewrite <- Hv].
      intros other seg_o Ho Hpo Hmo.
      destruct (Z_le_gt_dec other ms) as [Hle | Hgt]; [done |]. exfalso.
      pose proof (Hself _ _ _ _ Ho Hs Hpo) as Hne1.
      pose proof (Hself _ _ _ _ He Hs Hprec) as Hne2.
      assert (Hin' : visit other slave ∈ id_pairs (sorted_keys segments))
        by (apply visit_in_pairs; by eauto).
      apply (Hno (visit other slave)).
      * rewrite Hsplit in Hord, Hin'.
        apply (visited_later pre (a, b) post _ Hord Hin').
        rewrite Hv. apply visit_order; [lia | done | done].
      * apply (marks_visit cfg segments _ slave Hwf Hin').
        by exists other, seg_o, seg_s.
    + intros (earlier & seg_e & seg_s & pre & post & m_pre
              & He & Hs & Hprec & Hmg & Hmax & Hsplit & Hpre & Hfm).
      pose proof (Hself _ _ _ _ He Hs Hprec) as Hne.
      rewrite Hsplit in Hfind, Hord.
      rewrite merge_pairs_app, Hpre in Hfind. cbn in Hfind.
      destruct (merge_pair fuel cfg segments m_pre (visit earlier slave))
        as [m1 | |] eqn:Hstep; cbn in Hfind; [| done | done].
      assert (Hin : visit earlier slave ∈ id_pairs (sorted_keys segments)).
      { rewrite Hsplit. apply elem_of_app. right. left. }
      assert (Hmark : marks cfg segments (visit earlier slave) slave).
      { apply (marks_visit cfg segments _ slave Hwf Hin).
        by exists earlier, seg_e, seg_s. }
      assert (Hno : forall ab', ab' ∈ post -> ~ marks cfg segments ab' slave).
      { intros ab' Hin' Hmark'.
        assert (Hin'' : ab' ∈ id_pairs (sorted_keys segments)).
        { rewrite Hsplit. apply elem_of_app. right. by right. }
        apply (marks_visit cfg segments ab' slave Hwf Hin'') in Hmark'
          as (other & seg_o & seg_s' & -> & Ho & Hs' & Hpo & Hmo).
        rewrite Hs in Hs'. injection Hs' as <-.
        pose proof (Hmax other seg_o Ho Hpo Hmo) as Hle.
        pose proof (Hself _ _ _ _ Ho Hs Hpo) as Hne'.
        pose proof (visited_after _ _ _ _ Hord Hin') as Hafter.
        destruct (Z.eq_dec other earlier) as [-> | Hneq].
        - by apply visited_before_irrefl in Hafter.
        - apply (visited_before_asym _ _ Hafter).
          apply visit_order; [lia | done | done]. }
      rewrite (merge_pairs_unmarked _ _ _ _ _ _ slave Hno Hfind).
      destruct (merge_pair_entry _ _ _ _ _ _ Hstep slave)
        as [(sa & sb & ms & fm & Ha & Hb & Hd & Hfm' & Hk) | [Hnm _]]; [| done].
      rewrite Hk. f_equal.
      apply (id_pairs_sorted _ _ _ (sorted_keys_strict segments)) in Hin
        as (_ & _ & Hlt).
      apply (decision_of_visit cfg segments _ _ sa sb ms slave Hwf Hlt Ha Hb) in Hd
        as (seg_m & seg_k & Hv & _).
      assert (ms = earlier) as ->.
      { unfold visit in Hv. injection Hv as Hmin Hmax'. lia. }
      congruence.
  - intros a b seg_a seg_b m Ha Hb Hab Hba. unfold merge_pair. cbn [fst snd].
    rewrite Ha, Hb. cbn.
    by rewrite (merge_decision_unordered cfg a seg_a b seg_b)
      by (try done; by eapply Hwf).
Qed.

(** X9.  Every entry of the merge map sends a slave to another id;
    both ids have a segment, and the segment of the master ends
    strictly before the segment of the slave starts. *)
Theorem merge_map_entries_point_back (fuel : nat) (cfg : Config)
    (segments : gmap Z Segment) (merge_map : gmap Z Z) :
  all_well_formed segments ->
  (size segments <= fuel)%nat ->
  _find_merge_candidates fuel cfg segments = Ok merge_map ->
  forall slave master : Z,
    merge_map !! slave = Some master ->
    slave ≠ master /\
    exists seg_s seg_m,
      segments !! slave = Some seg_s /\ segments !! master = Some seg_m /\
      precedes seg_m seg_s.
Proof.
  intros Hwf Hfuel Hfind slave master Hlook.
  rewrite find_merge_candidates_flat in Hfind.
  destruct (merge_pairs_chrono fuel cfg segments Hwf Hfuel
              (id_pairs (sorted_keys segments)) ∅ (chrono_empty segments))
    as [_ Hch].
  destruct (Hch merge_map Hfind slave master Hlook) as (seg_s & seg_m & Hs & Hm & Hpre).
  split; [| by exists seg_s, seg_m].
  intros ->. rewrite Hs in Hm. injection Hm as <-.
  by apply (precedes_irrefl seg_s); [eapply Hwf |].
Qed.

(** ** The expanded map and the relabelled sequence *)

Lemma expand_spec fuel m keys acc em :
  expand fuel m keys acc = Ok em ->
  forall k,
    (k ∈ keys -> exists r, _get_master_id fuel k m = Some r /\ em !! k = Some r) /\
    (k ∉ keys -> em !! k = acc !! k).
Proof.
  revert acc. induction keys as [|x keys IH]; intros acc; cbn.
  - intros [= <-] k. split; [intros H; by apply elem_of_nil in H | done].
  - destruct (_get_master_id fuel x m) as [r|] eqn:Hr; cbn; [| done].
    intros Hrest k. destruct (IH _ Hrest k) as [Hin Hout]. split.
    + intros Hk. destruct (decide (k ∈ keys)) as [Hk' | Hk']; [by apply Hin |].
      apply elem_of_cons in Hk as [-> | Hk]; [| done].
      exists r. split; [done |]. rewrite (Hout Hk'). apply lookup_insert_eq.
    + intros Hk. apply not_elem_of_cons in Hk as [Hne Hk].
      rewrite (Hout Hk). by apply lookup_insert_ne.
Qed.

Lemma expand_total fuel m keys acc :
  (forall k, k ∈ keys -> is_Some (_get_master_id fuel k m)) ->
  exists em, expand fuel m keys acc = Ok em.
Proof.
  revert acc. induction keys as [|x keys IH]; intros acc Hall; cbn; [by eauto |].
  destruct (Hall x) as [r ->]; [left |]. cbn. apply IH.
  intros k Hk. apply Hall. by right.
Qed.

Lemma keys_of_map (m : gmap Z Z) k :
  k ∈ map fst (map_to_list m) <-> is_Some (m !! k).
Proof.
  split.
  - intros Hk. apply list_elem_of_fmap in Hk as ([k' v] & -> & Hin).
    apply elem_of_map_to_list in Hin. by eauto.
  - intros [v Hv]. apply list_elem_of_fmap. exists (k, v). split; [done |].
    by apply elem_of_map_to_list.
Qed.

Lemma expanded_spec fuel m em :
  expanded fuel m = Ok em ->
  forall k,
    match m !! k with
    | Some _ => exists master,
        _get_master_id fuel k m = Some master /\ em !! k = Some master /\
        m !! master = None /\ em !! master = None
    | None => em !! k = None
    end.
Proof.
  unfold expanded. intros Hex.
  assert (Hnone : forall k, m !! k = None -> em !! k = None).
  { intros k Hk. destruct (expand_spec _ _ _ _ _ Hex k) as [_ Hout].
    rewrite Hout; [apply lookup_empty |].
    rewrite keys_of_map, Hk. by intros [? ?]. }
  intros k. destruct (m !! k) as [v|] eqn:Hk; [| by apply Hnone].
  destruct (expand_spec _ _ _ _ _ Hex k) as [Hin _].
  destruct Hin as (r & Hr & Hem); [apply keys_of_map; by eauto |].
  destruct (get_master_terminal _ _ _ _ Hr) as [Hterm _].
  exists r. split_and!; try done. by apply Hnone.
Qed.

Lemma expanded_total fuel m :
  acyclic m -> (size m <= fuel)%nat -> exists em, expanded fuel m = Ok em.
Proof.
  intros Hacyc Hfuel. apply expand_total. intros k _.
  by apply get_master_total.
Qed.

(** X10.  On well-formed segments and with fuel covering their number,
    the expanded map of [_apply_id_mapping] exists, has the keys of the
    merge map, and sends every key to the master [_get_master_id]
    resolves it to, which is a key of neither map: one lookup in the
    expanded map resolves an id. *)
Theorem expanded_map_is_flat (fuel : nat) (cfg : Config)
    (segments : gmap Z Segment) (merge_map : gmap Z Z) :
  all_well_formed segments ->
  (size segments <= fuel)%nat ->
  _find_merge_candidates fuel cfg segments = Ok merge_map ->
  exists expanded_map,
    expanded fuel merge_map = Ok expanded_map /\
    (forall k, is_Some (expanded_map !! k) <-> is_Some (merge_map !! k)) /\
    (forall k master, expanded_map !! k = Some master ->
       _get_master_id fuel k merge_map = Some master /\
       merge_map !! master = None /\ expanded_map !! master = None).
Proof.
  intros Hwf Hfuel Hfind. rewrite find_merge_candidates_flat in Hfind.
  destruct (merge_pairs_chrono fuel cfg segments Hwf Hfuel
              (id_pairs (sorted_keys segments)) ∅ (chrono_empty segments))
    as [_ Hch].
  specialize (Hch merge_map Hfind).
  destruct (expanded_total fuel merge_map) as [em Hem].
  { by apply (chrono_acyclic segments). }
  { pose proof (chrono_size segments merge_map Hch). lia. }
  exists em. split; [done |].
  pose proof (expanded_spec _ _ _ Hem) as Hspec. split.
  - intros k. specialize (Hspec k). destruct (merge_map !! k) as [v|].
    + destruct Hspec as (r & _ & -> & _). split; by eauto.
    + rewrite Hspec. split; by intros [? ?].
  - intros k master Hk. specialize (Hspec k). destruct (merge_map !! k) as [v|].
    + destruct Hspec as (r & Hr & Hem' & Hterm & Hterm').
      rewrite Hk in Hem'. injection Hem' as <-. done.
    + congruence.
Qed.

Lemma relabel_lookup em (h : heap) (l i : nat) :
  relabel em h l !! i
  = if decide (i = l) then relabelled em <$> h !! i else h !! i.
Proof.
  unfold relabel, relabelled, heap in *. destruct (decide (i = l)) as [-> | Hne].
  - destruct (h !! l) as [t|] eqn:Hl; [| by rewrite Hl].
    apply lookup_lt_Some in Hl as Hlt.
    destruct (em !! track_id t) eqn:Hem;
      rewrite list_lookup_insert_eq by done; cbn; by rewrite Hem.
  - destruct (h !! l) as [t|]; [| done].
    destruct (em !! track_id t); by rewrite list_lookup_insert_ne.
Qed.

Lemma fold_relabel_lookup em (ls : list nat) (h : heap) (i : nat) :
  NoDup ls ->
  foldl (relabel em) h ls !! i
  = if decide (i ∈ ls) then relabelled em <$> h !! i else h !! i.
Proof.
  intros Hnd. revert h. induction Hnd as [|l ls Hl Hnd IH]; intros h; cbn [foldl].
  - case_decide as Hi; [by apply elem_of_nil in Hi | done].
  - rewrite IH, relabel_lookup.
    destruct (decide (i = l)) as [-> | Hne].
    + rewrite decide_False by done. rewrite decide_True by left. done.
    + destruct (decide (i ∈ ls)) as [Hi | Hi].
      * rewrite decide_True by (by right). done.
      * rewrite decide_False; [done |]. intros Hc.
        apply elem_of_cons in Hc as [? | ?]; done.
Qed.

Lemma fold_relabel_length em (ls : list nat) (h : heap) :
  length (foldl (relabel em) h ls) = length h.
Proof.
  revert h. induction ls as [|l ls IH]; intros h; [done |].
  cbn [foldl]. rewrite IH. unfold relabel, heap in *.
  destruct (h !! l) as [t|]; [| done].
  destruct (em !! track_id t); by rewrite length_insert.
Qed.

Lemma relabel_frames_fst em st results :
  fst (foldl (relabel_frame em) st results)
  = foldl (relabel em) (fst st) (all_refs results).
Proof.
  revert st. induction results as [|f fs IH]; intros st; [done |].
  cbn [foldl]. rewrite IH. unfold all_refs. cbn [map concat fst relabel_frame].
  by rewrite foldl_app.
Qed.

Lemma deref_relabelled em (h h' : heap) (refs : list nat) :
  (forall i, i ∈ refs -> h' !! i = relabelled em <$> h !! i) ->
  omap (fun l : nat => h' !! l) refs
  = map (relabelled em) (omap (fun l : nat => h !! l) refs).
Proof.
  induction refs as [|l refs IH]; intros Hall; [done |].
  cbn. rewrite (Hall l) by left. rewrite IH by (intros i Hi; apply Hall; by right).
  by destruct (h !! l).
Qed.

Lemma apply_id_mapping_values fuel h results merge_map h' stitched :
  NoDup (all_refs results) ->
  _apply_id_mapping fuel h results merge_map = Ok (h', stitched) ->
  exists em, expanded fuel merge_map = Ok em /\
    stitched = results /\
    deref_all h' stitched = map (map_tracks (relabelled em)) (deref_all h results).
Proof.
  intros Hnd Happ. pose proof (apply_id_mapping_shares _ _ _ _ _ _ Happ) as ->.
  unfold _apply_id_mapping in Happ.
  destruct (expanded fuel merge_map) as [em | |]; cbn in Happ; [| done | done].
  exists em. split_and!; [done | done |].
  injection Happ as Hfold.
  assert (Hh' : h' = foldl (relabel em) h (all_refs results)).
  { pose proof (relabel_frames_fst em (h, []) results) as Hfst.
    rewrite Hfold in Hfst. exact Hfst. }
  unfold deref_all. rewrite map_map. apply map_ext_in. intros f Hf.
  unfold deref, map_tracks. cbn. f_equal.
  apply deref_relabelled. intros i Hi. rewrite Hh', fold_relabel_lookup by done.
  rewrite decide_True; [done |].
  unfold all_refs. apply list_elem_of_In in Hf.
  clear -Hi Hf. induction results as [|g gs IH]; [by apply elem_of_nil in Hf |].
  cbn. apply elem_of_app. apply elem_of_cons in Hf as [<- | Hf]; [by left | right; auto].
Qed.

Lemma relabelled_restamped fuel merge_map em track :
  expanded fuel merge_map = Ok em ->
  relabelled em track = restamped fuel merge_map track.
Proof.
  intros Hem. pose proof (expanded_spec _ _ _ Hem (track_id track)) as Hspec.
  unfold relabelled, restamped.
  destruct (merge_map !! track_id track) as [v|] eqn:Hk.
  - destruct Hspec as (r & -> & -> & _). done.
  - rewrite Hspec. by rewrite (get_master_fixed fuel _ _ Hk).
Qed.

Lemma stitch_tracks_values fuel cfg h results h' stitched :
  NoDup (all_refs results) ->
  stitch_tracks fuel cfg h results = Ok (h', stitched) ->
  exists merge_map,
    _find_merge_candidates fuel cfg (_build_track_segments (deref_all h results))
      = Ok merge_map /\
    deref_all h' stitched
      = map (map_tracks (restamped fuel merge_map)) (deref_all h results).
Proof.
  intros Hnd Hst. unfold stitch_tracks in Hst.
  destruct (_find_merge_candidates fuel cfg _) as [m | |]; cbn in Hst; [| done | done].
  exists m. split; [done |].
  destruct (apply_id_mapping_values _ _ _ _ _ _ Hnd Hst) as (em & Hem & _ & ->).
  apply map_ext. intros f. unfold map_tracks. f_equal.
  apply map_ext. intros t. by apply relabelled_restamped.
Qed.

(** X11.  On a sequence whose track dictionaries are all different
    objects, [stitch_tracks] returns the list it was given and keeps
    the number of track dictionaries; it leaves every frame and every
    field of every track as it was, except the id, which becomes the
    master [_get_master_id] resolves it to (the lookup ends for the id
    of every track), and [stitched], which is set to whether the id was
    a key of the merge map. *)
Theorem stitch_tracks_relabels (fuel : nat) (cfg : Config) (h : heap)
    (results : list FrameRef) (h' : heap) (stitched : list FrameRef) :
  NoDup (all_refs results) ->
  stitch_tracks fuel cfg h results = Ok (h', stitched) ->
  exists merge_map,
    _find_merge_candidates fuel cfg (_build_track_segments (deref_all h results))
      = Ok merge_map /\
    stitched = results /\
    length h' = length h /\
    deref_all h' stitched
      = map (map_tracks (restamped fuel merge_map)) (deref_all h results) /\
    forall f t, f ∈ deref_all h results -> t ∈ tracks f ->
      is_Some (_get_master_id fuel (track_id t) merge_map).
Proof.
  intros Hnd Hst.
  destruct (stitch_tracks_values _ _ _ _ _ _ Hnd Hst) as (m & Hfind & Hvals).
  exists m. unfold stitch_tracks in Hst. rewrite Hfind in Hst. cbn in Hst.
  pose proof (apply_id_mapping_shares _ _ _ _ _ _ Hst) as Hshare.
  split_and!; [done | done | | done |].
  - unfold _apply_id_mapping in Hst.
    destruct (expanded fuel m) as [em | |]; cbn in Hst; [| done | done].
    injection Hst as Hfold.
    pose proof (relabel_frames_fst em (h, []) results) as Hfst.
    rewrite Hfold in Hfst. cbn [fst] in Hfst. rewrite Hfst.
    apply fold_relabel_length.
  - intros f t _ _. unfold _apply_id_mapping in Hst.
    destruct (expanded fuel m) as [em | |] eqn:Hem; cbn in Hst; [| done | done].
    pose proof (expanded_spec _ _ _ Hem (track_id t)) as Hspec.
    destruct (m !! track_id t) as [v|] eqn:Hk.
    + destruct Hspec as (r & -> & _). done.
    + rewrite (get_master_fixed fuel _ _ Hk). done.
Qed.

Lemma fold_ids_tracks (ts : list Track) (a : gset Z) :
  foldl (fun ids track => {[track_id track]} ∪ ids) a ts
  = list_to_set (map track_id ts) ∪ a.
Proof.
  revert a. induction ts as [|t ts IH]; intros a; cbn [foldl map list_to_set].
  - by rewrite (left_id_L ∅ (∪)).
  - rewrite IH. apply set_eq. intros x. rewrite !elem_of_union. tauto.
Qed.

Lemma fold_ids_frames (fs : list FrameData) (acc : gset Z) :
  foldl (fun ids frame_data =>
           foldl (fun ids track => {[track_id track]} ∪ ids) ids (tracks frame_data))
        acc fs
  = ids_of fs ∪ acc.
Proof.
  unfold ids_of. revert acc. induction fs as [|f fs IH]; intros acc.
  - cbn. by rewrite (left_id_L ∅ (∪)).
  - cbn [foldl]. rewrite IH, fold_ids_tracks. unfold observations. cbn [map concat].
    rewrite map_app, list_to_set_app_L, map_map. cbn [snd].
    apply set_eq. intros x. rewrite !elem_of_union. tauto.
Qed.

Lemma count_unique_ids_size results :
  count_unique_ids results = Z.of_nat (size (ids_of results)).
Proof.
  unfold count_unique_ids. rewrite fold_ids_frames. by rewrite (right_id_L ∅ (∪)).
Qed.

Lemma elem_of_ids_of results x :
  x ∈ ids_of results <-> exists n t, (n, t) ∈ observations results /\ track_id t = x.
Proof.
  unfold ids_of. rewrite elem_of_list_to_set. split.
  - intros Hx. apply list_elem_of_fmap in Hx as ([n t] & -> & Hin). by eauto.
  - intros (n & t & Hin & <-). apply list_elem_of_fmap. by exists (n, t).
Qed.

Lemma observations_map_tracks g results :
  observations (map (map_tracks g) results)
  = map (fun o => (fst o, g (snd o))) (observations results).
Proof.
  unfold observations. induction results as [|f fs IH]; [done |].
  cbn [map concat]. rewrite map_app, IH. f_equal.
  unfold map_tracks. cbn. by rewrite !map_map.
Qed.

Lemma restamped_ids (fuel : nat) (cfg : Config) (results : list FrameData)
    (merge_map : gmap Z Z) :
  (forall f, f ∈ results -> 1 <= frame f) ->
  (size (_build_track_segments results) <= fuel)%nat ->
  _find_merge_candidates fuel cfg (_build_track_segments results) = Ok merge_map ->
  dom merge_map ⊆ ids_of results /\
  ids_of (map (map_tracks (restamped fuel merge_map)) results)
  = ids_of results ∖ dom merge_map.
Proof.
  intros Hpos Hfuel Hfind.
  set (segments := _build_track_segments results) in *.
  pose proof (build_well_formed results Hpos) as Hwf. fold segments in Hwf.
  assert (Hkeys : forall x, is_Some (segments !! x) <-> x ∈ ids_of results).
  { intros x. rewrite elem_of_ids_of. unfold segments. rewrite build_observations.
    destruct (build_inv_all (observations results)) as [Hdom _]; [| apply Hdom].
    intros n t Hin. apply elem_of_observations in Hin as (f & Hf & <- & _).
    by apply Hpos. }
  rewrite find_merge_candidates_flat in Hfind.
  destruct (merge_pairs_chrono fuel cfg segments Hwf Hfuel
              (id_pairs (sorted_keys segments)) ∅ (chrono_empty segments))
    as [_ Hch].
  specialize (Hch merge_map Hfind).
  pose proof (chrono_acyclic segments Hwf merge_map Hch) as Hacyc.
  pose proof (chrono_size segments merge_map Hch) as Hsize.
  assert (Hsub : dom merge_map ⊆ ids_of results).
  { intros x Hx. apply elem_of_dom in Hx as [v Hv]. apply Hkeys.
    destruct (Hch _ _ Hv) as (seg_k & _ & Hk & _). by eauto. }
  split; [exact Hsub |].
  assert (Hid : forall t, track_id t ∈ ids_of results ->
              track_id (restamped fuel merge_map t) ∈ ids_of results ∖ dom merge_map /\
              (track_id t ∉ dom merge_map ->
               track_id (restamped fuel merge_map t) = track_id t)).
  { intros t Ht. unfold restamped. cbn [track_id].
    destruct (get_master_total merge_map fuel (track_id t) Hacyc) as [r Hr]; [lia |].
    rewrite Hr. cbn [default].
    destruct (get_master_terminal _ _ _ _ Hr) as [Hterm Hpath].
    assert (Hrdom : r ∉ dom merge_map).
    { intros Hc. apply elem_of_dom in Hc as [? ?]. congruence. }
    apply rtc_tc in Hpath as [<- | Hpath].
    - split; [by apply elem_of_difference | done].
    - destruct (chrono_tc segments Hwf merge_map _ _ Hch Hpath)
        as (_ & seg_r & _ & Hsr & _).
      split.
      + apply elem_of_difference. split; [| done]. apply Hkeys. by eauto.
      + intros Hnot. exfalso. apply Hnot.
        inversion Hpath as [? ? Hedge | ? y ? Hedge _]; subst;
          apply elem_of_dom; eexists; exact Hedge. }
  apply set_eq. intros x. rewrite elem_of_difference, !elem_of_ids_of.
  rewrite observations_map_tracks. split.
  - intros (n & t & Hin & Hx).
    apply list_elem_of_fmap in Hin as ([n0 t0] & [= -> ->] & Hin0). cbn [snd] in Hx.
    assert (Ht0 : track_id t0 ∈ ids_of results) by (apply elem_of_ids_of; by eauto).
    destruct (Hid t0 Ht0) as [Hmem _]. rewrite Hx in Hmem.
    apply elem_of_difference in Hmem as [Hmem Hnot].
    split; [by apply elem_of_ids_of | done].
  - intros [(n & t & Hin & Hx) Hnot].
    exists n, (restamped fuel merge_map t). split.
    + apply list_elem_of_fmap. by exists (n, t).
    + assert (Ht : track_id t ∈ ids_of results) by (apply elem_of_ids_of; by eauto).
      destruct (Hid t Ht) as [_ Hsame]. rewrite <- Hx. apply Hsame. by rewrite Hx.
Qed.

(** X12.  On a sequence with different track dictionaries and frame
    numbers from 1, the number of distinct ids after stitching is the
    number before less the number of entries of the merge map. *)
Theorem stitching_drops_one_id_per_merge (fuel : nat) (cfg : Config) (h : heap)
    (results : list FrameRef) (h' : heap) (stitched : list FrameRef) :
  NoDup (all_refs results) ->
  (forall f, f ∈ deref_all h results -> 1 <= frame f) ->
  (size (_build_track_segments (deref_all h results)) <= fuel)%nat ->
  stitch_tracks fuel cfg h results = Ok (h', stitched) ->
  exists merge_map,
    _find_merge_candidates fuel cfg (_build_track_segments (deref_all h results))
      = Ok merge_map /\
    count_unique_ids (deref_all h' stitched)
      = count_unique_ids (deref_all h results) - Z.of_nat (size merge_map) /\
    Z.of_nat (size merge_map) <= count_unique_ids (deref_all h results).
Proof.
  intros Hnd Hpos Hfuel Hst.
  destruct (stitch_tracks_values _ _ _ _ _ _ Hnd Hst) as (m & Hfind & ->).
  exists m. split; [done |].
  destruct (restamped_ids fuel cfg (deref_all h results) m Hpos Hfuel Hfind)
    as [Hsub Heq].
  rewrite !count_unique_ids_size, Heq, size_difference by done.
  pose proof (subseteq_size _ _ Hsub) as Hle. rewrite size_dom in Hle |- *.
  split; lia.
Qed.

Lemma similar_succeeds cfg p q ba bb :
  positive_area ba -> positive_area bb ->
  exists ok, similar cfg (Some p) (Some q) (Some ba) (Some bb) = Ok ok.
Proof.
  unfold positive_area. intros Ha Hb. unfold similar, float_div. cbv zeta.
  destruct (py_max_cases (_get_bbox_size ba) (_get_bbox_size bb)) as [-> | ->];
    rewrite float_pos_nonzero by done; by eauto.
Qed.

Lemma merge_decision_succeeds cfg ida a idb b :
  sound_segment a -> sound_segment b ->
  exists d, merge_decision cfg ida a idb b = Ok d.
Proof.
  intros [_ (pa & qa & baa & bba & Hpa & Hqa & Hbaa & Hbba & Hposa & Hposa')]
         [_ (pb & qb & bab & bbb & Hpb & Hqb & Hbab & Hbbb & Hposb & Hposb')].
  unfold merge_decision. rewrite Hpa, Hqa, Hbaa, Hbba, Hpb, Hqb, Hbab, Hbbb.
  destruct (lt_bound _ _).
  - destruct (bound_le _ _); [| by eauto].
    destruct (similar_succeeds cfg qa pb bba bab Hposa' Hposb) as [ok ->]. by eauto.
  - destruct (lt_bound _ _); [| by eauto].
    destruct (bound_le _ _); [| by eauto].
    destruct (similar_succeeds cfg qb pa baa bbb Hposa Hposb') as [ok ->]. by eauto.
Qed.

Lemma merge_pairs_succeeds fuel cfg segments pairs m :
  all_well_formed segments -> (size segments <= fuel)%nat ->
  (forall tid seg, segments !! tid = Some seg -> sound_segment seg) ->
  (forall ab, ab ∈ pairs -> is_Some (segments !! fst ab) /\ is_Some (segments !! snd ab)) ->
  chrono segments m ->
  exists m', merge_pairs fuel cfg segments pairs m = Ok m'.
Proof.
  intros Hwf Hfuel Hsound. revert m.
  induction pairs as [|ab pairs IH]; intros m Hin Hch; cbn; [by eauto |].
  destruct (merge_pair_step fuel cfg segments Hwf Hfuel m ab Hch) as [Hnf Hstep].
  assert (Hok : exists m1, merge_pair fuel cfg segments m ab = Ok m1).
  { unfold merge_pair in *. destruct (Hin ab) as [[sa Ha] [sb Hb]]; [left |].
    rewrite Ha, Hb in Hnf |- *. cbn in Hnf |- *.
    destruct (merge_decision_succeeds cfg ab.1 sa ab.2 sb) as [d Hd]; [by eauto.. |].
    rewrite Hd in Hnf |- *. cbn in Hnf |- *.
    destruct d as [[master slave]|]; [| by eauto]. cbn in Hnf |- *.
    destruct (_get_master_id fuel master m); cbn in Hnf |- *; [by eauto | done]. }
  destruct Hok as [m1 Hm1]. rewrite Hm1. cbn.
  apply IH; [intros ab' Hab'; apply Hin; by right |].
  by apply (Hstep m1 Hm1).
Qed.

Lemma build_sound_segments results :
  (forall f, f ∈ results ->
     1 <= frame f /\ forall t, t ∈ tracks f -> positive_area (bbox t)) ->
  forall tid seg, _build_track_segments results !! tid = Some seg -> sound_segment seg.
Proof.
  intros Hin tid seg Hlook. rewrite build_observations in Hlook.
  destruct (build_inv_all (observations results)) as [_ Hok].
  { intros n t Ht. apply elem_of_observations in Ht as (f & Hf & <- & _).
    by apply Hin. }
  destruct (Hok tid seg Hlook)
    as (s & Hs & Hle & (t1 & Ht1 & _ & Hp1 & Hb1) & (t2 & Ht2 & _ & Hp2 & Hb2) & _).
  split; [by exists s |].
  exists (center t1), (center t2), (bbox t1), (bbox t2).
  apply elem_of_observations in Ht1 as (f1 & Hf1 & _ & Ht1).
  apply elem_of_observations in Ht2 as (f2 & Hf2 & _ & Ht2).
  split_and!; try done; [by apply (Hin f1) | by apply (Hin f2)].
Qed.

Lemma find_merge_candidates_total (fuel : nat) (cfg : Config)
    (results : list FrameData) :
  (forall f, f ∈ results ->
     1 <= frame f /\ forall t, t ∈ tracks f -> positive_area (bbox t)) ->
  (size (_build_track_segments results) <= fuel)%nat ->
  exists merge_map,
    _find_merge_candidates fuel cfg (_build_track_segments results) = Ok merge_map /\
    acyclic merge_map /\ (size merge_map <= fuel)%nat.
Proof.
  intros Hin Hfuel.
  set (segments := _build_track_segments results) in *.
  assert (Hwf : all_well_formed segments).
  { apply build_well_formed. intros f Hf. by apply Hin. }
  pose proof (build_sound_segments _ Hin) as Hsound. fold segments in Hsound.
  rewrite find_merge_candidates_flat.
  destruct (merge_pairs_succeeds fuel cfg segments (id_pairs (sorted_keys segments)) ∅
              Hwf Hfuel Hsound) as [m Hm].
  { intros [a b] Hab. apply id_pairs_fst in Hab as [Ha Hb].
    split; by apply sorted_keys_present. }
  { apply chrono_empty. }
  exists m. split; [done |].
  destruct (merge_pairs_chrono fuel cfg segments Hwf Hfuel
              (id_pairs (sorted_keys segments)) ∅ (chrono_empty segments))
    as [_ Hch].
  specialize (Hch m Hm). split.
  - by apply (chrono_acyclic segments).
  - pose proof (chrono_size segments m Hch). lia.
Qed.

Lemma apply_id_mapping_total (fuel : nat) (h : heap) (results : list FrameRef)
    (merge_map : gmap Z Z) :
  acyclic merge_map -> (size merge_map <= fuel)%nat ->
  exists h' stitched, _apply_id_mapping fuel h results merge_map = Ok (h', stitched).
Proof.
  intros Hacyc Hfuel.
  destruct (expanded_total fuel merge_map Hacyc Hfuel) as [em Hem].
  unfold _apply_id_mapping. rewrite Hem. cbn.
  destruct (foldl (relabel_frame em) (h, []) results) as [h' st]. by eauto.
Qed.

(** X13.  On a sequence with frame numbers from 1 and boxes whose
    area, as [_get_bbox_size] computes it in [float64], compares above
    0, [stitch_tracks] returns: nothing is raised and the resolver
    terminates, with fuel covering the number of segments and with any
    larger fuel. *)
Theorem stitch_tracks_succeeds (fuel : nat) (cfg : Config) (h : heap)
    (results : list FrameRef) :
  (forall f, f ∈ deref_all h results ->
     1 <= frame f /\ forall t, t ∈ tracks f -> positive_area (bbox t)) ->
  (size (_build_track_segments (deref_all h results)) <= fuel)%nat ->
  exists h' stitched,
    stitch_tracks fuel cfg h results = Ok (h', stitched) /\
    forall fuel', (fuel <= fuel')%nat ->
      exists h'' stitched', stitch_tracks fuel' cfg h results = Ok (h'', stitched').
Proof.
  intros Hin Hfuel.
  assert (Hany : forall n, (fuel <= n)%nat ->
             exists h1 st1, stitch_tracks n cfg h results = Ok (h1, st1)).
  { intros n Hn.
    destruct (find_merge_candidates_total n cfg (deref_all h results) Hin)
      as (m & Hfind & Hacyc & Hsize); [lia |].
    unfold stitch_tracks. rewrite Hfind. cbn.
    by apply apply_id_mapping_total. }
  destruct (Hany fuel) as (h' & stitched & Hst); [lia |].
  exists h', stitched. split; [done |]. exact Hany.
Qed.

(** ** The summary *)

Lemma size_list_to_set_le (l : list Z) :
  (size (list_to_set l : gset Z) <= length l)%nat.
Proof.
  induction l as [|x l IH]; cbn.
  - by rewrite size_empty.
  - pose proof (size_union_alt ({[x]} : gset Z) (list_to_set l)) as Hs.
    rewrite size_singleton in Hs.
    pose proof (subseteq_size (list_to_set l ∖ {[x]} : gset Z) (list_to_set l)) as Hd.
    assert (Hsub : list_to_set l ∖ {[x]} ⊆ (list_to_set l : gset Z)).
    { intros y Hy. by apply elem_of_difference in Hy as [? _]. }
    specialize (Hd Hsub). lia.
Qed.

(** X14.  The summary of a counter started fresh: both totals are
    non-negative, [net] is their difference, [unique_tracks] lies
    between 0 and [total_crossings], is 0 exactly when there is no
    crossing, and is at most the number of distinct ids of the
    sequence. *)
Theorem summary_is_consistent
    (ls le : Pos) (mf : Z) (hl : nat) (results : list FrameData) :
  let summary := get_summary (process_all (init ls le mf hl) results) in
  0 <= total_in summary /\ 0 <= total_out summary /\
  net summary = total_in summary - total_out summary /\
  0 <= unique_tracks summary <= total_crossings summary /\
  (unique_tracks summary = 0 <-> total_crossings summary = 0) /\
  unique_tracks summary <= count_unique_ids results.
Proof.
  intros summary. unfold summary, get_summary. cbn [total_in total_out net
    total_crossings unique_tracks].
  set (self := process_all (init ls le mf hl) results).
  destruct (process_all_log (init ls le mf hl) results (init_log ls le mf hl))
    as (Hin & Hout & _). fold self in Hin, Hout.
  pose proof (ins_nonneg (events self)). pose proof (outs_nonneg (events self)).
  pose proof (size_list_to_set_le (map ev_track_id (events self))) as Hle.
  rewrite length_map in Hle.
  split_and!; try lia.
  - split; intros Hz.
    + destruct (events self) as [|e evs] eqn:Hevs; [done |]. exfalso.
      assert (Hsz : size (list_to_set (map ev_track_id (e :: evs)) : gset Z) = 0%nat) by lia.
      apply size_empty_inv in Hsz.
      apply (not_elem_of_empty (C := gset Z) (ev_track_id e)).
      apply Hsz. cbn [map list_to_set].
      apply elem_of_union. left. by apply elem_of_singleton.
    + assert (Hnil : events self = []) by (destruct (events self); [done | cbn in Hz; lia]).
      rewrite Hnil. cbn. by rewrite size_empty.
  - rewrite count_unique_ids_size. unfold ids_of. apply inj_le, subseteq_size.
    intros tid Htid. apply elem_of_list_to_set in Htid. apply elem_of_list_to_set.
    apply list_elem_of_fmap in Htid as (e & -> & He).
    assert (Hfrom : events_from (observations results) (events self)).
    { unfold self. rewrite track_all_results.
      apply (events_from_all (observations results) [] (init ls le mf hl)).
      intros e0 He0. cbn in He0. by apply elem_of_nil in He0. }
    destruct (Hfrom e He) as (n & t & Hin' & _ & Ht & _).
    apply list_elem_of_fmap. exists (n, t). split; [done | done].
Qed.

(** ** The frames of the tracker *)

Lemma track_loop_frames k image_files :
  forall (i : nat) (f : FrameData),
    track_loop k image_files !! i = Some f ->
    k + Z.of_nat i + 1 <= frame f <= k + Z.of_nat (length image_files) /\
    (forall t, t ∈ tracks f -> t_frame t = frame f /\ stitched t = None) /\
    (Forall (fun pi => snd pi ≠ Unreadable) image_files ->
     frame f = k + Z.of_nat i + 1).
Proof.
  revert k. induction image_files as [|[path img] rest IH]; intros k i f; cbn [track_loop].
  - by rewrite lookup_nil.
  - assert (Hrest : forall j, track_loop (k + 1) rest !! j = Some f ->
               k + 1 + Z.of_nat j + 1 <= frame f <= k + 1 + Z.of_nat (length rest) /\
               (forall t, t ∈ tracks f -> t_frame t = frame f /\ stitched t = None) /\
               (Forall (fun pi => snd pi ≠ Unreadable) rest ->
                frame f = k + 1 + Z.of_nat j + 1)) by (intros j; apply IH).
    cbn [length]. destruct img as [| |rows].
    + intros Hf. destruct (Hrest i Hf) as (Hb & Ht & _).
      split; [lia | split; [done |]]. intros Hall. by inversion Hall.
    + destruct i as [|j]; cbn.
      * intros [= <-]. cbn. split; [lia | split; [| lia]].
        intros t Ht. by apply elem_of_nil in Ht.
      * intros Hf. destruct (Hrest j Hf) as (Hb & Ht & Hall).
        split; [lia | split; [done |]]. intros HF. inversion HF; subst.
        rewrite Hall by done. lia.
    + destruct i as [|j]; cbn.
      * intros [= <-]. cbn. split; [lia | split; [| lia]].
        intros t Ht. apply list_elem_of_fmap in Ht as (d & -> & _). done.
      * intros Hf. destruct (Hrest j Hf) as (Hb & Ht & Hall).
        split; [lia | split; [done |]]. intros HF. inversion HF; subst.
        rewrite Hall by done. lia.
Qed.

Lemma track_loop_increasing k image_files :
  forall (i j : nat) (f g : FrameData),
    (i < j)%nat ->
    track_loop k image_files !! i = Some f ->
    track_loop k image_files !! j = Some g ->
    frame f < frame g.
Proof.
  revert k. induction image_files as [|[path img] rest IH]; intros k i j f g Hij;
    cbn [track_loop].
  - by rewrite lookup_nil.
  - destruct img as [| |rows]; [by apply IH | |].
    all: destruct j as [|j']; [lia |]; destruct i as [|i']; cbn.
    all: try (intros Hf Hg; apply (IH (k + 1) i' j' f g); [lia | done | done]).
    all: intros [= <-] Hg; cbn;
      destruct (track_loop_frames (k + 1) rest j' g Hg) as (Hb & _); lia.
Qed.

(** X15.  [track_sequence] returns at most one entry per image file;
    the entry at position [i] has a frame number between [i + 1] and
    the number of files, which is [i + 1] when every image could be
    read; its tracks carry that frame number; and the frame numbers
    increase strictly along the list. *)
Theorem track_sequence_numbers_frames (image_files : list (string * Image))
    (results : list FrameData) :
  track_sequence image_files = Some results ->
  (length results <= length image_files)%nat /\
  (forall (i : nat) (f : FrameData), results !! i = Some f ->
     Z.of_nat i + 1 <= frame f <= Z.of_nat (length image_files) /\
     (forall t, t ∈ tracks f -> t_frame t = frame f) /\
     (Forall (fun pi => snd pi ≠ Unreadable) image_files ->
      frame f = Z.of_nat i + 1)) /\
  (forall (i j : nat) (f g : FrameData), (i < j)%nat ->
     results !! i = Some f -> results !! j = Some g -> frame f < frame g).
Proof.
  unfold track_sequence. destruct image_files as [|p rest] eqn:Himg; [done |].
  rewrite <- Himg. intros [= <-]. split_and!.
  - clear Himg. generalize 0. induction image_files as [|[path img] r IH]; intros k;
      cbn; [lia |].
    destruct img; cbn; specialize (IH (k + 1)); lia.
  - intros i f Hf. destruct (track_loop_frames 0 image_files i f Hf) as (Hb & Ht & Hall).
    split; [lia | split].
    + intros t Hin. by apply Ht.
    + intros HF. rewrite Hall by done. lia.
  - apply track_loop_increasing.
Qed.

(** ** The statistics of a run *)

Lemma stitching_step_stats fuel h results h' stitched stats :
  Run.stitching_step fuel h results = Ok (h', stitched, stats) ->
  stitched = results /\
  original_unique_ids stats = stitched_unique_ids stats /\
  0 < original_unique_ids stats /\
  ids_merged stats = 0 /\ (reduction_percentage stats == 0)%Q.
Proof.
  unfold Run.stitching_step.
  destruct (stitch_tracks fuel run_config h results) as [[h1 st1] | |] eqn:Hst;
    cbn; [| done | done].
  unfold stitch_tracks in Hst.
  destruct (_find_merge_candidates _ _ _) as [m | |]; cbn in Hst; [| done | done].
  apply apply_id_mapping_shares in Hst as ->.
  unfold get_statistics, py_div.
  destruct (Qeq_bool _ 0) eqn:Hz; cbn; [done |].
  intros [= <- <- <-]. cbn. apply Qeq_bool_neq in Hz.
  fold (deref_all h1 results). split_and!; try done.
  - pose proof (count_unique_ids_size (deref_all h1 results)) as Hn.
    destruct (decide (count_unique_ids (deref_all h1 results) = 0)) as [H0 | H0]; [| lia].
    exfalso. apply Hz. by rewrite H0.
  - lia.
  - rewrite Z.sub_diag. change (inject_Z 0) with 0%Q.
    unfold Qdiv. by rewrite !Qmult_0_l.
Qed.

(** X16.  Whenever [process_sequence] returns stitching statistics,
    they report no merged id, a reduction of 0 percent and the same
    number of ids before and after, whatever the stitcher has merged:
    both numbers are read after the stitcher has rewritten the track
    dictionaries both lists share. *)
Theorem statistics_in_run_report_no_merge (fuel : nat) (line_start line_end : Pos)
    (mf : Z) (hl : nat) (max_frames : option Z) (image_files : list (string * bool))
    (h : heap) (results : list FrameRef) (out : Run.Outcome) (stats : Statistics) :
  Run.process_sequence fuel line_start line_end mf hl Run.botsort true max_frames
    image_files h results = Ok out ->
  Run.stitching_stats out = Some stats ->
  ids_merged stats = 0 /\
  (reduction_percentage stats == 0)%Q /\
  stitched_unique_ids stats = original_unique_ids stats.
Proof.
  unfold Run.process_sequence.
  destruct (Run.stitching_step fuel h (limit_frames max_frames results))
    as [[[h1 st1] s1] | |] eqn:Hstep; cbn; [| done | done].
  destruct (Run.visualization_step _ _ _ _) as [video | |]; cbn; [| done | done].
  intros [= <-]. cbn. intros [= <-].
  apply stitching_step_stats in Hstep as (_ & Heq & _ & Hm & Hr). by rewrite Heq.
Qed.

(** ** From the tracker to the report *)

Lemma alloc_spec (fs : list FrameData) (h0 : heap) :
  let h := fst (alloc h0 fs) in
  let rs := snd (alloc h0 fs) in
  h = h0 ++ concat (map tracks fs) /\
  all_refs rs = seq (length h0) (length (concat (map tracks fs))) /\
  deref_all h rs = fs.
Proof.
  revert h0. induction fs as [|f fs IH]; intros h0; cbn.
  - by rewrite app_nil_r.
  - specialize (IH (h0 ++ tracks f)).
    destruct (alloc (h0 ++ tracks f) fs) as [h rs] eqn:Ha. cbn in IH |- *.
    destruct IH as (Hh & Hrefs & Hderef). split_and!.
    + by rewrite Hh, <- app_assoc.
    + unfold all_refs in Hrefs |- *. cbn [map concat r_tracks].
      rewrite Hrefs, !length_app, seq_app. done.
    + rewrite Hderef. f_equal. unfold deref. cbn. destruct f as [n p ts]. cbn. f_equal.
      rewrite Hh. clear. unfold heap in *.
      assert (Hgen : forall (pre ts post : list Track),
                 omap (fun l : nat => (pre ++ ts ++ post) !! l)
                      (seq (length pre) (length ts)) = ts).
      { intros pre ts0. revert pre. induction ts0 as [|t ts0 IHt]; intros pre post; [done |].
        cbn [length seq]. change (omap ?f (?x :: ?l)) with
          (match f x with Some y => y :: omap f l | None => omap f l end).
        cbv beta. change ((t :: ts0) ++ post) with (t :: (ts0 ++ post)).
        rewrite (list_lookup_middle pre (ts0 ++ post) t (length pre) eq_refl).
        f_equal.
        specialize (IHt (pre ++ [t]) post). rewrite length_app in IHt. cbn [length] in IHt.
        rewrite Nat.add_1_r, <- app_assoc in IHt. exact IHt. }
      rewrite <- app_assoc. apply Hgen.
Qed.

Lemma alloc_NoDup (fs : list FrameData) : NoDup (all_refs (snd (alloc [] fs))).
Proof.
  destruct (alloc_spec fs []) as (_ & -> & _). apply NoDup_seq.
Qed.

Lemma alloc_deref (fs : list FrameData) :
  deref_all (fst (alloc [] fs)) (snd (alloc [] fs)) = fs.
Proof. by destruct (alloc_spec fs []) as (_ & _ & ?). Qed.

Lemma ids_of_empty results : ids_of results = ∅ <-> observations results = [].
Proof.
  split.
  - intros He. destruct (observations results) as [|[n t] obs] eqn:Ho; [done |].
    exfalso. apply (not_elem_of_empty (C := gset Z) (track_id t)). rewrite <- He.
    apply elem_of_ids_of. exists n, t. rewrite Ho. split; [left | done].
  - intros Ho. unfold ids_of. by rewrite Ho.
Qed.

Lemma count_unique_ids_zero results :
  count_unique_ids results = 0 <-> observations results = [].
Proof.
  rewrite count_unique_ids_size, <- ids_of_empty. split.
  - intros Hz. apply leibniz_equiv, size_empty_iff. lia.
  - intros ->. by rewrite size_empty.
Qed.

Lemma track_sequence_sound_input image_files results :
  track_sequence image_files = Some results ->
  forall f, f ∈ results -> 1 <= frame f.
Proof.
  unfold track_sequence. destruct image_files as [|p rest] eqn:Himg; [done |].
  rewrite <- Himg. intros [= <-] f Hf.
  apply list_elem_of_lookup in Hf as [i Hi].
  destruct (track_loop_frames 0 image_files i f Hi) as (Hb & _). lia.
Qed.

Lemma alloc_length (fs : list FrameData) (h0 : heap) :
  length (snd (alloc h0 fs)) = length fs.
Proof.
  revert h0. induction fs as [|f fs IH]; intros h0; [done |].
  cbn [alloc]. specialize (IH (h0 ++ tracks f)).
  destruct (alloc (h0 ++ tracks f) fs) as [h1 rs]. cbn in IH |- *. by rewrite IH.
Qed.

Lemma track_loop_all_readable k image_files :
  Forall (fun pi => snd pi <> Unreadable) image_files ->
  length (track_loop k image_files) = length image_files.
Proof.
  intros Hall. revert k. induction Hall as [|[path img] rest Hx Hall IH]; intros k; [done |].
  cbn in Hx |- *. destruct img; [done | |]; cbn; by rewrite IH.
Qed.

Lemma visualization_step_Ok image_files results events video :
  Run.visualization_step image_files results events None = Ok video ->
  image_files <> [] /\ Forall (fun pi => snd pi = true) image_files.
Proof.
  unfold Run.visualization_step. change (limit_frames None image_files) with image_files.
  destruct image_files as [|[path b] rest]; [done |].
  destruct b; [| done]. cbn [forallb snd andb].
  destruct (forallb snd rest) eqn:Hrest; [| done].
  intros _. split; [done |]. constructor; [done |].
  apply Forall_forall. intros x Hx. rewrite forallb_forall in Hrest.
  apply Hrest. by apply list_elem_of_In.
Qed.

Lemma video_files_readable image_files :
  Forall (fun pi => snd pi = true) (Run.video_files image_files) ->
  Forall (fun pi => snd pi <> Unreadable) image_files.
Proof.
  unfold Run.video_files. rewrite Forall_fmap. intros Hall.
  eapply Forall_impl; [exact Hall |].
  intros [path img]. cbn. by destruct img.
Qed.

(** X17.  [process_sequence] with BoT-SORT and stitching on what the
    tracker returns for the images of a folder, the video being made of
    the same images: when the tracker found no track in any frame the
    run stops with the [ZeroDivisionError] of [get_statistics]; and
    whenever the run returns, every image of the folder could be read,
    the frames are numbered from 1 without a gap, [num_frames] is the
    number of images, the results are the list passed in, and the
    statistics count at least one id, the same number before and after
    stitching. *)
Theorem run_on_tracker_output (fuel : nat) (line_start line_end : Pos)
    (mf : Z) (hl : nat) (image_files : list (string * Image))
    (results : list FrameData) :
  track_sequence image_files = Some results ->
  let h := fst (alloc [] results) in
  let refs := snd (alloc [] results) in
  let report :=
    Run.process_sequence fuel line_start line_end mf hl Run.botsort true None
      (Run.video_files image_files) h refs in
  (observations results = [] -> report = Raise ZeroDivisionError) /\
  (forall out, report = Ok out ->
     Forall (fun pi => snd pi <> Unreadable) image_files /\
     (forall (i : nat) (f : FrameData),
        results !! i = Some f -> frame f = Z.of_nat i + 1) /\
     Run.num_frames out = Z.of_nat (length image_files) /\
     Run.tracking_results out = refs /\
     exists stats, Run.stitching_stats out = Some stats /\
       0 < stitched_unique_ids stats /\
       stitched_unique_ids stats = original_unique_ids stats).
Proof.
  intros Htr h refs report.
  pose proof (alloc_deref results) as Hderef. fold h refs in Hderef.
  pose proof (alloc_NoDup results) as Hnd. fold refs in Hnd.
  subst report. unfold Run.process_sequence.
  change (limit_frames None refs) with refs.
  split.
  - intros Hnone.
    assert (Hfind : _find_merge_candidates fuel run_config (_build_track_segments results)
                    = Ok ∅).
    { rewrite build_observations, Hnone.
      change (observe_all ∅ []) with (∅ : gmap Z Segment).
      unfold _find_merge_candidates. by rewrite sorted_keys_empty. }
    assert (Hst : exists h' stitched,
               stitch_tracks fuel run_config h refs = Ok (h', stitched)).
    { unfold stitch_tracks. rewrite Hderef, Hfind. cbn.
      unfold _apply_id_mapping. rewrite expanded_empty. cbn.
      destruct (foldl _ _ _) as [h' st]. by eauto. }
    destruct Hst as (h' & stitched & Hst).
    destruct (stitch_tracks_values _ _ _ _ _ _ Hnd Hst) as (m & _ & Hvals).
    rewrite Hderef in Hvals.
    assert (Hshare : stitched = refs).
    { pose proof Hst as Hshare. unfold stitch_tracks in Hshare.
      rewrite Hderef, Hfind in Hshare. cbn in Hshare.
      by apply apply_id_mapping_shares in Hshare. }
    subst stitched.
    assert (Hcount : count_unique_ids (deref_all h' refs) = 0).
    { by rewrite count_unique_ids_zero, Hvals, observations_map_tracks, Hnone. }
    unfold Run.stitching_step. rewrite Hst. cbn.
    unfold get_statistics, py_div. fold (deref_all h' refs). by rewrite Hcount.
  - intros out.
    destruct (Run.stitching_step fuel h refs) as [[[h1 st1] s1] | |] eqn:Hstep;
      cbn; [| done | done].
    destruct (Run.visualization_step _ _ _ _) as [video | |] eqn:Hvideo;
      cbn; [| done | done].
    intros [= <-]. cbn.
    apply stitching_step_stats in Hstep as (-> & Heq & Hpos & _ & _).
    apply visualization_step_Ok in Hvideo as [_ Hread].
    apply video_files_readable in Hread.
    pose proof Htr as Hloop. unfold track_sequence in Hloop.
    destruct image_files as [|p rest] eqn:Himg; [done |]. rewrite <- Himg in *.
    injection Hloop as <-.
    split_and!.
    + done.
    + intros i f Hf.
      destruct (track_loop_frames 0 image_files i f Hf) as (_ & _ & Hall).
      rewrite Hall by done. lia.
    + unfold refs. by rewrite alloc_length, track_loop_all_readable.
    + done.
    + exists s1. split; [done |]. split; [lia | done].
Qed.

(** ** The video *)

Lemma group_events_lookup events k :
  group_events events !! k
  = match List.filter (at_frame k) events with
    | [] => None
    | e :: evs => Some (e :: evs)
    end.
Proof.
  unfold group_events. induction events as [|ev events IH] using rev_ind.
  - cbn. by rewrite lookup_empty.
  - rewrite foldl_app, List.filter_app. cbn [foldl List.filter].
    set (m := foldl group_event ∅ events) in *.
    unfold group_event, at_frame at 2.
    destruct (decide (ev_frame ev = k)) as [-> | Hne].
    + rewrite Z.eqb_refl, lookup_insert_eq.
      destruct (m !! k) as [l|] eqn:Hm.
      * rewrite Hm. cbn. destruct (List.filter (at_frame k) events); [done |].
        by injection IH as ->.
      * rewrite lookup_insert_eq. cbn.
        by destruct (List.filter (at_frame k) events).
    + assert ((ev_frame ev =? k) = false) as -> by lia.
      rewrite app_nil_r, lookup_insert_ne by done.
      destruct (m !! ev_frame ev); [done |]. by rewrite lookup_insert_ne.
Qed.

Lemma count_events_totals st evs :
  let st' := foldl count_event st evs in
  v_count_in st' = v_count_in st + ins evs /\
  v_count_out st' = v_count_out st + outs evs /\
  track_trails st' = track_trails st.
Proof.
  revert st. induction evs as [|e evs IH]; intros st; cbn [foldl].
  - unfold ins, outs. cbn. split_and!; [lia | lia | done].
  - destruct (IH (count_event st e)) as (Hi & Ho & Ht). cbn zeta. rewrite Hi, Ho, Ht.
    unfold count_event, ins, outs, is_IN, is_OUT. cbn [List.filter].
    destruct (ev_direction e); cbn [length v_count_in v_count_out track_trails];
      split_and!; try done; lia.
Qed.

Lemma ins_outs_cons e evs :
  ins (e :: evs) = bump IN (ev_direction e) + ins evs /\
  outs (e :: evs) = bump OUT (ev_direction e) + outs evs.
Proof.
  unfold ins, outs, is_IN, is_OUT. cbn [List.filter].
  destruct (ev_direction e); cbn [length bump]; lia.
Qed.

Lemma up_to_frame_step (k : Z) events :
  0 <= k ->
  ins (List.filter (up_to_frame (k + 1)) events)
  = ins (List.filter (up_to_frame k) events) + ins (List.filter (at_frame (k + 1)) events) /\
  outs (List.filter (up_to_frame (k + 1)) events)
  = outs (List.filter (up_to_frame k) events) + outs (List.filter (at_frame (k + 1)) events).
Proof.
  intros Hk. induction events as [|e evs [IHi IHo]]; [done |].
  cbn [List.filter].
  assert (Hcases : up_to_frame (k + 1) e = up_to_frame k e || at_frame (k + 1) e)
    by (unfold up_to_frame, at_frame; lia).
  assert (Hexcl : up_to_frame k e && at_frame (k + 1) e = false)
    by (unfold up_to_frame, at_frame; lia).
  destruct (up_to_frame (k + 1) e), (up_to_frame k e), (at_frame (k + 1) e);
    try discriminate; clear Hcases Hexcl.
  all: repeat match goal with
       | |- context [ins (?x :: ?l)] => destruct (ins_outs_cons x l) as [-> _]
       | |- context [outs (?x :: ?l)] => destruct (ins_outs_cons x l) as [_ ->]
       end; lia.
Qed.

Lemma push_trail_lastn (l : list Pos) (c : Pos) :
  (if (30 <? length (lastn 30 l ++ [c]))%nat
   then drop 1 (lastn 30 l ++ [c]) else lastn 30 l ++ [c])
  = lastn 30 (l ++ [c]).
Proof.
  rewrite <- deque_append_lastn. unfold deque_append.
  pose proof (lastn_length 30 l) as Hlen.
  rewrite length_app. cbn [length].
  destruct (30 <? length (lastn 30 l) + 1)%nat eqn:Hlt.
  - apply Nat.ltb_lt in Hlt. f_equal. lia.
  - apply Nat.ltb_ge in Hlt.
    replace (length (lastn 30 l) + 1 - 30)%nat with 0%nat by lia. done.
Qed.

Lemma update_trail_spec (cs : Z -> list Pos) (trails : gmap Z (list Pos)) (t : Track) :
  (forall tid, trails !! tid = trail_of (cs tid)) ->
  forall tid,
    update_trail trails t !! tid
    = trail_of (cs tid ++ (if track_id t =? tid then [center t] else [])).
Proof.
  intros Hinv tid. unfold update_trail.
  destruct (decide (track_id t = tid)) as [<- | Hne].
  - rewrite Z.eqb_refl, lookup_insert_eq.
    assert (Hold : default [] (match trails !! track_id t with
                               | None => <[track_id t := []]> trails
                               | Some _ => trails
                               end !! track_id t) = lastn 30 (cs (track_id t))).
    { specialize (Hinv (track_id t)).
      destruct (trails !! track_id t) as [l|] eqn:Hl.
      - rewrite Hl. cbn. destruct (cs (track_id t)); [done |]. by injection Hinv as ->.
      - rewrite lookup_insert_eq. cbn. by destruct (cs (track_id t)). }
    rewrite Hold, push_trail_lastn.
    by destruct (cs (track_id t)).
  - assert ((track_id t =? tid) = false) as -> by lia.
    rewrite app_nil_r, lookup_insert_ne by done.
    destruct (trails !! track_id t); [done |]. by rewrite lookup_insert_ne.
Qed.

Lemma update_trails_spec (ts : list Track) :
  forall (cs : Z -> list Pos) (trails : gmap Z (list Pos)),
    (forall tid, trails !! tid = trail_of (cs tid)) ->
    forall tid,
      foldl update_trail trails ts !! tid
      = trail_of (cs tid ++ map center (List.filter (fun t => track_id t =? tid) ts)).
Proof.
  induction ts as [|t ts IH]; intros cs trails Hinv tid; cbn [foldl List.filter map].
  - by rewrite app_nil_r.
  - rewrite (IH (fun tid => cs tid ++ (if track_id t =? tid then [center t] else []))).
    + destruct (track_id t =? tid); cbn [map]; by rewrite <- app_assoc.
    + by apply update_trail_spec.
Qed.

Lemma centers_of_step tid results k :
  centers_of tid results (S k)
  = centers_of tid results k
    ++ map center (List.filter (fun t => track_id t =? tid) (tracks_at results k)).
Proof.
  unfold centers_of, tracks_at.
  destruct (results !! k) as [f|] eqn:Hk.
  - rewrite (take_S_r _ _ _ Hk). unfold observations.
    rewrite map_app, concat_app, List.filter_app, map_app. cbn [map concat].
    rewrite app_nil_r. f_equal.
    generalize (tracks f). intros ts. induction ts as [|t ts IH]; [done |].
    cbn [map List.filter snd]. destruct (track_id t =? tid); cbn [map]; by rewrite IH.
  - apply lookup_ge_None in Hk. rewrite !take_ge by lia. cbn. by rewrite app_nil_r.
Qed.

Lemma video_inv_start results events :
  video_inv results events 0 {| track_trails := ∅; v_count_in := 0; v_count_out := 0 |}.
Proof.
  assert (Hnone : List.filter (up_to_frame (Z.of_nat 0)) events = []).
  { induction events as [|e evs IH]; [done |]. cbn [List.filter].
    unfold up_to_frame at 1. change (Z.of_nat 0) with 0.
    destruct (1 <=? ev_frame e) eqn:H1, (ev_frame e <=? 0) eqn:H2; cbn [andb];
      try exact IH. lia. }
  unfold video_inv. rewrite Hnone. split_and!; done.
Qed.

Lemma video_step_inv results events idx st :
  video_inv results events idx st ->
  let r := video_step results (group_events events) idx st in
  video_inv results events (S idx) (fst r) /\
  panel_frame (snd r) = Z.of_nat idx + 1 /\
  panel_in (snd r) = v_count_in (fst r) /\
  panel_out (snd r) = v_count_out (fst r) /\
  panel_active (snd r) = Z.of_nat (length (tracks_at results idx)).
Proof.
  intros (Hin & Hout & Htr). unfold video_step. cbn zeta. cbn [fst snd].
  split; [| by cbn].
  destruct (up_to_frame_step (Z.of_nat idx) events ltac:(lia)) as [Hi Ho].
  unfold video_inv. replace (Z.of_nat (S idx)) with (Z.of_nat idx + 1) by lia.
  assert (Htrails : forall tid,
             foldl update_trail (track_trails st) (tracks_at results idx) !! tid
             = trail_of (centers_of tid results (S idx))).
  { intros tid. rewrite centers_of_step.
    exact (update_trails_spec (tracks_at results idx)
             (fun tid => centers_of tid results idx) (track_trails st) Htr tid). }
  rewrite group_events_lookup.
  destruct (List.filter (at_frame (Z.of_nat idx + 1)) events) as [|e evs] eqn:Hf.
  - cbn [v_count_in v_count_out track_trails].
    rewrite Hi, Ho, Hin, Hout.
    change (ins []) with 0. change (outs []) with 0. split_and!; [lia | lia | done].
  - match goal with |- context [foldl count_event ?s ?l] =>
      destruct (count_events_totals s l) as (Hci & Hco & Hct) end.
    cbn zeta in Hci, Hco, Hct. cbn [v_count_in v_count_out track_trails] in Hci, Hco, Hct.
    rewrite Hci, Hco, Hct, Hi, Ho, Hin, Hout.
    split_and!; [done | done | done].
Qed.

Lemma video_loop_spec results events image_files :
  forall (idx : nat) (st : VideoState),
    video_inv results events idx st ->
    let frames := video_loop results (group_events events) idx image_files st in
    length frames = length image_files /\
    forall (k : nat) (panel : Panel) (trails : gmap Z (list Pos)),
      frames !! k = Some (panel, trails) ->
      panel_frame panel = Z.of_nat (idx + k) + 1 /\
      panel_in panel = ins (List.filter (up_to_frame (Z.of_nat (idx + k) + 1)) events) /\
      panel_out panel = outs (List.filter (up_to_frame (Z.of_nat (idx + k) + 1)) events) /\
      panel_active panel = Z.of_nat (length (tracks_at results (idx + k))) /\
      forall tid, trails !! tid = trail_of (centers_of tid results (S (idx + k))).
Proof.
  induction image_files as [|p rest IH]; intros idx st Hinv; cbn [video_loop].
  - split; [done |]. intros k panel trails Hk. by rewrite lookup_nil in Hk.
  - destruct (video_step_inv results events idx st Hinv) as (Hinv' & Hf & Hi & Ho & Ha).
    destruct (video_step results (group_events events) idx st) as [st' pn] eqn:Hstep.
    cbn [fst snd] in Hinv', Hf, Hi, Ho, Ha.
    destruct (IH (S idx) st' Hinv') as [Hlen Hrest]. cbn zeta.
    split; [cbn [length]; by rewrite Hlen |].
    intros [|k] panel trails Hk.
    + cbn in Hk. injection Hk as <- <-. rewrite Nat.add_0_r.
      destruct Hinv' as (Hci & Hco & Htr).
      replace (Z.of_nat (S idx)) with (Z.of_nat idx + 1) in Hci, Hco by lia.
      rewrite Hf, Hi, Ho, Ha, Hci, Hco. done.
    + cbn in Hk. replace (idx + S k)%nat with (S idx + k)%nat by lia.
      by apply Hrest.
Qed.

Lemma create_video_spec (image_files : list string)
    (tracking_results : list FrameData) (events : list Event)
    (max_frames : option Z) (frames : list (Panel * gmap Z (list Pos))) :
  create_video image_files tracking_results events max_frames = Some frames ->
  length frames = length (limit_frames max_frames image_files) /\
  forall (k : nat) (panel : Panel) (trails : gmap Z (list Pos)),
    frames !! k = Some (panel, trails) ->
    panel_frame panel = Z.of_nat k + 1 /\
    panel_in panel = ins (List.filter (up_to_frame (Z.of_nat k + 1)) events) /\
    panel_out panel = outs (List.filter (up_to_frame (Z.of_nat k + 1)) events) /\
    panel_active panel = Z.of_nat (length (tracks_at tracking_results k)) /\
    forall tid, trails !! tid = trail_of (centers_of tid tracking_results (S k)).
Proof.
  unfold create_video.
  destruct (limit_frames max_frames image_files) as [|p rest] eqn:Hl; [done |].
  intros Hc. apply (inj Some) in Hc. subst frames.
  destruct (video_loop_spec tracking_results events (p :: rest) 0
              {| track_trails := ∅; v_count_in := 0; v_count_out := 0 |})
    as [Hlen Hall].
  { apply video_inv_start. }
  split; [done |]. intros k panel trails Hk.
  exact (Hall k panel trails Hk).
Qed.

(** X18.  [create_video] draws one panel per image it uses; the panel
    on the image of index [k] shows frame [k + 1], as IN and OUT the
    numbers of IN and OUT events whose frame number lies between 1 and
    [k + 1], and as active tracks the number of tracks of the entry at
    position [k] of the tracking results, 0 beyond their end. *)
Theorem video_panels_follow_the_events
    (image_files : list string) (tracking_results : list FrameData)
    (events : list Event) (max_frames : option Z)
    (frames : list (Panel * gmap Z (list Pos))) :
  create_video image_files tracking_results events max_frames = Some frames ->
  length frames = length (limit_frames max_frames image_files) /\
  forall (k : nat) (panel : Panel) (trails : gmap Z (list Pos)),
    frames !! k = Some (panel, trails) ->
    panel_frame panel = Z.of_nat k + 1 /\
    panel_in panel = ins (List.filter (up_to_frame (Z.of_nat k + 1)) events) /\
    panel_out panel = outs (List.filter (up_to_frame (Z.of_nat k + 1)) events) /\
    panel_active panel = Z.of_nat (length (tracks_at tracking_results k)).
Proof.
  intros Hvideo. destruct (create_video_spec _ _ _ _ _ Hvideo) as [Hlen Hall].
  split; [done |]. intros k panel trails Hk.
  destruct (Hall k panel trails Hk) as (Hf & Hi & Ho & Ha & _). done.
Qed.

(** X19.  After the image of index [k], the trail of a track holds
    the last 30 centres of its id in the first [k + 1] entries of the
    tracking results; a track not seen so far has no trail, and a trail
    has between 1 and 30 points. *)
Theorem video_trails_hold_recent_centers
    (image_files : list string) (tracking_results : list FrameData)
    (events : list Event) (max_frames : option Z)
    (frames : list (Panel * gmap Z (list Pos)))
    (k : nat) (panel : Panel) (trails : gmap Z (list Pos)) (tid : Z) :
  create_video image_files tracking_results events max_frames = Some frames ->
  frames !! k = Some (panel, trails) ->
  let cs := centers_of tid tracking_results (S k) in
  trails !! tid = (if decide (cs = []) then None else Some (lastn 30 cs)) /\
  forall trail, trails !! tid = Some trail -> (1 <= length trail <= 30)%nat.
Proof.
  intros Hvideo Hk cs.
  destruct (create_video_spec _ _ _ _ _ Hvideo) as [_ Hall].
  destruct (Hall k panel trails Hk) as (_ & _ & _ & _ & Htr).
  specialize (Htr tid). fold cs in Htr. rewrite Htr.
  destruct cs as [|c cs'] eqn:Hcs; cbn [trail_of].
  - split; [done | intros trail; done].
  - split; [by case_decide |]. intros trail [= <-].
    rewrite lastn_length. cbn [length]. lia.
Qed.

Lemma ins_outs_filter_le (p : Event -> bool) evs :
  ins (List.filter p evs) <= ins evs /\ outs (List.filter p evs) <= outs evs.
Proof.
  induction evs as [|e evs [IHi IHo]]; [done |]. cbn [List.filter].
  destruct (ins_outs_cons e evs) as [Hi Ho].
  destruct (p e).
  - destruct (ins_outs_cons e (List.filter p evs)) as [-> ->]. lia.
  - destruct (ev_direction e); cbn [bump] in Hi, Ho; lia.
Qed.

Lemma filter_all {A} (p : A -> bool) (l : list A) :
  (forall x, x ∈ l -> p x = true) -> List.filter p l = l.
Proof.
  induction l as [|x l IH]; intros Hall; [done |]. cbn [List.filter].
  rewrite (Hall x) by left. f_equal. apply IH. intros y Hy. apply Hall. by right.
Qed.

(** X20.  With the events of a counter started fresh and run over the
    tracking results, no panel of the video shows more than the totals
    of the summary, and when every frame number of the results lies
    between 1 and the number of images used, the last panel shows
    exactly [total_in] and [total_out]. *)
Theorem video_ends_on_report_totals
    (ls le : Pos) (mf : Z) (hl : nat)
    (image_files : list string) (tracking_results : list FrameData)
    (max_frames : option Z) (frames : list (Panel * gmap Z (list Pos))) :
  let counter := process_all (init ls le mf hl) tracking_results in
  create_video image_files tracking_results (get_events counter) max_frames
    = Some frames ->
  (forall k panel trails, frames !! k = Some (panel, trails) ->
     0 <= panel_in panel <= total_in (get_summary counter) /\
     0 <= panel_out panel <= total_out (get_summary counter)) /\
  ((forall f, f ∈ tracking_results ->
      1 <= frame f <= Z.of_nat (length (limit_frames max_frames image_files))) ->
   exists panel trails,
     last frames = Some (panel, trails) /\
     panel_in panel = total_in (get_summary counter) /\
     panel_out panel = total_out (get_summary counter)).
Proof.
  intros counter Hvideo.
  destruct (create_video_spec _ _ _ _ _ Hvideo) as [Hlen Hpanels].
  destruct (process_all_log (init ls le mf hl) tracking_results (init_log ls le mf hl))
    as (Hin & Hout & _). fold counter in Hin, Hout.
  unfold get_summary, get_events in *. cbn [total_in total_out].
  split.
  - intros k panel trails Hk.
    destruct (Hpanels k panel trails Hk) as (_ & -> & -> & _).
    rewrite Hin, Hout.
    destruct (ins_outs_filter_le (up_to_frame (Z.of_nat k + 1)) (events counter)).
    pose proof (ins_nonneg (List.filter (up_to_frame (Z.of_nat k + 1)) (events counter))).
    pose proof (outs_nonneg (List.filter (up_to_frame (Z.of_nat k + 1)) (events counter))).
    lia.
  - intros Hrange.
    assert (Hne : frames <> []).
    { unfold create_video in Hvideo.
      destruct (limit_frames max_frames image_files); [done |].
      intros ->. cbn in Hlen. lia. }
    destruct (last frames) as [[panel trails]|] eqn:Hlast.
    2: { by apply last_None in Hlast. }
    exists panel, trails. split; [done |].
    rewrite last_lookup in Hlast.
    destruct (Hpanels _ panel trails Hlast) as (_ & -> & -> & _).
    rewrite Hin, Hout.
    assert (Hk : Z.of_nat (pred (length frames)) + 1 = Z.of_nat (length frames)).
    { destruct frames; [done | cbn [length]; lia]. }
    rewrite Hk, Hlen.
    rewrite filter_all; [done |].
    intros e He.
    assert (Hfrom : events_from (observations tracking_results) (events counter)).
    { unfold counter. rewrite track_all_results.
      apply (events_from_all (observations tracking_results) [] (init ls le mf hl)).
      intros e0 He0. cbn in He0. by apply elem_of_nil in He0. }
    destruct (Hfrom e He) as (n & t & Hobs & Hf & _).
    apply elem_of_observations in Hobs as (f & Hfin & Hfr & _).
    specialize (Hrange f Hfin). unfold up_to_frame. lia.
Qed.

(** ** Instances of the hypotheses *)

(** The counter of [doorway] has a cooldown of 30 frames. *)
Lemma events_of_a_track_are_spaced_witness :
  0 <= 30 /\ spaced 30 (events (process_all (init (IntPos 0 0) (IntPos 0 100) 30 10) doorway_frames)).
Proof.
  assert (H : 0 <= 30) by lia.
  split; [exact H |].
  exact (events_of_a_track_are_spaced (IntPos 0 0) (IntPos 0 100) 30 10 doorway_frames H).
Defined.

(** A history of one sample on the frames of [doorway_frames]. *)
Lemma short_history_never_counts_witness :
  (1 <= 1)%nat /\
  events (process_all (init (IntPos 0 0) (IntPos 0 100) 30 1) doorway_frames) = [].
Proof.
  assert (H : (1 <= 1)%nat) by lia.
  split; [exact H |].
  exact (proj1 (short_history_never_counts (IntPos 0 0) (IntPos 0 100) 30 1 doorway_frames H)).
Defined.

(** The builder returns [fragment_two] for track 2 of [two_fragments]. *)
Lemma segment_extents_witness :
  _build_track_segments two_fragments !! 2 = Some fragment_two /\
  frames fragment_two = frames_of 2 (observations two_fragments).
Proof.
  assert (H : _build_track_segments two_fragments !! 2 = Some fragment_two)
    by (vm_compute; reflexivity).
  split; [exact H |].
  exact (proj1 (segment_extents two_fragments 2 fragment_two H)).
Defined.

(** On [two_fragments] track 2 is merged into track 1. *)
Lemma slaves_are_the_mergeable_tracks_witness :
  all_well_formed (_build_track_segments two_fragments) /\
  _find_merge_candidates 10 run_config (_build_track_segments two_fragments)
    = Ok {[ 2 := 1 ]} /\
  exists earlier seg_e seg_s,
    _build_track_segments two_fragments !! earlier = Some seg_e /\
    _build_track_segments two_fragments !! 2 = Some seg_s /\
    precedes seg_e seg_s /\
    mergeable run_config seg_e seg_s (bool_decide (earlier < 2)).
Proof.
  assert (H1 : all_well_formed (_build_track_segments two_fragments))
    by exact (build_well_formed two_fragments two_fragments_frames).
  assert (H2 : _find_merge_candidates 10 run_config (_build_track_segments two_fragments)
               = Ok {[ 2 := 1 ]}) by (vm_compute; reflexivity).
  split_and!; [exact H1 | exact H2 |].
  apply (slaves_are_the_mergeable_tracks 10 run_config _ _ H1 H2 2).
  exists 1. vm_compute. reflexivity.
Defined.

Lemma crowded_frames : forall f, f ∈ crowded -> 1 <= frame f.
Proof. frames_from_one. Qed.

(** On [crowded] the entry of track 3 comes from track 2, the largest
    id among the tracks that pass the tests with it. *)
Lemma find_merge_candidates_entries_witness :
  all_well_formed (_build_track_segments crowded) /\
  _find_merge_candidates 10 run_config (_build_track_segments crowded)
    = Ok {[ 3 := 2 ]} /\
  exists earlier seg_e seg_s,
    _build_track_segments crowded !! earlier = Some seg_e /\
    _build_track_segments crowded !! 3 = Some seg_s /\
    precedes seg_e seg_s /\
    mergeable run_config seg_e seg_s (bool_decide (earlier < 3)) /\
    forall other seg_o,
      _build_track_segments crowded !! other = Some seg_o -> precedes seg_o seg_s ->
      mergeable run_config seg_o seg_s (bool_decide (other < 3)) -> other <= earlier.
Proof.
  assert (H1 : all_well_formed (_build_track_segments crowded))
    by exact (build_well_formed crowded crowded_frames).
  assert (H2 : _find_merge_candidates 10 run_config (_build_track_segments crowded)
               = Ok {[ 3 := 2 ]}) by (vm_compute; reflexivity).
  assert (H3 : ({[ 3 := 2 ]} : gmap Z Z) !! 3 = Some 2) by (vm_compute; reflexivity).
  split_and!; [exact H1 | exact H2 |].
  destruct (proj1 (proj1 (find_merge_candidates_entries 10 run_config _ _ H1 H2) 3 2) H3)
    as (earlier & seg_e & seg_s & pre & post & m_pre & He & Hs & Hpre & Hmg & Hmax & _).
  exists earlier, seg_e, seg_s. split_and!; [exact He | exact Hs | exact Hpre | exact Hmg |].
  exact Hmax.
Defined.

(** The entry of track 2 in the merge map of [two_fragments]. *)
Lemma merge_map_entries_point_back_witness :
  all_well_formed (_build_track_segments two_fragments) /\
  (size (_build_track_segments two_fragments) <= 10)%nat /\
  _find_merge_candidates 10 run_config (_build_track_segments two_fragments)
    = Ok {[ 2 := 1 ]} /\
  ({[ 2 := 1 ]} : gmap Z Z) !! 2 = Some 1 /\
  exists seg_s seg_m,
    _build_track_segments two_fragments !! 2 = Some seg_s /\
    _build_track_segments two_fragments !! 1 = Some seg_m /\
    precedes seg_m seg_s.
Proof.
  assert (H1 : all_well_formed (_build_track_segments two_fragments))
    by exact (build_well_formed two_fragments two_fragments_frames).
  assert (H2 : (size (_build_track_segments two_fragments) <= 10)%nat)
    by (vm_compute; lia).
  assert (H3 : _find_merge_candidates 10 run_config (_build_track_segments two_fragments)
               = Ok {[ 2 := 1 ]}) by (vm_compute; reflexivity).
  assert (H4 : ({[ 2 := 1 ]} : gmap Z Z) !! 2 = Some 1) by (vm_compute; reflexivity).
  split_and!; [exact H1 | exact H2 | exact H3 | exact H4 |].
  exact (proj2 (merge_map_entries_point_back 10 run_config _ _ H1 H2 H3 2 1 H4)).
Defined.

(** The chain 2, 1, 3 of [three_fragments] is flattened. *)
Lemma expanded_map_is_flat_witness :
  all_well_formed (_build_track_segments three_fragments) /\
  (size (_build_track_segments three_fragments) <= 10)%nat /\
  _find_merge_candidates 10 short_gap_config (_build_track_segments three_fragments)
    = Ok {[ 1 := 3; 2 := 1 ]} /\
  exists expanded_map,
    expanded 10 {[ 1 := 3; 2 := 1 ]} = Ok expanded_map /\
    forall k, is_Some (expanded_map !! k) <-> is_Some (({[ 1 := 3; 2 := 1 ]} : gmap Z Z) !! k).
Proof.
  assert (H1 : all_well_formed (_build_track_segments three_fragments))
    by exact (build_well_formed three_fragments three_fragments_frames).
  assert (H2 : (size (_build_track_segments three_fragments) <= 10)%nat)
    by (vm_compute; lia).
  assert (H3 : _find_merge_candidates 10 short_gap_config
                 (_build_track_segments three_fragments)
               = Ok {[ 1 := 3; 2 := 1 ]}) by (vm_compute; reflexivity).
  split_and!; [exact H1 | exact H2 | exact H3 |].
  destruct (expanded_map_is_flat 10 short_gap_config _ _ H1 H2 H3)
    as (em & Hem & Hkeys & _).
  exists em. split; [exact Hem | exact Hkeys].
Defined.

(** [two_fragments], every track in a cell of its own. *)
Lemma stitch_tracks_relabels_witness :
  NoDup (all_refs (snd (alloc [] two_fragments))) /\
  exists h' stitched,
    stitch_tracks 10 run_config (fst (alloc [] two_fragments))
                  (snd (alloc [] two_fragments)) = Ok (h', stitched) /\
    exists merge_map,
      deref_all h' stitched
      = map (map_tracks (restamped 10 merge_map))
            (deref_all (fst (alloc [] two_fragments)) (snd (alloc [] two_fragments))).
Proof.
  assert (H1 : NoDup (all_refs (snd (alloc [] two_fragments))))
    by exact (alloc_NoDup two_fragments).
  split; [exact H1 |].
  destruct (stitch_tracks 10 run_config (fst (alloc [] two_fragments))
                          (snd (alloc [] two_fragments)))
    as [[h' stitched] | |] eqn:H2; [| by vm_compute in H2 | by vm_compute in H2].
  exists h', stitched. split; [reflexivity |].
  destruct (stitch_tracks_relabels 10 run_config _ _ h' stitched H1 H2)
    as (m & _ & _ & _ & Hm & _).
  exists m. exact Hm.
Defined.

(** [two_fragments] again: two ids before, one merge. *)
Lemma stitching_drops_one_id_per_merge_witness :
  NoDup (all_refs (snd (alloc [] two_fragments))) /\
  (forall f, f ∈ deref_all (fst (alloc [] two_fragments)) (snd (alloc [] two_fragments)) ->
     1 <= frame f) /\
  (size (_build_track_segments
           (deref_all (fst (alloc [] two_fragments)) (snd (alloc [] two_fragments))))
   <= 10)%nat /\
  exists h' stitched,
    stitch_tracks 10 run_config (fst (alloc [] two_fragments))
                  (snd (alloc [] two_fragments)) = Ok (h', stitched) /\
    exists merge_map : gmap Z Z,
      count_unique_ids (deref_all h' stitched)
      = count_unique_ids (deref_all (fst (alloc [] two_fragments))
                                    (snd (alloc [] two_fragments)))
        - Z.of_nat (size merge_map).
Proof.
  assert (H1 : NoDup (all_refs (snd (alloc [] two_fragments))))
    by exact (alloc_NoDup two_fragments).
  assert (H2 : forall f,
             f ∈ deref_all (fst (alloc [] two_fragments)) (snd (alloc [] two_fragments)) ->
             1 <= frame f)
    by (rewrite alloc_deref; exact two_fragments_frames).
  assert (H3 : (size (_build_track_segments
                        (deref_all (fst (alloc [] two_fragments))
                                   (snd (alloc [] two_fragments)))) <= 10)%nat)
    by (vm_compute; lia).
  split_and!; [exact H1 | exact H2 | exact H3 |].
  destruct (stitch_tracks 10 run_config (fst (alloc [] two_fragments))
                          (snd (alloc [] two_fragments)))
    as [[h' stitched] | |] eqn:H4; [| by vm_compute in H4 | by vm_compute in H4].
  exists h', stitched. split; [reflexivity |].
  destruct (stitching_drops_one_id_per_merge 10 run_config _ _ h' stitched H1 H2 H3 H4)
    as (m & _ & Hm & _).
  exists m. exact Hm.
Defined.

Lemma footage_tracks_sound :
  forall f, f ∈ footage_tracks ->
    1 <= frame f /\ forall t, t ∈ tracks f -> positive_area (bbox t).
Proof.
  intros f Hf. unfold footage_tracks in Hf. cbn in Hf.
  repeat (apply elem_of_cons in Hf as [-> | Hf]); [| | | by apply elem_of_nil in Hf].
  all: split; [vm_compute; discriminate | intros t Ht; cbn in Ht].
  all: repeat (apply elem_of_cons in Ht as [-> | Ht]); try (by apply elem_of_nil in Ht).
  all: vm_compute; reflexivity.
Qed.

(** The tracks of [footage] satisfy the hypotheses. *)
Lemma stitch_tracks_succeeds_witness :
  (forall f, f ∈ deref_all (fst (alloc [] footage_tracks)) (snd (alloc [] footage_tracks)) ->
     1 <= frame f /\ forall t, t ∈ tracks f -> positive_area (bbox t)) /\
  (size (_build_track_segments
           (deref_all (fst (alloc [] footage_tracks)) (snd (alloc [] footage_tracks))))
   <= 10)%nat /\
  exists h' stitched,
    stitch_tracks 10 run_config (fst (alloc [] footage_tracks))
                  (snd (alloc [] footage_tracks)) = Ok (h', stitched).
Proof.
  assert (H1 : forall f,
             f ∈ deref_all (fst (alloc [] footage_tracks)) (snd (alloc [] footage_tracks)) ->
             1 <= frame f /\ forall t, t ∈ tracks f -> positive_area (bbox t))
    by (rewrite alloc_deref; exact footage_tracks_sound).
  assert (H2 : (size (_build_track_segments
                        (deref_all (fst (alloc [] footage_tracks))
                                   (snd (alloc [] footage_tracks)))) <= 10)%nat)
    by (vm_compute; lia).
  split_and!; [exact H1 | exact H2 |].
  destruct (stitch_tracks_succeeds 10 run_config _ _ H1 H2) as (h' & stitched & Hst & _).
  exists h', stitched. exact Hst.
Defined.

(** The run on [two_fragments], with one image in the folder, merges
    track 2 into track 1 and reports no merge. *)
Lemma statistics_in_run_report_no_merge_witness :
  exists out stats,
    Run.process_sequence 10 (IntPos 0 0) (IntPos 0 100) 30 10 Run.botsort true None
      [("000001.jpg"%string, true)]
      (fst (alloc [] two_fragments)) (snd (alloc [] two_fragments)) = Ok out /\
    Run.stitching_stats out = Some stats /\
    ids_merged stats = 0.
Proof.
  destruct (Run.process_sequence 10 (IntPos 0 0) (IntPos 0 100) 30 10 Run.botsort true None
              [("000001.jpg"%string, true)]
              (fst (alloc [] two_fragments)) (snd (alloc [] two_fragments)))
    as [out | |] eqn:H1; [| by vm_compute in H1 | by vm_compute in H1].
  destruct (Run.stitching_stats out) as [stats|] eqn:H2.
  2: { exfalso. revert H2. vm_compute in H1. injection H1 as <-. discriminate. }
  exists out, stats. split_and!; [reflexivity | exact H2 |].
  exact (proj1 (statistics_in_run_report_no_merge 10 (IntPos 0 0) (IntPos 0 100) 30 10 None
                  _ _ _ out stats H1 H2)).
Defined.

(** The tracker on [footage]. *)
Lemma track_sequence_numbers_frames_witness :
  track_sequence footage = Some footage_tracks /\
  (length footage_tracks <= length footage)%nat /\
  forall (i j : nat) (f g : FrameData), (i < j)%nat ->
    footage_tracks !! i = Some f -> footage_tracks !! j = Some g -> frame f < frame g.
Proof.
  assert (H : track_sequence footage = Some footage_tracks) by reflexivity.
  destruct (track_sequence_numbers_frames footage footage_tracks H) as (Hlen & _ & Hinc).
  split_and!; [exact H | exact Hlen | exact Hinc].
Defined.

(** The run on the tracks of [footage]: three images, all read. *)
Lemma run_on_tracker_output_witness :
  track_sequence footage = Some footage_tracks /\
  forall out,
    Run.process_sequence 10 (IntPos 0 0) (IntPos 0 100) 30 10 Run.botsort true None
      (Run.video_files footage)
      (fst (alloc [] footage_tracks)) (snd (alloc [] footage_tracks)) = Ok out ->
    Forall (fun pi => snd pi <> Unreadable) footage /\ Run.num_frames out = 3.
Proof.
  assert (H1 : track_sequence footage = Some footage_tracks) by reflexivity.
  split; [exact H1 |]. intros out Hout.
  destruct (proj2 (run_on_tracker_output 10 (IntPos 0 0) (IntPos 0 100) 30 10
                     footage footage_tracks H1) out Hout)
    as (Hread & _ & Hn & _).
  split; [exact Hread | exact Hn].
Defined.

(** The video of [doorway_frames] has two images. *)
Lemma video_panels_follow_the_events_witness :
  create_video doorway_images doorway_frames (get_events doorway_counter) None
    = Some doorway_video /\
  length doorway_video = 2%nat.
Proof.
  assert (H : create_video doorway_images doorway_frames (get_events doorway_counter) None
              = Some doorway_video) by reflexivity.
  split; [exact H |].
  exact (proj1 (video_panels_follow_the_events _ _ _ _ _ H)).
Defined.

(** The trail of track 7 on the second image of that video. *)
Lemma video_trails_hold_recent_centers_witness :
  create_video doorway_images doorway_frames (get_events doorway_counter) None
    = Some doorway_video /\
  exists panel trails,
    doorway_video !! 1%nat = Some (panel, trails) /\
    forall trail, trails !! 7 = Some trail -> (1 <= length trail <= 30)%nat.
Proof.
  assert (H1 : create_video doorway_images doorway_frames (get_events doorway_counter) None
               = Some doorway_video) by reflexivity.
  split; [exact H1 |].
  destruct (doorway_video !! 1%nat) as [[panel trails]|] eqn:H2;
    [| by vm_compute in H2].
  exists panel, trails. split; [reflexivity |].
  exact (proj2 (video_trails_hold_recent_centers _ _ _ _ _ 1 panel trails 7 H1 H2)).
Defined.

(** The last panel of that video shows the totals of [doorway_counter]. *)
Lemma video_ends_on_report_totals_witness :
  create_video doorway_images doorway_frames (get_events doorway_counter) None
    = Some doorway_video /\
  (forall f, f ∈ doorway_frames ->
     1 <= frame f <= Z.of_nat (length (limit_frames None doorway_images))) /\
  exists panel trails,
    last doorway_video = Some (panel, trails) /\
    panel_in panel = total_in (get_summary doorway_counter) /\
    panel_out panel = total_out (get_summary doorway_counter).
Proof.
  assert (H1 : create_video doorway_images doorway_frames (get_events doorway_counter) None
               = Some doorway_video) by reflexivity.
  assert (H2 : forall f, f ∈ doorway_frames ->
                 1 <= frame f <= Z.of_nat (length (limit_frames None doorway_images))).
  { apply Forall_forall. repeat constructor; vm_compute; discriminate. }
  split_and!; [exact H1 | exact H2 |].
  exact (proj2 (video_ends_on_report_totals (IntPos 0 0) (IntPos 0 100) 30 10
                  doorway_images doorway_frames None doorway_video H1) H2).
Defined.
